(** * Delta synchronization engine and monthly workflow runner

    A shallow embedding of

    - [execute_qlik_delta.js]: the class [QlikDeltaExecutor] (constructor,
      [fetchDeltaQueries], [safeDeleteChangedInvoiceRows],
      [executeSingleQuery], [executeAllQueries], [execute]) and the
      command-line entry point below it;
    - the monthly workflow runner (a bash script): [run_cmd_with_retry]
      and the loop over [MONTHS].

    Effects are explicit.  A run threads a [State] (the instance, the
    tables the SQL of the source reads and writes, and the files written),
    yields the list of its observable events in the order they happen,
    and is driven by an [Env], which fixes what the outside does: which
    store calls are rejected, and in which order and with which result
    the store settles the statements that are in flight. *)

From Stdlib Require Import String Ascii List ZArith NArith Arith Bool Lia.
From Stdlib Require Import DecimalString Permutation Sorted.
Import ListNotations.
Local Open Scope string_scope.
Local Open Scope list_scope.
Local Open Scope nat_scope.

(* ================================================================= *)
(** ** JavaScript values used by the entry point *)

(** A JavaScript string is a sequence of UTF-16 code units.  Command-line
    arguments are kept in this form because [parseInt] inspects code
    units; messages and SQL text, which the program only passes around,
    are kept as [string]. *)
Definition jsstring := list N.

Definition js (s : string) : jsstring :=
  map N_of_ascii (list_ascii_of_string s).

(** The dynamically typed values that occur as [options.safeDelete] and
    as results of the methods. *)
Inductive jsval :=
| JUndefined
| JNull
| JBool (b : bool)
| JNum (z : Z)
| JStr (s : string).

(** [StrWhiteSpaceChar] of ECMAScript: WhiteSpace and LineTerminator. *)
Definition isStrWhiteSpaceChar (c : N) : bool :=
  ((9 <=? c) && (c <=? 13) || (c =? 32) || (c =? 160) || (c =? 5760)
   || (8192 <=? c) && (c <=? 8202) || (c =? 8232) || (c =? 8233)
   || (c =? 8239) || (c =? 8287) || (c =? 12288) || (c =? 65279))%N.

Fixpoint trimStart (s : jsstring) : jsstring :=
  match s with
  | c :: rest => if isStrWhiteSpaceChar c then trimStart rest else s
  | [] => []
  end.

Definition isDecimalDigit (c : N) : bool := ((48 <=? c) && (c <=? 57))%N.

(** The longest prefix of decimal digits. *)
Fixpoint digitPrefix (s : jsstring) : list N :=
  match s with
  | c :: rest => if isDecimalDigit c then c :: digitPrefix rest else []
  | [] => []
  end.

Definition digitsValue (ds : list N) : Z :=
  fold_left (fun (acc : Z) (c : N) => (10 * acc + Z.of_N (c - 48)%N)%Z) ds 0%Z.

(** [parseInt(s, 10)].  [None] is NaN.  The result of JavaScript is a
    double; an integer is kept here exactly.  Rounding to a double maps a
    non-zero integer to a non-zero double or to an infinity, and zero
    (of either sign) to zero, so truthiness, the only thing the entry
    point looks at, is the same. *)
Definition parseInt10 (s : jsstring) : option Z :=
  let trimmed := trimStart s in
  let '(sign, body) :=
    match trimmed with
    | 45%N :: rest => ((-1)%Z, rest)
    | 43%N :: rest => (1%Z, rest)
    | _ => (1%Z, trimmed)
    end in
  match digitPrefix body with
  | [] => None
  | ds => Some (sign * digitsValue ds)%Z
  end.

(** [x || 0] on a number: NaN and zero are falsy. *)
Definition orZero (x : option Z) : Z :=
  match x with
  | Some z => if (z =? 0)%Z then 0%Z else z
  | None => 0%Z
  end.

(** [Boolean(n)] on a number that is not NaN. *)
Definition Boolean (n : Z) : bool := negb (n =? 0)%Z.

(** [a ?? d]: [None] is [undefined], what indexing [process.argv] past
    its end gives. *)
Definition nullish (a : option jsstring) (d : jsstring) : jsstring :=
  match a with
  | Some v => v
  | None => d
  end.

(** [process.argv[i]]. *)
Definition argvAt (argv : list jsstring) (i : nat) : option jsstring :=
  nth_error argv i.


(* ================================================================= *)
(** ** Data of the engine *)

(** A row of [qlik_invoice_view_delta]; [mdm_invoice_id] and [mdm_sql]
    are nullable columns. *)
Record DeltaRow := {
  row_invoice_line_id : Z;
  row_mdm_invoice_id : option string;
  row_mdm_sql : option string
}.

(** An element of the array [fetchDeltaQueries] returns: a row whose
    [mdm_sql] is neither null nor empty. *)
Record Query := {
  invoice_line_id : Z;
  mdm_invoice_id : option string;
  mdm_sql : string
}.

(** The object [executeSingleQuery] returns.  [error] is [null] and the
    property [mdm_sql] is absent when [success] is [true]. *)
Record Result := {
  res_invoice_line_id : Z;
  success : bool;
  error : option string;
  res_mdm_sql : option string
}.

(** A row of [mdm_invoice_qlik], as far as the program touches it. *)
Record InvoiceRow := {
  inv_mdm_invoice_id : string;
  deleted_at : option Z
}.

(** The store behind [this.sequelize]. *)
Record Store := {
  qlik_invoice_view_delta : list DeltaRow;
  mdm_invoice_line_to_remove_qlik : list string;
  mdm_invoice_qlik : list InvoiceRow
}.

(** The instance: [this.failedQueries] and [this.safeDelete].
    [this.sequelize] is the one connection [connectDB()] returned; the
    store it leads to is the [store] of the state below. *)
Record Executor := {
  failedQueries : list Result;
  safeDelete : bool
}.

(** What a run can change: the instance, the store, and the files
    written with [fs.writeFileSync] (the latest write first). *)
Record State := {
  this : Executor;
  store : Store;
  files : list (string * list Result)
}.

(** What a run does, in the order it does it. *)
Inductive Event :=
| EConnect
| EAuthenticate
| EFetchDelta
| ESelectMarkers
| ERetire (ids : list string) (matched : nat)
| EStart (q : Query)
| ESettle (q : Query) (answer : option string)
| EProgress (processed success failed : nat)
| ESummary (total : nat) (successes : Z) (failures : nat)
| EWriteFile (name : string) (records : list Result)
| EClose
| EExit (code : Z).

(** What the outside does during one run of [execute].  A field
    [..._fault] set to [Some msg] makes that call reject with an error
    whose message is [msg].  [settles] is the order in which the store
    settles the statements in flight: each entry picks one of them (by
    its position among those in flight, taken modulo their number) and
    gives the answer, [None] for success and [Some msg] for an error.  A
    list shorter than the number of statements leaves the last ones
    unanswered for ever.  [spliced_update] is what the store makes of
    the [UPDATE] of the safe-delete pass when a marker has a quote in
    it: the markers are put into the text of the statement as they are,
    so that such a marker ends its literal early and what follows it is
    read as SQL; the store after the statement, also when the statement
    fails in the end, and the number of rows it reports are then up to
    the store. *)
Record Env := {
  authenticate_fault : option string;
  fetch_fault : option string;
  select_markers_fault : option string;
  update_fault : option string;
  update_now : Z;
  spliced_update : string -> Store -> Store * nat;
  settles : list (nat * option string);
  write_fault : option string;
  close_fault : option string;
  report_time : string
}.

(* ================================================================= *)
(** ** Asynchronous code as a monad *)

(** How an awaited computation ends: with a value, with a thrown error
    (its message), with the process gone ([process.exit]), or never. *)
Inductive Outcome (A : Type) :=
| Ret (a : A)
| Throw (msg : string)
| Exit (code : Z)
| Pending.
Arguments Ret {A} a.
Arguments Throw {A} msg.
Arguments Exit {A} code.
Arguments Pending {A}.

Definition M (A : Type) : Type := State -> Outcome A * State * list Event.

Definition ret {A} (a : A) : M A := fun s => (Ret a, s, []).

Definition throw {A} (msg : string) : M A := fun s => (Throw msg, s, []).

Definition emit (e : Event) : M unit := fun s => (Ret tt, s, [e]).

Definition bind {A B} (m : M A) (f : A -> M B) : M B :=
  fun s =>
    match m s with
    | (Ret a, s1, t1) => let '(r, s2, t2) := f a s1 in (r, s2, t1 ++ t2)
    | (Throw msg, s1, t1) => (Throw msg, s1, t1)
    | (Exit c, s1, t1) => (Exit c, s1, t1)
    | (Pending, s1, t1) => (Pending, s1, t1)
    end.

Notation "x <- m ;; k" := (bind m (fun x => k))
  (at level 61, m at next level, right associativity).
Notation "m ;;; k" := (bind m (fun _ => k))
  (at level 61, right associativity).

(** [try { body } catch (error) { handler }] *)
Definition try_catch {A} (body : M A) (handler : string -> M A) : M A :=
  fun s =>
    match body s with
    | (Throw msg, s1, t1) =>
        let '(r, s2, t2) := handler msg s1 in (r, s2, t1 ++ t2)
    | other => other
    end.

(** [try { body } finally { fin }]: [fin] runs when [body] returns or
    throws, and what [fin] throws replaces the result of [body].  When
    the process exits inside [body], nothing runs any more. *)
Definition try_finally {A} (body : M A) (fin : M unit) : M A :=
  fun s =>
    match body s with
    | (Ret a, s1, t1) =>
        match fin s1 with
        | (Ret _, s2, t2) => (Ret a, s2, t1 ++ t2)
        | (Throw msg, s2, t2) => (Throw msg, s2, t1 ++ t2)
        | (Exit c, s2, t2) => (Exit c, s2, t1 ++ t2)
        | (Pending, s2, t2) => (Pending, s2, t1 ++ t2)
        end
    | (Throw msg, s1, t1) =>
        match fin s1 with
        | (Ret _, s2, t2) => (Throw msg, s2, t1 ++ t2)
        | (Throw msg', s2, t2) => (Throw msg', s2, t1 ++ t2)
        | (Exit c, s2, t2) => (Exit c, s2, t1 ++ t2)
        | (Pending, s2, t2) => (Pending, s2, t1 ++ t2)
        end
    | (Exit c, s1, t1) => (Exit c, s1, t1)
    | (Pending, s1, t1) => (Pending, s1, t1)
    end.

(** [process.exit(code)] *)
Definition process_exit {A} (code : Z) : M A :=
  fun s => (Exit code, s, [EExit code]).

(** A call on the connection that the outside may reject. *)
Definition guarded (fault : option string) (e : Event) : M unit :=
  match fault with
  | Some msg => throw msg
  | None => emit e
  end.

Definition get_store : M Store := fun s => (Ret (store s), s, []).

Definition put_store (st : Store) : M unit :=
  fun s => (Ret tt, {| this := this s; store := st; files := files s |}, []).

Definition get_this : M Executor := fun s => (Ret (this s), s, []).

Definition put_this (x : Executor) : M unit :=
  fun s => (Ret tt, {| this := x; store := store s; files := files s |}, []).

(* ================================================================= *)
(** ** The class [QlikDeltaExecutor] *)

Definition CONCURRENCY_LIMIT : nat := 500.

(** The same constant in the earlier version of the file, which has no
    safe-delete pass. *)
Definition CONCURRENCY_LIMIT_earlier : nat := 200.

(** The argument of the constructor; [JUndefined] when the property is
    absent. *)
Record Options := { opt_safeDelete : jsval }.

(** [constructor(options = {})] *)
Definition new_QlikDeltaExecutor (options : Options) : Executor :=
  {| failedQueries := [];
     safeDelete := match opt_safeDelete options with
                   | JBool b => b
                   | _ => true
                   end |}.

Definition construct (options : Options) : M unit :=
  emit EConnect ;;; put_this (new_QlikDeltaExecutor options).

(** *** [fetchDeltaQueries] *)

Definition query_of_row (r : DeltaRow) : option Query :=
  match row_mdm_sql r with
  | Some sql =>
      if String.eqb sql EmptyString then None
      else Some {| invoice_line_id := row_invoice_line_id r;
                   mdm_invoice_id := row_mdm_invoice_id r;
                   mdm_sql := sql |}
  | None => None
  end.

Fixpoint insert_by_id (q : Query) (l : list Query) : list Query :=
  match l with
  | [] => [q]
  | x :: rest =>
      if (invoice_line_id q <? invoice_line_id x)%Z then q :: l
      else x :: insert_by_id q rest
  end.

(** [SELECT invoice_line_id, mdm_invoice_id, mdm_sql
     FROM qlik_invoice_view_delta
     WHERE mdm_sql IS NOT NULL AND mdm_sql != ''
     ORDER BY invoice_line_id] *)
Definition select_delta (st : Store) : list Query :=
  fold_right
    (fun r acc => match query_of_row r with
                  | Some q => insert_by_id q acc
                  | None => acc
                  end)
    [] (qlik_invoice_view_delta st).

Definition fetchDeltaQueries (env : Env) : M (list Query) :=
  try_catch
    (guarded (fetch_fault env) EFetchDelta ;;;
     st <- get_store ;;
     ret (select_delta st))
    (fun msg => throw msg).

(** *** [safeDeleteChangedInvoiceRows] *)

(** [results.map(id => `'${id.mdm_invoice_id}'`).join(',')]: the
    markers as they are put into the text of the statement, each between
    two quotes and otherwise as it is (a marker is the text the
    template makes of it). *)
Definition in_list (ids : list string) : string :=
  String.concat "," (map (fun id => ("'" ++ id ++ "'")%string) ids).

(** Whether a marker has no quote in it.  Only then is it, between its
    two quotes, one string literal of the statement and nothing else. *)
Fixpoint quote_free (id : string) : bool :=
  match id with
  | EmptyString => true
  | String c rest => negb (Ascii.eqb c "'"%char) && quote_free rest
  end.

(** Whether the identifier of a row is one of the literals [ids]. *)
Definition named_in (ids : list string) (r : InvoiceRow) : bool :=
  existsb (String.eqb (inv_mdm_invoice_id r)) ids.

(** [UPDATE mdm_invoice_qlik SET deleted_at = NOW()
     WHERE mdm_invoice_id IN ('id1','id2',...)], for a list of
    literals. *)
Definition update_deleted_at (ids : list string) (now : Z)
    (rows : list InvoiceRow) : list InvoiceRow :=
  map (fun r => if named_in ids r
                then {| inv_mdm_invoice_id := inv_mdm_invoice_id r;
                        deleted_at := Some now |}
                else r)
      rows.

(** The number of rows that statement matches. *)
Definition rows_matched (ids : list string) (rows : list InvoiceRow) : nat :=
  length (filter (named_in ids) rows).

(** What the store makes of the [UPDATE] whose list is [in_list ids]:
    the store after it, and the number of rows it reports.  When no
    marker has a quote the list is a list of literals, and the statement
    sets [deleted_at] on the rows whose identifier is one of them.
    Otherwise the text is not that list, and the outside says what the
    store does with it. *)
Definition run_update (env : Env) (ids : list string) (st : Store)
    : Store * nat :=
  if forallb quote_free ids
  then ({| qlik_invoice_view_delta := qlik_invoice_view_delta st;
           mdm_invoice_line_to_remove_qlik :=
             mdm_invoice_line_to_remove_qlik st;
           mdm_invoice_qlik :=
             update_deleted_at ids (update_now env) (mdm_invoice_qlik st) |},
        rows_matched ids (mdm_invoice_qlik st))
  else spliced_update env (in_list ids) st.

(** The store after that [UPDATE] has failed: as it was, unless a
    marker has a quote. *)
Definition failed_update (env : Env) (ids : list string) (st : Store) : Store :=
  if forallb quote_free ids then st
  else fst (spliced_update env (in_list ids) st).

Definition safeDeleteChangedInvoiceRows (env : Env) : M jsval :=
  try_catch
    (guarded (select_markers_fault env) ESelectMarkers ;;;
     st <- get_store ;;
     let results := mdm_invoice_line_to_remove_qlik st in
     if length results =? 0 then ret (JBool true)
     else
       match update_fault env with
       | Some msg => put_store (failed_update env results st) ;;; throw msg
       | None =>
           emit (ERetire results (snd (run_update env results st))) ;;;
           put_store (fst (run_update env results st)) ;;;
           ret (JBool true)
       end)
    (fun msg => throw msg).

(** *** [executeSingleQuery] *)

(** A settled promise. *)
Inductive Settled (A : Type) :=
| Fulfilled (a : A)
| Rejected (msg : string).
Arguments Fulfilled {A} a.
Arguments Rejected {A} msg.

(** [executeSingleQuery(queryData)] issues [this.sequelize.query(mdm_sql)]
    at once (the event [EStart]) and goes on when the store answers.
    This is the part after the [await]: [answer] is [None] when the
    statement succeeded and [Some msg] when it threw. *)
Definition executeSingleQuery (queryData : Query) (answer : option string)
    : Settled Result :=
  match answer with
  | None =>
      Fulfilled {| res_invoice_line_id := invoice_line_id queryData;
                   success := true;
                   error := None;
                   res_mdm_sql := None |}
  | Some msg =>
      Fulfilled {| res_invoice_line_id := invoice_line_id queryData;
                   success := false;
                   error := Some msg;
                   res_mdm_sql := Some (mdm_sql queryData) |}
  end.

(** *** [executeAllQueries] *)

(** The state of one call [async.eachOfLimit(allQueries, limit, iteratee,
    callback)] together with the variables of [executeAllQueries] the
    iteratee closes over.

    - [queue]: the elements the iterator has not handed out yet;
    - [inflight]: the statements sent to the store and not answered yet,
      oldest first;
    - [running], [done]: the counter and the flag of [eachOfLimit];
    - [finished]: whether the final callback was called, and with which
      error ([Some None] is [callback(null)]);
    - [pool_failed]: [this.failedQueries];
    - [successCount], [processedCount]: the two [let]s;
    - [trace]: what has happened so far. *)
Record Pool := {
  queue : list Query;
  inflight : list Query;
  running : nat;
  done : bool;
  finished : option (option string);
  pool_failed : list Result;
  successCount : nat;
  processedCount : nat;
  trace : list Event
}.

Definition init_pool (failed : list Result) : Pool :=
  {| queue := []; inflight := []; running := 0; done := false;
     finished := None; pool_failed := failed; successCount := 0;
     processedCount := 0; trace := [] |}.

Definition with_queue (items : list Query) (p : Pool) : Pool :=
  {| queue := items; inflight := inflight p; running := running p;
     done := done p; finished := finished p; pool_failed := pool_failed p;
     successCount := successCount p; processedCount := processedCount p;
     trace := trace p |}.

Definition log_event (e : Event) (p : Pool) : Pool :=
  {| queue := queue p; inflight := inflight p; running := running p;
     done := done p; finished := finished p; pool_failed := pool_failed p;
     successCount := successCount p; processedCount := processedCount p;
     trace := trace p ++ [e] |}.

(** The final callback is wrapped in [once]: only its first call
    counts. *)
Definition finish (err : option string) (p : Pool) : Pool :=
  {| queue := queue p; inflight := inflight p; running := running p;
     done := true;
     finished := match finished p with
                 | None => Some err
                 | Some r => Some r
                 end;
     pool_failed := pool_failed p;
     successCount := successCount p; processedCount := processedCount p;
     trace := trace p |}.

Definition set_done (p : Pool) : Pool :=
  {| queue := queue p; inflight := inflight p; running := running p;
     done := true; finished := finished p; pool_failed := pool_failed p;
     successCount := successCount p; processedCount := processedCount p;
     trace := trace p |}.

(** [running += 1; iteratee(elem.value, elem.key, ...)]: the iteratee
    calls [executeSingleQuery], which sends the statement. *)
Definition admit_one (q : Query) (p : Pool) : Pool :=
  {| queue := queue p; inflight := inflight p ++ [q];
     running := S (running p);
     done := done p; finished := finished p; pool_failed := pool_failed p;
     successCount := successCount p; processedCount := processedCount p;
     trace := trace p ++ [EStart q] |}.

(** Modelled from the spec: [async.eachOfLimit], of the package [async],
    which is not part of the sources.  Section 4.3: keep [limit]
    attempts outstanding; as each attempt completes, admit the next
    queued operation until the queue is exhausted, then wait for all
    outstanding attempts to drain.  This is the loop that admits:
    [while (running < limit && !done)], taking the next element, and
    calling the final callback when there is none and nothing runs. *)
Fixpoint replenish (limit : nat) (items : list Query) (p : Pool) : Pool :=
  match items with
  | [] =>
      if (running p <? limit) && negb (done p)
      then if running p <=? 0
           then finish None (with_queue [] p)
           else set_done (with_queue [] p)
      else with_queue [] p
  | q :: rest =>
      if (running p <? limit) && negb (done p)
      then replenish limit rest (admit_one q p)
      else with_queue (q :: rest) p
  end.

(** The handler passed to [.then]: collect the failure or count the
    success, count the result, report progress every 100 results and at
    the last one. *)
Definition on_result (totalQueries : nat) (result : Result) (p : Pool) : Pool :=
  let failed' :=
    if negb (success result) then pool_failed p ++ [result]
    else pool_failed p in
  let successCount' :=
    if negb (success result) then successCount p
    else S (successCount p) in
  let processedCount' := S (processedCount p) in
  let p' :=
    {| queue := queue p; inflight := inflight p; running := running p;
       done := done p; finished := finished p; pool_failed := failed';
       successCount := successCount'; processedCount := processedCount';
       trace := trace p |} in
  if (processedCount' mod 100 =? 0) || (processedCount' =? totalQueries)
  then log_event (EProgress processedCount' successCount' (length failed')) p'
  else p'.

(** Modelled from the spec: the callback [async.eachOfLimit] hands to the
    iteratee (see [replenish]).  One attempt has completed: with an
    error the whole call fails; otherwise, when the queue is exhausted
    and nothing runs, the call completes; otherwise the next operations
    are admitted. *)
Definition iterateeCallback (limit : nat) (err : option string) (p : Pool)
    : Pool :=
  let p1 :=
    {| queue := queue p; inflight := inflight p; running := running p - 1;
       done := done p; finished := finished p; pool_failed := pool_failed p;
       successCount := successCount p; processedCount := processedCount p;
       trace := trace p |} in
  match err with
  | Some msg => finish (Some msg) p1
  | None =>
      if done p1 && (running p1 <=? 0) then finish None p1
      else replenish limit (queue p1) p1
  end.

(** [l] without its [k]-th element. *)
Fixpoint remove_nth {A} (k : nat) (l : list A) : list A :=
  match l, k with
  | [], _ => []
  | _ :: rest, 0 => rest
  | x :: rest, S k' => x :: remove_nth k' rest
  end.

(** The store answers one of the statements in flight.  The promise of
    [executeSingleQuery] settles, and [.then] or [.catch] of the iteratee
    runs.  With nothing in flight there is nothing to answer. *)
Definition settle (limit totalQueries : nat) (ev : nat * option string)
    (p : Pool) : Pool :=
  match inflight p with
  | [] => p
  | q0 :: _ =>
      let k := fst ev mod length (inflight p) in
      let q := nth k (inflight p) q0 in
      let p1 :=
        {| queue := queue p; inflight := remove_nth k (inflight p);
           running := running p;
           done := done p; finished := finished p;
           pool_failed := pool_failed p;
           successCount := successCount p;
           processedCount := processedCount p;
           trace := trace p ++ [ESettle q (snd ev)] |} in
      match executeSingleQuery q (snd ev) with
      | Fulfilled result =>
          iterateeCallback limit None (on_result totalQueries result p1)
      | Rejected msg =>
          iterateeCallback limit (Some msg) p1
      end
  end.

(** Modelled from the spec: the call [async.eachOfLimit(allQueries,
    limit, iteratee, callback)] as a whole (see [replenish]), under the
    answers [answers] of the store; the iteratee is the one of
    [executeAllQueries]. *)
Definition eachOfLimit (limit : nat) (allQueries : list Query)
    (answers : list (nat * option string)) (failed : list Result) : Pool :=
  fold_left (fun p ev => settle limit (length allQueries) ev p)
            answers
            (replenish limit allQueries (init_pool failed)).

(** [executeAllQueries(allQueries)] with the limit as a parameter. *)
Definition executeAllQueries_limit (limit : nat) (env : Env)
    (allQueries : list Query) : M unit :=
  fun s =>
    let p := eachOfLimit limit allQueries (settles env)
                         (failedQueries (this s)) in
    let s' := {| this := {| failedQueries := pool_failed p;
                            safeDelete := safeDelete (this s) |};
                 store := store s;
                 files := files s |} in
    match finished p with
    | Some None => (Ret tt, s', trace p)
    | Some (Some msg) => (Throw msg, s', trace p)
    | None => (Pending, s', trace p)
    end.

Definition executeAllQueries (env : Env) (allQueries : list Query) : M unit :=
  executeAllQueries_limit CONCURRENCY_LIMIT env allQueries.

(** *** [execute] *)

(** [s.split('T')[0]] *)
Fixpoint beforeT (s : string) : string :=
  match s with
  | EmptyString => EmptyString
  | String c rest =>
      if Ascii.eqb c "T"%char then EmptyString else String c (beforeT rest)
  end.

(** [`failed_queries_${new Date().toISOString().split('T')[0]}.json`] *)
Definition failuresFile (env : Env) : string :=
  ("failed_queries_" ++ beforeT (report_time env) ++ ".json")%string.

Definition writeFileSync (env : Env) (name : string) (records : list Result)
    : M unit :=
  guarded (write_fault env) (EWriteFile name records) ;;;
  (fun s => (Ret tt,
             {| this := this s; store := store s;
                files := (name, records) :: files s |},
             [])).

Definition execute (env : Env) : M unit :=
  try_finally
    (try_catch
       (guarded (authenticate_fault env) EAuthenticate ;;;
        allQueries <- fetchDeltaQueries env ;;
        self <- get_this ;;
        (if safeDelete self
         then safeDeleteChangedInvoiceRows env ;;; ret tt
         else ret tt) ;;;
        if length allQueries =? 0 then ret tt
        else
          executeAllQueries env allQueries ;;;
          self <- get_this ;;
          emit (ESummary (length allQueries)
                         (Z.of_nat (length allQueries)
                          - Z.of_nat (length (failedQueries self)))
                         (length (failedQueries self))) ;;;
          if 0 <? length (failedQueries self)
          then writeFileSync env (failuresFile env) (failedQueries self)
          else ret tt)
       (fun _ => process_exit 1))
    (guarded (close_fault env) EClose).

(** *** The entry point *)

(** [parseInt(process.argv[2] ?? '0', 10) || 0] *)
Definition modeFlag (argv : list jsstring) : Z :=
  orZero (parseInt10 (nullish (argvAt argv 2) (js "0"))).

(** [parseInt(process.argv[3] ?? '1', 10) || 0] *)
Definition safeDeleteFlag (argv : list jsstring) : Z :=
  orZero (parseInt10 (nullish (argvAt argv 3) (js "1"))).

(** [new QlikDeltaExecutor({ safeDelete: Boolean(safeDeleteFlag) })] *)
Definition cli_options (argv : list jsstring) : Options :=
  {| opt_safeDelete := JBool (Boolean (safeDeleteFlag argv)) |}.

Definition cli_executor (argv : list jsstring) : Executor :=
  new_QlikDeltaExecutor (cli_options argv).

(** The default mode ([modeFlag] is not 1): construct the executor, run
    [execute], and leave with 0 when it resolves and with 1 when it
    rejects. *)
Definition cli_run (argv : list jsstring) (env : Env) : M unit :=
  construct (cli_options argv) ;;;
  try_catch (execute env ;;; process_exit 0) (fun _ => process_exit 1).

(* ================================================================= *)
(** ** The monthly workflow runner *)

(** What the script does, in order: a line on standard output, a
    command run with [bash -c] (its attempt number, whether it exited
    with 0, and what it printed), and text appended to a file. *)
Inductive WfEvent :=
| WEcho (line : string)
| WRun (cmd : string) (attempt : nat) (ok : bool) (output : string)
| WAppend (file : string) (text : string).

Definition show_nat (n : nat) : string :=
  NilZero.string_of_uint (Nat.to_uint n).

(** The double-quote character. *)
Definition dq : string := String (ascii_of_nat 34) EmptyString.

Definition YEAR : string := "2024".

Definition MONTHS : list string :=
  ["09"; "08"; "07"; "06"; "05"; "04"; "03"; "02"; "01"].

Definition max_attempts : nat := 2.

Section Workflow.

(** The machine the script runs on: its state, what [bash -c cmd]
    does to it (exit status 0 or not, and the captured output), and
    the test [[ -f path ]].  Appending to the log files of
    [failed_months], which the script has just created, is taken to
    succeed. *)
Variable Machine : Type.
Variable bash_c : string -> Machine -> bool * string * Machine.
Variable is_file : string -> Machine -> bool.

(** [$WORKDIR] *)
Variable WORKDIR : string.

Definition FAILED_DIR : string := (WORKDIR ++ "/failed_months")%string.

(** The loop of [run_cmd_with_retry]: [remaining] iterations are left
    when [attempt] is tested against [max_attempts].  The result is
    [true] for [return 0]. *)
Fixpoint retry_loop (remaining attempt : nat) (FAILFILE cmd failfile : string)
    (m : Machine) : bool * Machine * list WfEvent :=
  match remaining with
  | 0 => (false, m, [])
  | S remaining' =>
      let head :=
        WEcho ("[" ++ FAILFILE ++ "] Attempt " ++ show_nat attempt
               ++ ": " ++ cmd)%string in
      let '(ok, tmpout, m1) := bash_c cmd m in
      if ok
      then (true, m1,
            [head; WRun cmd attempt true tmpout;
             WEcho ("Command succeeded on attempt " ++ show_nat attempt)%string])
      else
        let '(r, m2, t) :=
          retry_loop remaining' (attempt + 1) FAILFILE cmd failfile m1 in
        (r, m2,
         [head; WRun cmd attempt false tmpout;
          WEcho ("Command failed on attempt " ++ show_nat attempt)%string;
          WAppend failfile
            ("---- attempt " ++ show_nat attempt ++ " output ----")%string;
          WAppend failfile tmpout;
          WAppend failfile
            ("---- end attempt " ++ show_nat attempt ++ " ----")%string]
          ++ t)
  end.

(** [run_cmd_with_retry "$cmd" "$failfile"], with the global
    [$FAILFILE] it prints. *)
Definition run_cmd_with_retry (FAILFILE cmd failfile : string) (m : Machine)
    : bool * Machine * list WfEvent :=
  retry_loop max_attempts 1 FAILFILE cmd failfile m.

Definition INVOICE (MM : string) : string :=
  (WORKDIR ++ "/invoice_list_by_month/invoice_" ++ YEAR ++ "_" ++ MM
   ++ ".xlsx")%string.

Definition FAILFILE (MM : string) : string :=
  (FAILED_DIR ++ "/failed_" ++ YEAR ++ "_" ++ MM ++ ".log")%string.

Definition PART1 (MM : string) : string :=
  ("node " ++ dq ++ WORKDIR ++ "/xl_2_csv.js" ++ dq ++ " " ++ dq
   ++ INVOICE MM ++ dq ++ " && node " ++ dq ++ WORKDIR
   ++ "/read-file-2-db.js" ++ dq ++ " output.csv qlik_invoice_raw")%string.

Definition PART2 : string :=
  ("node " ++ dq ++ WORKDIR ++ "/execute_qlik_delta.js" ++ dq)%string.

Definition processing_line (MM : string) : string :=
  ("\n===== Processing " ++ YEAR ++ "-" ++ MM ++ " =====")%string.

(** The body of [for MM in "${MONTHS[@]}"]. *)
Definition month_body (MM : string) (m : Machine) : Machine * list WfEvent :=
  let start := WEcho (processing_line MM) in
  if negb (is_file (INVOICE MM) m)
  then (m,
        [start;
         WEcho ("Invoice file missing: " ++ INVOICE MM)%string;
         WAppend (FAILFILE MM) ("Invoice file missing: " ++ INVOICE MM)%string;
         WEcho ("Skipping " ++ YEAR ++ "-" ++ MM)%string])
  else
    let '(ok1, m1, t1) :=
      run_cmd_with_retry (FAILFILE MM) (PART1 MM) (FAILFILE MM) m in
    if ok1
    then
      let '(ok2, m2, t2) :=
        run_cmd_with_retry (FAILFILE MM) PART2 (FAILFILE MM) m1 in
      if ok2
      then (m2,
            [start] ++ t1
            ++ [WEcho ("Part 1 succeeded for " ++ YEAR ++ "-" ++ MM)%string]
            ++ t2
            ++ [WEcho ("Part 2 succeeded for " ++ YEAR ++ "-" ++ MM)%string;
                WEcho ("Completed " ++ YEAR ++ "-" ++ MM)%string])
      else (m2,
            [start] ++ t1
            ++ [WEcho ("Part 1 succeeded for " ++ YEAR ++ "-" ++ MM)%string]
            ++ t2
            ++ [WEcho ("Part 2 failed after retries for " ++ YEAR ++ "-" ++ MM
                       ++ ". See " ++ FAILFILE MM)%string])
    else (m1,
          [start] ++ t1
          ++ [WEcho ("Part 1 failed after retries for " ++ YEAR ++ "-" ++ MM
                     ++ ". See " ++ FAILFILE MM)%string]).

Fixpoint month_loop (months : list string) (m : Machine)
    : Machine * list WfEvent :=
  match months with
  | [] => (m, [])
  | MM :: rest =>
      let '(m1, t1) := month_body MM m in
      let '(m2, t2) := month_loop rest m1 in
      (m2, t1 ++ t2)
  end.

(** The script from the loop on. *)
Definition run_monthly_workflow (m : Machine) : Machine * list WfEvent :=
  let '(m1, t) := month_loop MONTHS m in
  (m1,
   t ++ [WEcho ("\nAll months processed. Failed logs (if any) are in: "
                ++ FAILED_DIR)%string]).

End Workflow.

(** The commands of trace [t] that ran [cmd]: attempt, status, output. *)
Fixpoint runs_of (cmd : string) (t : list WfEvent) : list (nat * bool * string) :=
  match t with
  | [] => []
  | WRun c a ok out :: rest =>
      if String.eqb c cmd then (a, ok, out) :: runs_of cmd rest
      else runs_of cmd rest
  | _ :: rest => runs_of cmd rest
  end.

(** What trace [t] appended to [file], in order. *)
Fixpoint appended_to (file : string) (t : list WfEvent) : list string :=
  match t with
  | [] => []
  | WAppend f text :: rest =>
      if String.eqb f file then text :: appended_to file rest
      else appended_to file rest
  | _ :: rest => appended_to file rest
  end.

(** The months whose processing trace [t] announces. *)
Fixpoint lines_echoed (t : list WfEvent) : list string :=
  match t with
  | [] => []
  | WEcho l :: rest => l :: lines_echoed rest
  | _ :: rest => lines_echoed rest
  end.

(* ================================================================= *)
(** ** Reading a trace of the engine *)

(** The statements sent to the store, in the order they were sent. *)
Definition starts_of (t : list Event) : list Query :=
  flat_map (fun e => match e with EStart q => [q] | _ => [] end) t.

(** The statements the store answered, each with its answer, in the
    order of the answers. *)
Definition settled_of (t : list Event) : list (Query * option string) :=
  flat_map (fun e => match e with ESettle q a => [(q, a)] | _ => [] end) t.

(** The failed outcome of an answered statement, if it failed. *)
Definition failure_record (x : Query * option string) : list Result :=
  match snd x with
  | Some msg => [{| res_invoice_line_id := invoice_line_id (fst x);
                    success := false;
                    error := Some msg;
                    res_mdm_sql := Some (mdm_sql (fst x)) |}]
  | None => []
  end.

Definition failures_of (t : list Event) : list Result :=
  flat_map failure_record (settled_of t).

Definition succeeded (x : Query * option string) : bool :=
  match snd x with
  | None => true
  | Some _ => false
  end.

Definition successes_of (t : list Event) : nat :=
  length (filter succeeded (settled_of t)).

(** A counter of the statements in flight, run along a trace: the
    current value and the largest value seen. *)
Definition counter_step (c : nat * nat) (e : Event) : nat * nat :=
  match e with
  | EStart _ => (S (fst c), Nat.max (snd c) (S (fst c)))
  | ESettle _ _ => (fst c - 1, snd c)
  | _ => c
  end.

Definition in_flight_counter (t : list Event) : nat * nat :=
  fold_left counter_step t (0, 0).

Definition max_in_flight (t : list Event) : nat := snd (in_flight_counter t).

(** The events of [executeAllQueries]. *)
Definition is_pool_event (e : Event) : bool :=
  match e with
  | EStart _ | ESettle _ _ | EProgress _ _ _ => true
  | _ => false
  end.

Definition pool_events (t : list Event) : Prop :=
  Forall (fun e => is_pool_event e = true) t.

(** The events of the safe-delete pass. *)
Definition is_guard_event (e : Event) : bool :=
  match e with
  | ESelectMarkers | ERetire _ _ => true
  | _ => false
  end.

(** The groups the bulk updates of a trace matched. *)
Definition retired_count (t : list Event) : nat :=
  fold_right (fun e n => match e with ERetire _ k => k + n | _ => n end) 0 t.

Definition summaries_of (t : list Event) : list (nat * Z * nat) :=
  flat_map (fun e => match e with
                     | ESummary n a b => [(n, a, b)]
                     | _ => []
                     end) t.

Definition writes_of (t : list Event) : list (string * list Result) :=
  flat_map (fun e => match e with
                     | EWriteFile name recs => [(name, recs)]
                     | _ => []
                     end) t.

Definition closes_of (t : list Event) : nat :=
  length (filter (fun e => match e with EClose => true | _ => false end) t).

Definition connects_of (t : list Event) : nat :=
  length (filter (fun e => match e with EConnect => true | _ => false end) t).

(** Whether a row of [mdm_invoice_qlik] is retired. *)
Definition retired (r : InvoiceRow) : bool :=
  match deleted_at r with
  | Some _ => true
  | None => false
  end.

(** The status and the number of an attempt listed by [runs_of]. *)
Definition status_of (r : nat * bool * string) : bool := snd (fst r).

Definition attempt_of (r : nat * bool * string) : nat := fst (fst r).

(** The failure log the runner owes for the attempts [runs] of a stage:
    three entries for each attempt that failed. *)
Definition failure_log (runs : list (nat * bool * string)) : list string :=
  flat_map
    (fun r : nat * bool * string =>
       if snd (fst r) then @nil string
       else [("---- attempt " ++ show_nat (fst (fst r)) ++ " output ----")%string;
             snd r;
             ("---- end attempt " ++ show_nat (fst (fst r)) ++ " ----")%string])
    runs.

(** A run with no fault outside the statements themselves. *)
Definition no_infrastructure_fault (env : Env) : Prop :=
  authenticate_fault env = None /\ fetch_fault env = None /\
  select_markers_fault env = None /\ update_fault env = None /\
  write_fault env = None /\ close_fault env = None.

(** What holds of the pool whenever control is inside [eachOfLimit],
    with [items] the elements not yet handed out. *)
Record PoolInv (L : nat) (all : list Query) (f0 : list Result)
    (items : list Query) (p : Pool) : Prop := {
  inv_items : starts_of (trace p) ++ items = all;
  inv_running : running p = length (inflight p);
  inv_bound : running p <= L;
  inv_perm : Permutation (starts_of (trace p))
                         (map fst (settled_of (trace p)) ++ inflight p);
  inv_processed : processedCount p = length (settled_of (trace p));
  inv_failed : pool_failed p = f0 ++ failures_of (trace p);
  inv_success : successCount p = successes_of (trace p);
  inv_counter_now : fst (in_flight_counter (trace p)) = running p;
  inv_counter_max : snd (in_flight_counter (trace p)) <= L;
  inv_done : done p = true -> items = []
}.

(** What holds in addition whenever control has returned to the event
    loop. *)
Record PoolStable (L : nat) (all : list Query) (f0 : list Result)
    (p : Pool) : Prop := {
  st_inv : PoolInv L all f0 (queue p) p;
  st_idle : running p = 0 -> finished p = Some None;
  st_finished : finished p = None \/ (finished p = Some None /\ running p = 0);
  st_full : queue p <> [] -> running p = L
}.

(* ================================================================= *)
(** ** Reading the result of [fetchDeltaQueries] *)

(** The order of [ORDER BY invoice_line_id]. *)
Definition id_le (a b : Query) : Prop :=
  (invoice_line_id a <= invoice_line_id b)%Z.

(** The rows of a table that pass
    [WHERE mdm_sql IS NOT NULL AND mdm_sql != ''], as queries, in the
    order of the table. *)
Definition rows_with_sql (rows : list DeltaRow) : list Query :=
  flat_map (fun r => match query_of_row r with
                     | Some q => [q]
                     | None => []
                     end) rows.

(* ================================================================= *)
(** ** Reading a trace of the runner *)

Section WorkflowReading.

Variable Machine : Type.
Variable bash_c : string -> Machine -> bool * string * Machine.

(** Running [cmd] [k] times in a row from state [m]: the status and the
    output of each run, and the state after the last. *)
Fixpoint bash_runs (k : nat) (cmd : string) (m : Machine)
    : list (bool * string) * Machine :=
  match k with
  | 0 => ([], m)
  | S k' =>
      let '(ok, out, m1) := bash_c cmd m in
      let '(rest, m2) := bash_runs k' cmd m1 in
      ((ok, out) :: rest, m2)
  end.

End WorkflowReading.

(** The status and the output of an attempt listed by [runs_of]. *)
Definition result_of (r : nat * bool * string) : bool * string :=
  (snd (fst r), snd r).

(** The line that reports a unit as done. *)
Definition completed_line (MM : string) : string :=
  ("Completed " ++ YEAR ++ "-" ++ MM)%string.

(** Whether [s] begins with [p]. *)
Fixpoint starts_with (p s : string) : bool :=
  match p, s with
  | EmptyString, _ => true
  | String a p', String b s' => Ascii.eqb a b && starts_with p' s'
  | String _ _, EmptyString => false
  end.

(* ================================================================= *)
(** ** Objects and strings of the file loader *)

Fixpoint jsstring_eqb (a b : jsstring) : bool :=
  match a, b with
  | [], [] => true
  | x :: a', y :: b' => (x =? y)%N && jsstring_eqb a' b'
  | _, _ => false
  end.

(** [s.replace(/%/g, '')] *)
Definition removePercent (s : jsstring) : jsstring :=
  filter (fun c => negb (c =? 37)%N) s.

(** [s.replace(/^[-]+/, '')] *)
Fixpoint stripLeadingDashes (s : jsstring) : jsstring :=
  match s with
  | c :: rest => if (c =? 45)%N then stripLeadingDashes rest else s
  | [] => []
  end.

(** [s.trim()]: white space and line terminators off both ends. *)
Definition trim (s : jsstring) : jsstring :=
  rev (trimStart (rev (trimStart s))).

(** Whether a property key is an array index: the canonical decimal
    form of an integer from 0 to 2^32 - 2.  An object lists such keys
    first, in ascending order, and its other string keys after them in
    the order they were created. *)
Definition arrayIndex (k : jsstring) : option N :=
  match k with
  | [] => None
  | c :: rest =>
      if forallb isDecimalDigit k
         && (negb (c =? 48)%N || match rest with [] => true | _ => false end)
      then
        let v := fold_left (fun acc d => (10 * acc + (d - 48))%N) k 0%N in
        if (v <=? 4294967294)%N then Some v else None
      else None
  end.

(** The own enumerable string-keyed properties of an ordinary object,
    in the order [for ... in] and [Object.keys] list them. *)
Definition JsObject (V : Type) : Type := list (jsstring * V).

(** The own property [k] of [o]; [None] when [o] has none. *)
Fixpoint obj_get {V} (k : jsstring) (o : JsObject V) : option V :=
  match o with
  | [] => None
  | (k', v) :: rest => if jsstring_eqb k' k then Some v else obj_get k rest
  end.

Definition obj_has {V} (k : jsstring) (o : JsObject V) : bool :=
  existsb (fun kv => jsstring_eqb (fst kv) k) o.

(** Assigning to a property the object has: the property keeps its
    place. *)
Fixpoint obj_replace {V} (k : jsstring) (v : V) (o : JsObject V) : JsObject V :=
  match o with
  | [] => []
  | (k', v') :: rest =>
      if jsstring_eqb k' k then (k', v) :: rest
      else (k', v') :: obj_replace k v rest
  end.

(** Creating a property whose key is the array index [n]: it goes
    before the first property that is no array index or has a greater
    index. *)
Fixpoint obj_insert_index {V} (n : N) (k : jsstring) (v : V) (o : JsObject V)
    : JsObject V :=
  match o with
  | [] => [(k, v)]
  | (k', v') :: rest =>
      match arrayIndex k' with
      | Some n' =>
          if (n <? n')%N then (k, v) :: o
          else (k', v') :: obj_insert_index n k v rest
      | None => (k, v) :: o
      end
  end.

(** [o[k] = v] *)
Definition obj_set {V} (k : jsstring) (v : V) (o : JsObject V) : JsObject V :=
  if obj_has k o then obj_replace k v o
  else match arrayIndex k with
       | Some n => obj_insert_index n k v o
       | None => o ++ [(k, v)]
       end.

(** [o[k] = v] for a value [v] that is no object, as the cells of a
    row are: the key [__proto__] reaches the setter of
    [Object.prototype], which ignores such a value, and no property is
    created. *)
Definition obj_assign {V} (k : jsstring) (v : V) (o : JsObject V) : JsObject V :=
  if jsstring_eqb k (js "__proto__") then o else obj_set k v o.

(** [Object.keys(o)] *)
Definition obj_keys {V} (o : JsObject V) : list jsstring := map fst o.

(** [cleaned.slice(i, j)] for [i <= j]. *)
Definition slice {A} (i j : nat) (l : list A) : list A :=
  firstn (j - i) (skipn i l).

(** The size of the chunks [bulkCreate] gets. *)
Definition CHUNK_SIZE : nat := 500.

(** [for (let i = 0; i < cleaned.length; i += size)] with
    [cleaned.slice(i, i + size)] in its body: the chunks, in order.
    [fuel] bounds the number of iterations. *)
Fixpoint chunk_loop {A} (size fuel i : nat) (cleaned : list A) : list (list A) :=
  match fuel with
  | 0 => []
  | S fuel' =>
      if i <? length cleaned
      then slice i (i + size) cleaned :: chunk_loop size fuel' (i + size) cleaned
      else []
  end.

(** The chunks of the loader: the loop runs at most once for each
    row. *)
Definition chunks {A} (cleaned : list A) : list (list A) :=
  chunk_loop CHUNK_SIZE (length cleaned) 0 cleaned.

Section FileLoader.

(** [String.prototype.toLowerCase], which follows the case mappings of
    Unicode, is a parameter. *)
Variable toLowerCase : jsstring -> jsstring.

(** The values of the cells: strings, numbers, booleans. *)
Variable V : Type.

(** [cleanHeader(header)] on a string, as the keys of a row are. *)
Definition cleanHeader (header : jsstring) : jsstring :=
  match header with
  | [] => js "undefined"
  | _ => toLowerCase (trim (stripLeadingDashes (removePercent header)))
  end.

(** The inner loop of [cleanData] over the properties of one row, from
    the object [newRow] built so far: the object built, and
    [hasUndefined]. *)
Fixpoint clean_row (batchid : V) (row : JsObject V) (newRow : JsObject V)
    : JsObject V * bool :=
  match row with
  | [] => (newRow, false)
  | (key, value) :: rest =>
      let cleanedKey := cleanHeader key in
      if jsstring_eqb cleanedKey (js "undefined") then (newRow, true)
      else clean_row batchid rest
             (obj_set (js "batchid") batchid
                      (obj_assign cleanedKey value newRow))
  end.

(** [cleanData(rawRows, batchid)]: [cleaned] and [faults]. *)
Fixpoint cleanData (rawRows : list (JsObject V)) (batchid : V)
    : list (JsObject V) * list (JsObject V) :=
  match rawRows with
  | [] => ([], [])
  | row :: rest =>
      let '(newRow, hasUndefined) := clean_row batchid row [] in
      let '(cleaned, faults) := cleanData rest batchid in
      if hasUndefined then (cleaned, row :: faults)
      else (newRow :: cleaned, faults)
  end.

(** Whether a header of the row is cleaned to [undefined]. *)
Definition has_undefined (row : JsObject V) : bool :=
  existsb (fun kv => jsstring_eqb (cleanHeader (fst kv)) (js "undefined")) row.

(** The value of the last property of [row] whose header is cleaned to
    [ck]. *)
Fixpoint last_value (ck : jsstring) (row : JsObject V) : option V :=
  match row with
  | [] => None
  | (key, value) :: rest =>
      match last_value ck rest with
      | Some v => Some v
      | None => if jsstring_eqb (cleanHeader key) ck then Some value else None
      end
  end.

End FileLoader.

(* ================================================================= *)
(** ** [FileProcessorService.processFile] *)

(** What [processFile] throws. *)
Inductive LoadError :=
| UnsupportedFormat (ext : jsstring)
| NoData
| KeysOfUndefined
| Failure (msg : string).

(** What [processFile] does, in order.  [LClose ok] is a call of
    [this.sequelize.close()] and whether it succeeded. *)
Inductive LoadEvent (V : Type) :=
| LRead (filePath ext : jsstring)
| LConnect
| LModel (tableName : jsstring) (columnNames : list jsstring)
| LBulkCreate (chunk : list (JsObject V))
| LWriteFaults (path : jsstring) (faults : list (JsObject V))
| LClose (ok : bool).
Arguments LRead {V} filePath ext.
Arguments LConnect {V}.
Arguments LModel {V} tableName columnNames.
Arguments LBulkCreate {V} chunk.
Arguments LWriteFaults {V} path faults.
Arguments LClose {V} ok.

(** What the outside does during one call of [processFile]: the rows
    the reader gives or its error, what [getBatchId()] returns, and
    which calls fail; [bulkCreate] and [close] by the number of the
    call, from 0. *)
Record LoadEnv (V : Type) := {
  read_result : list (JsObject V) + string;
  now_batchid : jsstring;
  connect_fault : option string;
  model_fault : option string;
  bulk_fault : nat -> option string;
  faults_write_fault : option string;
  close_fault_at : nat -> option string;
  cwd : jsstring
}.
Arguments read_result {V} _.
Arguments now_batchid {V} _.
Arguments connect_fault {V} _.
Arguments model_fault {V} _.
Arguments bulk_fault {V} _.
Arguments faults_write_fault {V} _.
Arguments close_fault_at {V} _.
Arguments cwd {V} _.

(** The object [processFile] returns. *)
Record LoadResult := {
  processedRows : nat;
  faultyRows : nat;
  res_tableName : jsstring;
  res_batchid : jsstring;
  faultFilePath : option jsstring;
  columnNames : list jsstring
}.

Section FileProcessor.

Variable toLowerCase : jsstring -> jsstring.

(** The values of the cells, and a string as such a value. *)
Variable V : Type.
Variable of_jsstring : jsstring -> V.

(** [path.extname] and [path.join]. *)
Variable extname : jsstring -> jsstring.
Variable path_join : jsstring -> jsstring -> jsstring.

(** The [catch] of [processFile], entered with [this.sequelize] set or
    not and after [nclose] calls of [close]: close the connection if
    there is one, and rethrow; an error of that [close] takes the place
    of the error caught. *)
Definition load_catch (env : LoadEnv V) (sequelize : bool) (nclose : nat)
    (err : LoadError) (t : list (LoadEvent V))
    : (LoadResult + LoadError) * bool * list (LoadEvent V) :=
  if sequelize
  then match close_fault_at env nclose with
       | Some msg => (inr (Failure msg), sequelize, t ++ [LClose false])
       | None => (inr err, sequelize, t ++ [LClose true])
       end
  else (inr err, sequelize, t).

(** The loop over the chunks, from the [k]-th call of [bulkCreate]: the
    error that stopped it, if one did, and the chunks inserted. *)
Fixpoint bulk_loop (env : LoadEnv V) (k : nat) (cs : list (list (JsObject V)))
    : option string * list (LoadEvent V) :=
  match cs with
  | [] => (None, [])
  | chunk :: rest =>
      match bulk_fault env k with
      | Some msg => (Some msg, [])
      | None =>
          let '(r, t) := bulk_loop env (S k) rest in
          (r, LBulkCreate chunk :: t)
      end
  end.

(** [`fault_${tableName}_${batchid}.json`] under the working
    directory. *)
Definition fault_path (env : LoadEnv V) (tableName : jsstring) : jsstring :=
  path_join (cwd env)
            (js "fault_" ++ tableName ++ js "_" ++ now_batchid env ++ js ".json").

(** [processFile(filePath, tableName)], called with [this.sequelize]
    set ([sequelize0]) or not: the result or the error thrown, whether
    [this.sequelize] is set afterwards, and the events. *)
Definition processFile (env : LoadEnv V) (sequelize0 : bool)
    (filePath tableName : jsstring)
    : (LoadResult + LoadError) * bool * list (LoadEvent V) :=
  let ext := toLowerCase (extname filePath) in
  if negb (jsstring_eqb ext (js ".csv") || jsstring_eqb ext (js ".xlsx"))
  then load_catch env sequelize0 0 (UnsupportedFormat ext) []
  else
    match read_result env with
    | inr msg => load_catch env sequelize0 0 (Failure msg) []
    | inl rawData =>
        let t0 := [LRead filePath ext] in
        if length rawData =? 0 then load_catch env sequelize0 0 NoData t0
        else
          let batchid := now_batchid env in
          let '(cleaned, faults) :=
            cleanData toLowerCase V rawData (of_jsstring batchid) in
          match connect_fault env with
          | Some msg => load_catch env sequelize0 0 (Failure msg) t0
          | None =>
              let t1 := t0 ++ [LConnect] in
              match cleaned with
              | [] => load_catch env true 0 KeysOfUndefined t1
              | first :: _ =>
                  let names := obj_keys first in
                  match model_fault env with
                  | Some msg => load_catch env true 0 (Failure msg) t1
                  | None =>
                      let t2 := t1 ++ [LModel tableName names] in
                      match bulk_loop env 0 (chunks cleaned) with
                      | (Some msg, tb) =>
                          load_catch env true 0 (Failure msg) (t2 ++ tb)
                      | (None, tb) =>
                          let t3 := t2 ++ tb in
                          let written :=
                            if 0 <? length faults
                            then match faults_write_fault env with
                                 | Some msg => inr msg
                                 | None =>
                                     inl (Some (fault_path env tableName),
                                          [LWriteFaults
                                             (fault_path env tableName) faults])
                                 end
                            else inl (None, []) in
                          match written with
                          | inr msg => load_catch env true 0 (Failure msg) t3
                          | inl (path, tw) =>
                              match close_fault_at env 0 with
                              | Some msg =>
                                  load_catch env true 1 (Failure msg)
                                             (t3 ++ tw ++ [LClose false])
                              | None =>
                                  (inl {| processedRows := length cleaned;
                                          faultyRows := length faults;
                                          res_tableName := tableName;
                                          res_batchid := batchid;
                                          faultFilePath := path;
                                          columnNames := names |},
                                   true,
                                   t3 ++ tw ++ [LClose true])
                              end
                          end
                      end
                  end
              end
          end
    end.

End FileProcessor.

(** The chunks a trace inserted, the files of faulty rows it wrote, and
    its calls of [close]. *)
Definition inserted_of {V} (t : list (LoadEvent V)) : list (list (JsObject V)) :=
  flat_map (fun e => match e with LBulkCreate c => [c] | _ => [] end) t.

Definition fault_files_of {V} (t : list (LoadEvent V))
    : list (jsstring * list (JsObject V)) :=
  flat_map (fun e => match e with LWriteFaults p f => [(p, f)] | _ => [] end) t.

Definition closings_of {V} (t : list (LoadEvent V)) : list bool :=
  flat_map (fun e => match e with LClose ok => [ok] | _ => [] end) t.

Definition connected_in {V} (t : list (LoadEvent V)) : bool :=
  existsb (fun e => match e with LConnect => true | _ => false end) t.

(** A run of [processFile] for the samples: the rows read, and the
    calls that fail. *)
Definition sample_load_env (rows : list (JsObject jsstring))
    (bulk_fault : nat -> option string) : LoadEnv jsstring :=
  {| read_result := inl rows;
     now_batchid := js "202409302315";
     connect_fault := None;
     model_fault := None;
     bulk_fault := bulk_fault;
     faults_write_fault := None;
     close_fault_at := fun _ => None;
     cwd := js "/srv/loader" |}.

Definition sample_file_rows : list (JsObject jsstring) :=
  [ [(js "id", js "1"); (js "%Rate", js "5")];
    [(js "id", js "2"); ([], js "x")];
    [(js "id", js "3"); (js "---rate ", js "6")] ].

Definition sample_processFile (env : LoadEnv jsstring)
    : (LoadResult + LoadError) * bool * list (LoadEvent jsstring) :=
  processFile (fun s => s) jsstring (fun s => s) (fun _ => js ".csv")
              (fun a b => a ++ js "/" ++ b)
              env false (js "invoices.csv") (js "qlik_invoice_raw").

(* ================================================================= *)
(** ** The script [read-file-2-db.js] *)


(** [!arg], for an argument of the command line. *)
Definition missing (arg : option jsstring) : bool :=
  match arg with
  | None => true
  | Some [] => true
  | Some (_ :: _) => false
  end.



Section ReadFileToDb.

Variable toLowerCase : jsstring -> jsstring.
Variable V : Type.
Variable of_jsstring : jsstring -> V.
Variable extname : jsstring -> jsstring.



End ReadFileToDb.



(* ================================================================= *)
(** ** The entry point in counts-only mode *)

(** What the outside does in counts-only mode, besides [Env]: the two
    statements that count, which answer with rows or reject, and
    the call of [close] in the [catch]. *)
Record CountsEnv := {
  count_fault : option string;
  group_fault : option string;
  close_again_fault : option string
}.

(** A statement that only reads: it leaves no event. *)
Definition read_only (fault : option string) : M unit :=
  match fault with
  | Some msg => throw msg
  | None => ret tt
  end.

(** The block run when [modeFlag === 1]. *)
Definition cli_counts (env : Env) (cenv : CountsEnv) : M unit :=
  try_catch
    (guarded (authenticate_fault env) EAuthenticate ;;;
     read_only (count_fault cenv) ;;;
     read_only (group_fault cenv) ;;;
     guarded (close_fault env) EClose ;;;
     process_exit 0)
    (fun _ =>
       try_catch (guarded (close_again_fault cenv) EClose) (fun _ => ret tt) ;;;
       process_exit 1).

(** The entry point: the executor is constructed, and [modeFlag]
    chooses between the counts and the run. *)
Definition cli_main (argv : list jsstring) (env : Env) (cenv : CountsEnv)
    : M unit :=
  if (modeFlag argv =? 1)%Z
  then construct (cli_options argv) ;;; cli_counts env cenv
  else cli_run argv env.

(* ================================================================= *)
(** ** Reading the progress reports *)

(** The progress reports of a trace: results counted, successes, and
    length of [this.failedQueries]. *)
Definition progress_of (t : list Event) : list (nat * nat * nat) :=
  flat_map (fun e => match e with
                     | EProgress n a b => [(n, a, b)]
                     | _ => []
                     end) t.

(** A report is due (every 100 results, or at the last one), and its
    counts add up, [f0] being the failures collected before the call. *)
Definition report_ok (total : nat) (f0 : list Result) (x : nat * nat * nat)
    : Prop :=
  (fst (fst x) mod 100 = 0 \/ fst (fst x) = total) /\
  fst (fst x) + length f0 = snd (fst x) + snd x.

(** What holds of the counters and of the reports inside
    [executeAllQueries]. *)
Record ProgressInv (total : nat) (f0 : list Result) (p : Pool) : Prop := {
  pi_counts : processedCount p + length f0
              = successCount p + length (pool_failed p);
  pi_reports : Forall (report_ok total f0) (progress_of (trace p));
  pi_last : processedCount p < total \/ total < processedCount p \/
            In (total, successCount p, length (pool_failed p))
               (progress_of (trace p))
}.

(* ================================================================= *)
(** ** The sequential runner of the invoice files *)

Definition invoice_files : list string :=
  [ "Invoice_1995-2019.csv"; "Invoice_2020.csv"; "Invoice_2021.csv";
    "Invoice_2022.csv"; "Invoice_2023.csv"; "Invoice_2024.csv";
    "Invoice_2025.csv" ].

Definition downloads_path : string := "/Users/kebsi/Downloads".

(** What the script does besides printing: it finds a file missing, or
    it runs [node] with some arguments, which exits with 0 or not. *)
Inductive SeqEvent :=
| SqMissing (file_path : string)
| SqRun (args : list string) (ok : bool).

(** [node read-file-2-db.js "$file_path" qlik_invoice_raw] and
    [node execute_qlik_delta.js]. *)
Definition read_args (file_path : string) : list string :=
  ["read-file-2-db.js"; file_path; "qlik_invoice_raw"].

Definition delta_args : list string := ["execute_qlik_delta.js"].

Section Sequential.

(** The machine: what [node args] does to it (whether it exits with 0),
    and the test [[ -f path ]].  Printing and [date +%s] leave it as it
    is. *)
Variable Machine : Type.
Variable node : list string -> Machine -> bool * Machine.
Variable is_file : string -> Machine -> bool.

(** The [for] loop over the files left, up to the end of the script or
    to its [exit 1]: the exit status, the events, and the machine. *)
Fixpoint sequential_loop (files : list string) (m : Machine)
    : Z * list SeqEvent * Machine :=
  match files with
  | [] => (0%Z, [], m)
  | file :: rest =>
      let file_path := (downloads_path ++ "/" ++ file)%string in
      if negb (is_file file_path m)
      then let '(code, t, m') := sequential_loop rest m in
           (code, SqMissing file_path :: t, m')
      else
        let '(ok1, m1) := node (read_args file_path) m in
        if ok1
        then
          let '(ok2, m2) := node delta_args m1 in
          if ok2
          then let '(code, t, m') := sequential_loop rest m2 in
               (code,
                SqRun (read_args file_path) true :: SqRun delta_args true :: t,
                m')
          else (1%Z,
                [SqRun (read_args file_path) true; SqRun delta_args false],
                m2)
        else (1%Z, [SqRun (read_args file_path) false], m1)
  end.

Definition process_invoice_files (m : Machine) : Z * list SeqEvent * Machine :=
  sequential_loop invoice_files m.

End Sequential.

(** The files a trace of the script came to, in order. *)
Definition files_reached (t : list SeqEvent) : list string :=
  flat_map (fun e => match e with
                     | SqMissing p => [p]
                     | SqRun [_; p; _] _ => [p]
                     | SqRun _ _ => []
                     end) t.

(** A machine for the samples: its state counts the commands run, every
    file exists, and the fourth command fails. *)
Definition sample_node (args : list string) (n : nat) : bool * nat :=
  (negb (n =? 3), S n).

(* ================================================================= *)
(** ** The upload route of the server *)

(** What the route reads of [req.file]: the name the client gave, the
    MIME type it declared, and the path the file was saved under. *)
Record UploadedFile := {
  originalname : jsstring;
  mimetype : jsstring;
  file_path : jsstring
}.

Definition allowedMimes : list jsstring :=
  [ js "text/csv";
    js "application/vnd.ms-excel";
    js "application/vnd.openxmlformats-officedocument.spreadsheetml.sheet" ].

Definition allowedExtensions : list jsstring :=
  [ js ".csv"; js ".xlsx"; js ".xls" ].

(** [array.includes(x)], for strings. *)
Definition includes (l : list jsstring) (x : jsstring) : bool :=
  existsb (jsstring_eqb x) l.

Section UploadRoute.

Variable toLowerCase : jsstring -> jsstring.
Variable V : Type.
Variable of_jsstring : jsstring -> V.
Variable extname : jsstring -> jsstring.
Variable path_join : jsstring -> jsstring -> jsstring.

(** [fileFilter]: whether it calls back with [true]. *)
Definition fileFilter (name mime : jsstring) : bool :=
  includes allowedMimes mime
  || includes allowedExtensions (toLowerCase (extname name)).

(** The handler of [POST /api/upload], on the service with
    [this.sequelize] set or not: the status of the answer, whether
    [this.sequelize] is set afterwards, and what [processFile] did.
    [metadata_fault] is the error of writing [file_metadata.json], if
    there is one. *)
Definition upload_handler (env : LoadEnv V) (sequelize0 : bool)
    (file : option UploadedFile) (tableName : option jsstring)
    (metadata_fault : option string)
    : nat * bool * list (LoadEvent V) :=
  match file with
  | None => (400, sequelize0, [])
  | Some f =>
      match tableName with
      | None => (400, sequelize0, [])
      | Some name =>
          if missing tableName then (400, sequelize0, [])
          else
            match processFile toLowerCase V of_jsstring extname path_join
                              env sequelize0 (file_path f) name with
            | (inr _, sequelize, t) => (500, sequelize, t)
            | (inl _, sequelize, t) =>
                match metadata_fault with
                | Some _ => (500, sequelize, t)
                | None => (200, sequelize, t)
                end
            end
      end
  end.

End UploadRoute.

(** The events of a trace that read the file. *)
Definition reads_of {V} (t : list (LoadEvent V)) : list jsstring :=
  flat_map (fun e => match e with LRead p _ => [p] | _ => [] end) t.

(** [path.extname] for the samples: the last four characters. *)
Definition sample_extname (s : jsstring) : jsstring :=
  skipn (length s - 4) s.

(* ================================================================= *)
(** ** Sample inputs *)

(** An outside with no fault, where the store gives [answers]. *)
Definition quiet_env (answers : list (nat * option string)) : Env :=
  {| authenticate_fault := None;
     fetch_fault := None;
     select_markers_fault := None;
     update_fault := None;
     update_now := 1700000000;
     spliced_update := fun _ st => (st, 0);
     settles := answers;
     write_fault := None;
     close_fault := None;
     report_time := "2024-09-30T23:15:02.417Z" |}.

(** The same with the store refusing the connection. *)
Definition unreachable_env : Env :=
  {| authenticate_fault := Some "connect ECONNREFUSED 127.0.0.1:5432";
     fetch_fault := None;
     select_markers_fault := None;
     update_fault := None;
     update_now := 1700000000;
     spliced_update := fun _ st => (st, 0);
     settles := [];
     write_fault := None;
     close_fault := None;
     report_time := "2024-09-30T23:15:02.417Z" |}.

Definition sample_rows : list DeltaRow :=
  [ {| row_invoice_line_id := 30; row_mdm_invoice_id := None;
       row_mdm_sql := Some "UPDATE mdm_invoice_qlik SET amount = 3 WHERE id = 30" |};
    {| row_invoice_line_id := 10; row_mdm_invoice_id := Some "INV-A";
       row_mdm_sql := Some "INSERT INTO mdm_invoice_qlik VALUES (10)" |};
    {| row_invoice_line_id := 20; row_mdm_invoice_id := Some "INV-B";
       row_mdm_sql := Some "INSERT INTO mdm_invoice_qlik VALUES (NULL)" |};
    {| row_invoice_line_id := 40; row_mdm_invoice_id := None;
       row_mdm_sql := None |} ].

Definition sample_store : Store :=
  {| qlik_invoice_view_delta := sample_rows;
     mdm_invoice_line_to_remove_qlik := ["INV-A"];
     mdm_invoice_qlik :=
       [ {| inv_mdm_invoice_id := "INV-A"; deleted_at := None |};
         {| inv_mdm_invoice_id := "INV-C"; deleted_at := None |} ] |}.

(** A store with nothing to apply and nothing to retire. *)
Definition empty_store : Store :=
  {| qlik_invoice_view_delta := [];
     mdm_invoice_line_to_remove_qlik := [];
     mdm_invoice_qlik :=
       [ {| inv_mdm_invoice_id := "INV-A"; deleted_at := None |} ] |}.

Definition fresh_state (st : Store) : State :=
  {| this := new_QlikDeltaExecutor {| opt_safeDelete := JUndefined |};
     store := st;
     files := [] |}.

Definition sample_queries : list Query := select_delta sample_store.

(** The store answers the second statement first, and the statement of
    line 20 with an error. *)
Definition sample_answers : list (nat * option string) :=
  [ (1, Some "null value in column violates not-null constraint");
    (0, None);
    (0, None) ].

Definition sample_argv (extra : list string) : list jsstring :=
  map js (["/usr/bin/node"; "/app/execute_qlik_delta.js"] ++ extra).

(** A machine for the runner: its state counts the commands run; every
    invoice file exists; the third command run and every later one
    fails. *)
Definition sample_bash_c (cmd : string) (n : nat) : bool * string * nat :=
  (n <? 2, ("output of run " ++ show_nat n)%string, S n).

Definition sample_is_file (path : string) (n : nat) : bool := true.

(* ================================================================= *)
(** ** Lemmas on traces and lists *)

Lemma starts_of_app (t u : list Event) :
  starts_of (t ++ u) = starts_of t ++ starts_of u.
Proof. unfold starts_of. apply flat_map_app. Qed.

Lemma settled_of_app (t u : list Event) :
  settled_of (t ++ u) = settled_of t ++ settled_of u.
Proof. unfold settled_of. apply flat_map_app. Qed.

Lemma failures_of_app (t u : list Event) :
  failures_of (t ++ u) = failures_of t ++ failures_of u.
Proof. unfold failures_of. rewrite settled_of_app. apply flat_map_app. Qed.

Lemma successes_of_app (t u : list Event) :
  successes_of (t ++ u) = successes_of t + successes_of u.
Proof.
  unfold successes_of. rewrite settled_of_app, filter_app.
  apply length_app.
Qed.

Lemma in_flight_counter_snoc (t : list Event) (e : Event) :
  in_flight_counter (t ++ [e]) = counter_step (in_flight_counter t) e.
Proof. unfold in_flight_counter. rewrite fold_left_app. reflexivity. Qed.

Lemma remove_nth_length {A} (l : list A) :
  forall k, k < length l -> length (remove_nth k l) = length l - 1.
Proof.
  induction l as [|x l IH]; intros k Hk; simpl in *.
  - lia.
  - destruct k as [|k]; simpl.
    + lia.
    + rewrite IH by lia. lia.
Qed.

Lemma remove_nth_perm {A} (d : A) (l : list A) :
  forall k, k < length l -> Permutation l (nth k l d :: remove_nth k l).
Proof.
  induction l as [|x l IH]; intros k Hk; simpl in *.
  - lia.
  - destruct k as [|k]; simpl.
    + apply Permutation_refl.
    + eapply perm_trans.
      * apply perm_skip. apply (IH k). lia.
      * apply perm_swap.
Qed.

Lemma failures_successes_length (l : list (Query * option string)) :
  length (filter succeeded l) + length (flat_map failure_record l) = length l.
Proof.
  induction l as [|[q a] l IH]; [reflexivity|].
  destruct a as [msg|]; cbn [filter flat_map succeeded failure_record snd fst app length];
    lia.
Qed.

(* ================================================================= *)
(** ** The pool keeps its invariant *)

Section PoolProofs.

Variable L : nat.
Variable all : list Query.
Variable f0 : list Result.
Hypothesis L_positive : 1 <= L.

Lemma init_pool_inv : PoolInv L all f0 all (init_pool f0).
Proof.
  constructor; simpl; auto; try lia; try discriminate.
  unfold failures_of. simpl. rewrite app_nil_r. reflexivity.
Qed.

(** Admitting one operation keeps the invariant when there is room. *)
Lemma admit_one_inv (q : Query) (rest : list Query) (p : Pool) :
  PoolInv L all f0 (q :: rest) p ->
  running p < L ->
  done p = false ->
  PoolInv L all f0 rest (admit_one q p).
Proof.
  intros [Hi Hr Hb Hp Hpr Hf Hs Hcn Hcm Hd] Hlt Hdone.
  constructor; simpl.
  - rewrite starts_of_app. simpl. rewrite <- app_assoc. exact Hi.
  - rewrite length_app. simpl. lia.
  - lia.
  - rewrite starts_of_app, settled_of_app. simpl. rewrite app_nil_r.
    rewrite app_assoc. apply Permutation_app_tail. exact Hp.
  - rewrite settled_of_app. simpl. rewrite app_nil_r. exact Hpr.
  - rewrite failures_of_app. simpl. rewrite app_nil_r. exact Hf.
  - rewrite successes_of_app. simpl. unfold successes_of at 2. simpl. lia.
  - rewrite in_flight_counter_snoc. simpl. lia.
  - rewrite in_flight_counter_snoc. simpl. lia.
  - intros H. congruence.
Qed.

Lemma replenish_stable (items : list Query) :
  forall p,
    PoolInv L all f0 items p ->
    finished p = None ->
    (done p = true -> running p <> 0) ->
    PoolStable L all f0 (replenish L items p).
Proof.
  induction items as [|q rest IH]; intros p Hinv Hfin Hnz; simpl.
  - destruct Hinv as [Hi Hr Hb Hp Hpr Hf Hs Hcn Hcm Hd].
    destruct (running p <? L) eqn:Hlt; destruct (done p) eqn:Hdone; simpl.
    + constructor; simpl; try (intros; congruence).
      * constructor; simpl; auto.
      * intros H0. exfalso. apply Hnz; auto.
      * left. exact Hfin.
    + destruct (running p <=? 0) eqn:Hz.
      * apply Nat.leb_le in Hz.
        constructor; simpl; try (intros; congruence).
        -- constructor; simpl; auto.
        -- rewrite Hfin. reflexivity.
        -- right. rewrite Hfin. split; [reflexivity | lia].
      * apply Nat.leb_gt in Hz.
        constructor; simpl; try (intros; congruence).
        -- constructor; simpl; auto.
        -- intros H0. lia.
        -- left. exact Hfin.
    + constructor; simpl; try (intros; congruence).
      * constructor; simpl; auto.
      * intros H0. exfalso. apply Hnz; auto.
      * left. exact Hfin.
    + apply Nat.ltb_ge in Hlt.
      constructor; simpl; try (intros; congruence).
      * constructor; simpl; auto.
      * intros H0. lia.
      * left. exact Hfin.
  - destruct (running p <? L) eqn:Hlt; destruct (done p) eqn:Hdone; simpl.
    + destruct Hinv as [_ _ _ _ _ _ _ _ _ Hd]. discriminate (Hd Hdone).
    + apply Nat.ltb_lt in Hlt.
      apply IH.
      * apply admit_one_inv; assumption.
      * exact Hfin.
      * simpl. intros _. lia.
    + destruct Hinv as [_ _ _ _ _ _ _ _ _ Hd]. discriminate (Hd Hdone).
    + apply Nat.ltb_ge in Hlt.
      pose proof (inv_bound _ _ _ _ _ Hinv) as Hb.
      constructor; simpl.
      * destruct Hinv. constructor; simpl; auto.
      * intros H0. lia.
      * left. exact Hfin.
      * intros _. lia.
Qed.


(** The handler of [.then] adds no statement and answers none. *)
Lemma on_result_trace (total : nat) (result : Result) (p : Pool) :
  exists extra,
    trace (on_result total result p) = trace p ++ extra /\
    starts_of extra = [] /\ settled_of extra = [] /\
    (forall c, fold_left counter_step extra c = c).
Proof.
  unfold on_result.
  destruct ((S (processedCount p) mod 100 =? 0)
            || (S (processedCount p) =? total)).
  - eexists. split; [reflexivity|]. repeat split; reflexivity.
  - exists []. simpl. rewrite app_nil_r. repeat split; reflexivity.
Qed.

Lemma on_result_fields (total : nat) (result : Result) (p : Pool) :
  queue (on_result total result p) = queue p /\
  inflight (on_result total result p) = inflight p /\
  running (on_result total result p) = running p /\
  done (on_result total result p) = done p /\
  finished (on_result total result p) = finished p /\
  processedCount (on_result total result p) = S (processedCount p) /\
  pool_failed (on_result total result p) =
    (if negb (success result) then pool_failed p ++ [result]
     else pool_failed p) /\
  successCount (on_result total result p) =
    (if negb (success result) then successCount p
     else S (successCount p)).
Proof.
  unfold on_result.
  destruct ((S (processedCount p) mod 100 =? 0)
            || (S (processedCount p) =? total));
    simpl; repeat split; reflexivity.
Qed.

(** One answer of the store keeps the pool stable. *)
Lemma settle_stable (total : nat) (ev : nat * option string) (p : Pool) :
  PoolStable L all f0 p ->
  PoolStable L all f0 (settle L total ev p).
Proof.
  intros Hst. unfold settle.
  destruct (inflight p) as [|q0 fl] eqn:Hfl; [exact Hst|].
  rewrite <- Hfl.
  destruct Hst as [Hinv Hidle Hfin Hfull].
  destruct Hinv as [Hi Hr Hb Hp Hpr Hf Hs Hcn Hcm Hd].
  assert (Hlen : 0 < length (inflight p)) by (rewrite Hfl; simpl; lia).
  set (k := fst ev mod length (inflight p)).
  assert (Hk : k < length (inflight p)) by (apply Nat.mod_upper_bound; lia).
  assert (Hnone : finished p = None) by (destruct Hfin as [H|[_ H]]; [exact H | lia]).
  set (q := nth k (inflight p) q0).
  set (p1 := {| queue := queue p; inflight := remove_nth k (inflight p);
                running := running p; done := done p;
                finished := finished p; pool_failed := pool_failed p;
                successCount := successCount p;
                processedCount := processedCount p;
                trace := trace p ++ [ESettle q (snd ev)] |}).
  assert (Hres : exists result,
             executeSingleQuery q (snd ev) = Fulfilled result /\
             (if negb (success result) then [result] else [])
               = failure_record (q, snd ev) /\
             success result = succeeded (q, snd ev)).
  { unfold executeSingleQuery, failure_record, succeeded.
    destruct (snd ev); simpl; eexists; repeat split; reflexivity. }
  destruct Hres as [result [Hex [Hfr Hsu]]]. rewrite Hex.
  set (p2 := on_result total result p1).
  destruct (on_result_trace total result p1) as [extra [Ht [Hes [Hese Hec]]]].
  destruct (on_result_fields total result p1)
    as [Fq [Fi [Fr [Fd [Ff [Fp [Ffl Fsc]]]]]]].
  fold p2 in Ht, Fq, Fi, Fr, Fd, Ff, Fp, Ffl, Fsc.
  simpl in Ht, Fq, Fi, Fr, Fd, Ff, Fp, Ffl, Fsc.
  set (p3 := {| queue := queue p2; inflight := inflight p2;
                running := running p2 - 1; done := done p2;
                finished := finished p2; pool_failed := pool_failed p2;
                successCount := successCount p2;
                processedCount := processedCount p2;
                trace := trace p2 |}).
  assert (Hinv3 : PoolInv L all f0 (queue p) p3).
  { constructor; simpl; rewrite ?Ht, ?Fq, ?Fi, ?Fr, ?Fd, ?Ff, ?Fp, ?Ffl, ?Fsc.
    - rewrite !starts_of_app, Hes. simpl. rewrite !app_nil_r. exact Hi.
    - rewrite remove_nth_length by exact Hk. lia.
    - lia.
    - rewrite !starts_of_app, !settled_of_app, Hes, Hese. simpl.
      rewrite !app_nil_r. rewrite map_app. simpl. rewrite <- app_assoc. simpl.
      eapply perm_trans; [exact Hp|].
      apply Permutation_app_head.
      apply (remove_nth_perm q0). exact Hk.
    - rewrite !settled_of_app, Hese. simpl. rewrite app_nil_r.
      rewrite length_app. simpl. lia.
    - rewrite !failures_of_app. unfold failures_of at 2 3. rewrite Hese.
      simpl. rewrite !app_nil_r. rewrite <- Hfr.
      destruct (negb (success result)).
      + rewrite Hf, <- app_assoc. reflexivity.
      + rewrite app_nil_r. exact Hf.
    - rewrite !successes_of_app. unfold successes_of at 2 3. rewrite Hese.
      simpl. rewrite <- Hsu.
      destruct (success result); simpl; lia.
    - unfold in_flight_counter. rewrite !fold_left_app, Hec. simpl.
      fold (in_flight_counter (trace p)). lia.
    - unfold in_flight_counter. rewrite !fold_left_app, Hec. simpl.
      fold (in_flight_counter (trace p)). exact Hcm.
    - exact Hd. }
  unfold iterateeCallback. fold p3.
  destruct (done p3 && (running p3 <=? 0)) eqn:Hc.
  - apply andb_prop in Hc. destruct Hc as [Hc1 Hc2].
    apply Nat.leb_le in Hc2.
    assert (Hq : queue p = []) by (apply Hd; simpl in Hc1; rewrite Fd in Hc1; exact Hc1).
    constructor; simpl; rewrite ?Ff, ?Fq; simpl.
    + destruct Hinv3. constructor; simpl in *; rewrite ?Fq; auto.
    + intros _. rewrite Hnone. reflexivity.
    + right. rewrite Hnone. split; [reflexivity | simpl in Hc2; lia].
    + intros H. contradiction.
  - assert (Hq3 : queue p3 = queue p) by (simpl; exact Fq).
    rewrite Hq3.
    apply replenish_stable.
    + exact Hinv3.
    + simpl. rewrite Ff. exact Hnone.
    + intros Hd3 Hr3. rewrite Hd3 in Hc. simpl in Hc.
      apply Nat.leb_gt in Hc. simpl in Hr3, Hc. lia.
Qed.

(** The pool is stable at every instant of the call. *)
Lemma eachOfLimit_stable (answers : list (nat * option string)) :
  PoolStable L all f0 (eachOfLimit L all answers f0).
Proof.
  unfold eachOfLimit.
  assert (H0 : PoolStable L all f0 (replenish L all (init_pool f0))).
  { apply replenish_stable.
    - apply init_pool_inv.
    - reflexivity.
    - simpl. discriminate. }
  revert H0. generalize (replenish L all (init_pool f0)).
  induction answers as [|ev answers IH]; intros p Hp; simpl.
  - exact Hp.
  - apply IH. apply settle_stable. exact Hp.
Qed.


Lemma replenish_processed (items : list Query) :
  forall p, processedCount (replenish L items p) = processedCount p.
Proof.
  induction items as [|q rest IH]; intros p; simpl.
  - destruct ((running p <? L) && negb (done p)); [|reflexivity].
    destruct (running p <=? 0); reflexivity.
  - destruct ((running p <? L) && negb (done p)); [|reflexivity].
    rewrite IH. reflexivity.
Qed.

Lemma settle_processed (total : nat) (ev : nat * option string) (p : Pool) :
  inflight p <> [] ->
  processedCount (settle L total ev p) = S (processedCount p).
Proof.
  intros Hne. unfold settle.
  destruct (inflight p) as [|q0 fl] eqn:Hfl; [contradiction|].
  unfold executeSingleQuery.
  destruct (snd ev); unfold iterateeCallback;
    match goal with
    | |- context [on_result ?t ?r ?x] =>
        destruct (on_result_fields t r x)
          as [_ [_ [_ [_ [_ [Fp _]]]]]]
    end;
    match goal with
    | |- context [if ?c then _ else _] => destruct c
    end; simpl; rewrite ?replenish_processed; simpl; exact Fp.
Qed.

Lemma settle_idle (total : nat) (ev : nat * option string) (p : Pool) :
  inflight p = [] -> settle L total ev p = p.
Proof. intros H. unfold settle. rewrite H. reflexivity. Qed.

Lemma settles_idle (total : nat) (answers : list (nat * option string)) :
  forall p,
    inflight p = [] ->
    fold_left (fun p ev => settle L total ev p) answers p = p.
Proof.
  induction answers as [|ev answers IH]; intros p H; simpl.
  - reflexivity.
  - rewrite settle_idle by exact H. apply IH. exact H.
Qed.

(** Every answer is taken up, unless nothing is in flight. *)
Lemma settles_progress (total : nat) (answers : list (nat * option string)) :
  forall p,
    let p' := fold_left (fun p ev => settle L total ev p) answers p in
    inflight p' = [] \/
    processedCount p' = processedCount p + length answers.
Proof.
  induction answers as [|ev answers IH]; intros p; simpl.
  - right. lia.
  - destruct (inflight p) as [|q0 fl] eqn:Hfl.
    + left. rewrite settle_idle by exact Hfl.
      rewrite settles_idle by exact Hfl. exact Hfl.
    + destruct (IH (settle L total ev p)) as [H|H].
      * left. exact H.
      * right. simpl in H. rewrite H.
        rewrite settle_processed by (rewrite Hfl; discriminate). lia.
Qed.

(** Once the store has answered as many statements as the batch has,
    nothing is queued and nothing is in flight. *)
Lemma eachOfLimit_drained (answers : list (nat * option string)) :
  length all <= length answers ->
  let p := eachOfLimit L all answers f0 in
  queue p = [] /\ inflight p = [] /\ finished p = Some None.
Proof.
  intros Hlen p.
  pose proof (eachOfLimit_stable answers) as Hst. fold p in Hst.
  destruct Hst as [Hinv Hidle Hfin Hfull].
  destruct Hinv as [Hi Hr Hb Hp Hpr Hf Hs Hcn Hcm Hd].
  assert (Hfl : inflight p = []).
  { destruct (settles_progress (length all) answers
                (replenish L all (init_pool f0))) as [H|H].
    - exact H.
    - fold (eachOfLimit L all answers f0) in H. fold p in H.
      rewrite replenish_processed in H. simpl in H.
      apply Permutation_length in Hp.
      rewrite length_app, length_map in Hp.
      apply (f_equal (@length Query)) in Hi. rewrite length_app in Hi.
      destruct (inflight p); [reflexivity|]. simpl in Hp. lia. }
  assert (Hrun : running p = 0) by (rewrite Hr, Hfl; reflexivity).
  repeat split.
  - destruct (queue p) eqn:Hq; [reflexivity|].
    assert (running p = L) by (apply Hfull; discriminate). lia.
  - exact Hfl.
  - apply Hidle. exact Hrun.
Qed.

End PoolProofs.

(* ================================================================= *)
(** ** What [executeAllQueries] leaves in the trace *)

Lemma pool_events_snoc (t : list Event) (e : Event) :
  pool_events t -> is_pool_event e = true -> pool_events (t ++ [e]).
Proof.
  intros Ht He. apply Forall_app. split; [exact Ht|].
  constructor; [exact He | constructor].
Qed.

Lemma replenish_pool_events (L : nat) (items : list Query) :
  forall p, pool_events (trace p) -> pool_events (trace (replenish L items p)).
Proof.
  induction items as [|q rest IH]; intros p Hp; simpl.
  - destruct ((running p <? L) && negb (done p)); [|exact Hp].
    destruct (running p <=? 0); exact Hp.
  - destruct ((running p <? L) && negb (done p)); [|exact Hp].
    apply IH. simpl. apply pool_events_snoc; [exact Hp | reflexivity].
Qed.

Lemma settle_pool_events (L total : nat) (ev : nat * option string) (p : Pool) :
  pool_events (trace p) -> pool_events (trace (settle L total ev p)).
Proof.
  intros Hp. unfold settle.
  destruct (inflight p) as [|q0 fl]; [exact Hp|].
  assert (H1 : forall result p1,
             pool_events (trace p1) ->
             pool_events (trace (on_result total result p1))).
  { intros result p1 H. unfold on_result.
    destruct ((S (processedCount p1) mod 100 =? 0)
              || (S (processedCount p1) =? total)); simpl.
    - apply pool_events_snoc; [exact H | reflexivity].
    - exact H. }
  unfold executeSingleQuery.
  destruct (snd ev); unfold iterateeCallback;
    match goal with
    | |- context [if ?c then _ else _] => destruct c
    end; simpl;
    try apply replenish_pool_events; simpl;
    apply H1; simpl; (apply pool_events_snoc; [exact Hp | reflexivity]).
Qed.

Lemma eachOfLimit_pool_events (L : nat) (all : list Query)
    (answers : list (nat * option string)) (f0 : list Result) :
  pool_events (trace (eachOfLimit L all answers f0)).
Proof.
  unfold eachOfLimit.
  assert (H0 : pool_events (trace (replenish L all (init_pool f0)))).
  { apply replenish_pool_events. constructor. }
  revert H0. generalize (replenish L all (init_pool f0)).
  induction answers as [|ev answers IH]; intros p Hp; simpl.
  - exact Hp.
  - apply IH. apply settle_pool_events. exact Hp.
Qed.

Lemma pool_events_silent (t : list Event) :
  pool_events t ->
  filter is_guard_event t = [] /\ summaries_of t = [] /\ writes_of t = [] /\
  closes_of t = 0 /\ connects_of t = 0.
Proof.
  unfold closes_of, connects_of.
  induction 1 as [|e t He Ht IH]; simpl.
  - repeat split; reflexivity.
  - destruct IH as [I1 [I2 [I3 [I4 I5]]]].
    destruct e; try discriminate He; simpl; repeat split; assumption.
Qed.

Lemma CONCURRENCY_LIMIT_positive : 1 <= CONCURRENCY_LIMIT.
Proof. unfold CONCURRENCY_LIMIT. lia. Qed.

(* ================================================================= *)
(** ** The safe-delete pass and [execute], case by case *)

Lemma safeDelete_cases (env : Env) (s : State) :
  safeDeleteChangedInvoiceRows env s =
  match select_markers_fault env with
  | Some msg => (Throw msg, s, [])
  | None =>
      match mdm_invoice_line_to_remove_qlik (store s) with
      | [] => (Ret (JBool true), s, [ESelectMarkers])
      | id :: ids =>
          match update_fault env with
          | Some msg =>
              (Throw msg,
               {| this := this s;
                  store := failed_update env (id :: ids) (store s);
                  files := files s |},
               [ESelectMarkers])
          | None =>
              (Ret (JBool true),
               {| this := this s;
                  store := fst (run_update env (id :: ids) (store s));
                  files := files s |},
               [ESelectMarkers;
                ERetire (id :: ids)
                        (snd (run_update env (id :: ids) (store s)))])
          end
      end
  end.
Proof.
  unfold safeDeleteChangedInvoiceRows, try_catch, bind, guarded, get_store,
    put_store, emit, throw, ret.
  destruct (select_markers_fault env); [reflexivity|].
  destruct (mdm_invoice_line_to_remove_qlik (store s)) eqn:Hm; simpl.
  - reflexivity.
  - destruct (update_fault env); reflexivity.
Qed.

Lemma execute_unfold (env : Env) (s : State) :
  execute env s =
  match authenticate_fault env with
  | Some _ => (Exit 1%Z, s, [EExit 1%Z])
  | None =>
    match fetch_fault env with
    | Some _ => (Exit 1%Z, s, [EAuthenticate; EExit 1%Z])
    | None =>
      let pre := [EAuthenticate; EFetchDelta] in
      let allQueries := select_delta (store s) in
      match (if safeDelete (this s)
             then safeDeleteChangedInvoiceRows env s
             else (Ret (JBool true), s, [])) with
      | (Ret _, s1, t1) =>
          if length allQueries =? 0
          then
            match close_fault env with
            | Some msg => (Throw msg, s1, pre ++ t1)
            | None => (Ret tt, s1, pre ++ t1 ++ [EClose])
            end
          else
            match executeAllQueries env allQueries s1 with
            | (Ret _, s2, t2) =>
                let f := failedQueries (this s2) in
                let summary :=
                  ESummary (length allQueries)
                           (Z.of_nat (length allQueries) - Z.of_nat (length f))
                           (length f) in
                if 0 <? length f
                then
                  match write_fault env with
                  | Some _ =>
                      (Exit 1%Z, s2, pre ++ t1 ++ t2 ++ [summary; EExit 1%Z])
                  | None =>
                      let s3 := {| this := this s2; store := store s2;
                                   files := (failuresFile env, f) :: files s2 |} in
                      match close_fault env with
                      | Some msg =>
                          (Throw msg, s3,
                           pre ++ t1 ++ t2
                           ++ [summary; EWriteFile (failuresFile env) f])
                      | None =>
                          (Ret tt, s3,
                           pre ++ t1 ++ t2
                           ++ [summary; EWriteFile (failuresFile env) f; EClose])
                      end
                  end
                else
                  match close_fault env with
                  | Some msg => (Throw msg, s2, pre ++ t1 ++ t2 ++ [summary])
                  | None => (Ret tt, s2, pre ++ t1 ++ t2 ++ [summary; EClose])
                  end
            | (Throw _, s2, t2) => (Exit 1%Z, s2, pre ++ t1 ++ t2 ++ [EExit 1%Z])
            | (Exit c, s2, t2) => (Exit c, s2, pre ++ t1 ++ t2)
            | (Pending, s2, t2) => (Pending, s2, pre ++ t1 ++ t2)
            end
      | (Throw _, s1, t1) => (Exit 1%Z, s1, pre ++ t1 ++ [EExit 1%Z])
      | (Exit c, s1, t1) => (Exit c, s1, pre ++ t1)
      | (Pending, s1, t1) => (Pending, s1, pre ++ t1)
      end
    end
  end.
Proof.
  unfold execute, fetchDeltaQueries, writeFileSync, try_finally, try_catch,
    bind, guarded, process_exit, get_store, get_this, emit, throw, ret.
  destruct (authenticate_fault env); [reflexivity|].
  destruct (fetch_fault env); [reflexivity|].
  cbv zeta.
  destruct (safeDelete (this s));
    [destruct (safeDeleteChangedInvoiceRows env s) as [[[v|msg|c|] s1] t1] | ];
    cbn [app]; rewrite <- ?app_assoc, ?app_nil_r; try reflexivity;
    (destruct (length (select_delta (store s)) =? 0);
     [ destruct (close_fault env); cbn [app];
       rewrite <- ?app_assoc, ?app_nil_r; reflexivity | ]);
    match goal with
    | |- context [executeAllQueries ?e ?a ?x] =>
        destruct (executeAllQueries e a x) as [[[u|msg'|c'|] s2] t2]
    end;
    cbn [app]; rewrite <- ?app_assoc, ?app_nil_r; try reflexivity;
    (destruct (0 <? length (failedQueries (this s2)));
     [destruct (write_fault env)|]);
    try destruct (close_fault env); cbn [app];
    rewrite <- ?app_assoc, ?app_nil_r; reflexivity.
Qed.

(* ================================================================= *)
(** ** The entry point: the safe-delete flag *)

Example parseInt10_samples :
  parseInt10 (js "  +12abc") = Some 12%Z /\
  parseInt10 (js "-0") = Some 0%Z /\
  parseInt10 (js "0x10") = Some 0%Z /\
  parseInt10 (js "1e3") = Some 1%Z /\
  parseInt10 [] = None /\
  parseInt10 (js "-") = None.
Proof. repeat split. Qed.

Example cli_executor_samples :
  safeDelete (cli_executor (sample_argv [])) = true /\
  safeDelete (cli_executor (sample_argv ["0"])) = true /\
  safeDelete (cli_executor (sample_argv ["0"; "1"])) = true /\
  safeDelete (cli_executor (sample_argv ["0"; "-7"])) = true /\
  safeDelete (cli_executor (sample_argv ["0"; "0"])) = false /\
  safeDelete (cli_executor (sample_argv ["0"; "true"])) = false.
Proof. repeat split. Qed.

(** C10.  At the entry point the safe-delete pass is enabled exactly
    when [process.argv[3]] is absent or [parseInt] reads a non-zero
    integer from it in base 10.  So an argument [parseInt] reads nothing
    from, such as [true] or [yes], gives NaN and disables the pass,
    although the pass is enabled when the argument is absent, as it is
    when the constructor gets no option. *)
Theorem cli_safeDelete_enabled_iff (argv : list jsstring) :
  (safeDelete (cli_executor argv) = true <->
   (argvAt argv 3 = None \/
    exists a n, argvAt argv 3 = Some a /\ parseInt10 a = Some n /\ n <> 0%Z)) /\
  (forall a, argvAt argv 3 = Some a -> parseInt10 a = None ->
             safeDelete (cli_executor argv) = false) /\
  parseInt10 (js "true") = None /\
  parseInt10 (js "yes") = None /\
  safeDelete (new_QlikDeltaExecutor {| opt_safeDelete := JUndefined |}) = true.
Proof.
  unfold cli_executor, new_QlikDeltaExecutor, cli_options, safeDeleteFlag,
    nullish, Boolean, orZero.
  cbn [opt_safeDelete safeDelete].
  repeat split.
  - intros H. destruct (argvAt argv 3) as [a|]; [right | left; reflexivity].
    exists a. destruct (parseInt10 a) as [n|].
    + exists n. repeat split. intros Hn. subst n. discriminate H.
    + discriminate H.
  - intros [H|[a [n [Ha [Hp Hn]]]]]; rewrite H || rewrite Ha.
    + reflexivity.
    + rewrite Hp. destruct (n =? 0)%Z eqn:E.
      * apply Z.eqb_eq in E. contradiction.
      * rewrite E. reflexivity.
  - intros a Ha Hp. rewrite Ha, Hp. reflexivity.
Qed.

Lemma cli_safeDelete_enabled_iff_witness :
  safeDelete (cli_executor (sample_argv ["0"; "yes"])) = false.
Proof.
  apply (proj1 (proj2 (cli_safeDelete_enabled_iff (sample_argv ["0"; "yes"])))
           (js "yes")); reflexivity.
Defined.

(* ================================================================= *)
(** ** The safe-delete pass *)

Lemma named_in_In (ids : list string) (r : InvoiceRow) :
  named_in ids r = true <-> In (inv_mdm_invoice_id r) ids.
Proof.
  unfold named_in. rewrite existsb_exists. split.
  - intros [x [Hin Heq]]. apply String.eqb_eq in Heq. subst x. exact Hin.
  - intros Hin. exists (inv_mdm_invoice_id r). split; [exact Hin|].
    apply String.eqb_refl.
Qed.

Lemma named_in_not_In (ids : list string) (r : InvoiceRow) :
  named_in ids r = false <-> ~ In (inv_mdm_invoice_id r) ids.
Proof.
  rewrite <- named_in_In. destruct (named_in ids r); split; intros H;
    try reflexivity; try discriminate; [contradiction H; reflexivity].
Qed.

(** The bulk update for a list of literals, row by row. *)
Lemma update_deleted_at_rows (ids : list string) (now : Z)
    (rows : list InvoiceRow) :
  length (update_deleted_at ids now rows) = length rows /\
  forall i row,
    nth_error rows i = Some row ->
    exists row',
      nth_error (update_deleted_at ids now rows) i = Some row' /\
      inv_mdm_invoice_id row' = inv_mdm_invoice_id row /\
      (In (inv_mdm_invoice_id row) ids -> deleted_at row' = Some now) /\
      (~ In (inv_mdm_invoice_id row) ids -> row' = row).
Proof.
  unfold update_deleted_at. split; [apply length_map|].
  intros i row Hrow. rewrite nth_error_map, Hrow. cbn [option_map].
  eexists. split; [reflexivity|].
  destruct (named_in ids row) eqn:E.
  - apply named_in_In in E. cbn. repeat split. intros H. contradiction.
  - apply named_in_not_In in E. repeat split. intros H. contradiction.
Qed.

Lemma update_deleted_at_named (ids : list string) (now : Z)
    (rows : list InvoiceRow) (i : nat) (row : InvoiceRow) :
  nth_error (update_deleted_at ids now rows) i = Some row ->
  In (inv_mdm_invoice_id row) ids -> deleted_at row = Some now.
Proof.
  unfold update_deleted_at. rewrite nth_error_map.
  destruct (nth_error rows i) as [row0|]; cbn [option_map]; [|discriminate].
  destruct (named_in ids row0) eqn:E; intros H Hin; injection H as <-.
  - reflexivity.
  - apply named_in_not_In in E. contradiction.
Qed.

(** The pass on markers without a quote. *)
Lemma run_update_quote_free (env : Env) (ids : list string) (st : Store) :
  forallb quote_free ids = true ->
  run_update env ids st
  = ({| qlik_invoice_view_delta := qlik_invoice_view_delta st;
        mdm_invoice_line_to_remove_qlik := mdm_invoice_line_to_remove_qlik st;
        mdm_invoice_qlik :=
          update_deleted_at ids (update_now env) (mdm_invoice_qlik st) |},
     rows_matched ids (mdm_invoice_qlik st)).
Proof. intros H. unfold run_update. rewrite H. reflexivity. Qed.

Lemma rows_matched_update (ids : list string) (now : Z)
    (rows : list InvoiceRow) :
  rows_matched ids (update_deleted_at ids now rows) = rows_matched ids rows.
Proof.
  unfold rows_matched, update_deleted_at.
  induction rows as [|r rows IH]; [reflexivity|].
  cbn [map filter].
  destruct (named_in ids r) eqn:E.
  - unfold named_in in *. cbn [inv_mdm_invoice_id]. rewrite E.
    cbn [length]. rewrite IH. reflexivity.
  - rewrite E. exact IH.
Qed.

(** C3, as the code has it.  When it succeeds, the pass returns [true],
    not a count.  With no removal marker it is a no-op: it reads the
    markers, sends no update, leaves the state as it is and raises no
    error.  With markers it sends one bulk update that names every
    marker read, and leaves the instance and the files as they are.  The
    markers go into the text of that update unescaped; when none of them
    has a quote in it, the update matches the rows whose identifier is a
    marker, sets [deleted_at] on each of them to the time of the update,
    and leaves every other row, the markers and the operations as they
    are. *)
Theorem safeDelete_returns_true (env : Env) (s : State) :
  select_markers_fault env = None ->
  update_fault env = None ->
  let markers := mdm_invoice_line_to_remove_qlik (store s) in
  let rows := mdm_invoice_qlik (store s) in
  (markers = [] ->
   safeDeleteChangedInvoiceRows env s = (Ret (JBool true), s, [ESelectMarkers])) /\
  (markers <> [] ->
   exists s' matched,
     safeDeleteChangedInvoiceRows env s =
       (Ret (JBool true), s', [ESelectMarkers; ERetire markers matched]) /\
     this s' = this s /\ files s' = files s /\
     (forallb quote_free markers = true ->
      matched
      = length (filter (fun row =>
                          existsb (String.eqb (inv_mdm_invoice_id row)) markers)
                       rows) /\
      length (mdm_invoice_qlik (store s')) = length rows /\
      (forall i row,
         nth_error rows i = Some row ->
         exists row',
           nth_error (mdm_invoice_qlik (store s')) i = Some row' /\
           inv_mdm_invoice_id row' = inv_mdm_invoice_id row /\
           (In (inv_mdm_invoice_id row) markers ->
            deleted_at row' = Some (update_now env)) /\
           (~ In (inv_mdm_invoice_id row) markers -> row' = row)) /\
      mdm_invoice_line_to_remove_qlik (store s') = markers /\
      qlik_invoice_view_delta (store s') = qlik_invoice_view_delta (store s))).
Proof.
  intros Hsel Hupd markers rows. subst markers rows.
  rewrite safeDelete_cases, Hsel, Hupd.
  destruct (mdm_invoice_line_to_remove_qlik (store s)) as [|id ids] eqn:Hm.
  - split; [reflexivity | intros H; contradiction].
  - split; [discriminate|]. intros _.
    do 2 eexists. split; [reflexivity|]. cbn [this files store].
    split; [reflexivity|]. split; [reflexivity|].
    intros Hq. rewrite (run_update_quote_free env _ _ Hq).
    cbn [fst snd mdm_invoice_qlik mdm_invoice_line_to_remove_qlik
         qlik_invoice_view_delta].
    destruct (update_deleted_at_rows (id :: ids) (update_now env)
                (mdm_invoice_qlik (store s))) as [Hlen Hrows].
    split; [reflexivity|]. split; [exact Hlen|]. split; [exact Hrows|].
    split; [exact Hm | reflexivity].
Qed.

Lemma safeDelete_returns_true_witness :
  exists s' matched,
    safeDeleteChangedInvoiceRows (quiet_env []) (fresh_state sample_store) =
      (Ret (JBool true), s', [ESelectMarkers; ERetire ["INV-A"] matched]) /\
    matched = 1 /\
    forall i row,
      nth_error (mdm_invoice_qlik sample_store) i = Some row ->
      exists row',
        nth_error (mdm_invoice_qlik (store s')) i = Some row' /\
        inv_mdm_invoice_id row' = inv_mdm_invoice_id row /\
        (In (inv_mdm_invoice_id row) ["INV-A"] ->
         deleted_at row' = Some 1700000000%Z) /\
        (~ In (inv_mdm_invoice_id row) ["INV-A"] -> row' = row).
Proof.
  assert (Hne : mdm_invoice_line_to_remove_qlik
                  (store (fresh_state sample_store)) <> [])
    by discriminate.
  destruct (proj2 (safeDelete_returns_true (quiet_env [])
                     (fresh_state sample_store) eq_refl eq_refl) Hne)
    as [s' [matched [H1 [_ [_ H2]]]]].
  destruct (H2 eq_refl) as [H3 [_ [H4 _]]].
  exists s', matched. split; [exact H1|]. split; [exact H3 | exact H4].
Defined.

(** C3 as stated fails: with no removal marker the pass returns [true],
    which is not the number 0. *)
Lemma safeDelete_result_is_not_a_count :
  fst (fst (safeDeleteChangedInvoiceRows (quiet_env []) (fresh_state empty_store)))
  <> Ret (JNum 0).
Proof. vm_compute. discriminate. Qed.

(** C7, as the code has it.  A second pass right after the first, with
    the markers untouched in between and none of them with a quote in
    it, does what the first did: it reads the same markers (the pass
    does not consume them) and sends the same bulk update, which matches
    as many rows as in the first pass.  Every row a marker names had its
    [deleted_at] set by the first pass and has it set anew by the
    second; every other row is as the first pass left it.  So the rows
    retired after the second pass are the rows retired after the
    first. *)
Theorem safeDelete_twice (env1 env2 : Env) (s : State) :
  select_markers_fault env1 = None -> update_fault env1 = None ->
  select_markers_fault env2 = None -> update_fault env2 = None ->
  let markers := mdm_invoice_line_to_remove_qlik (store s) in
  forallb quote_free markers = true ->
  exists s1 s2 t,
    safeDeleteChangedInvoiceRows env1 s = (Ret (JBool true), s1, t) /\
    safeDeleteChangedInvoiceRows env2 s1 = (Ret (JBool true), s2, t) /\
    (markers <> [] ->
     exists matched, t = [ESelectMarkers; ERetire markers matched]) /\
    mdm_invoice_line_to_remove_qlik (store s1) = markers /\
    mdm_invoice_line_to_remove_qlik (store s2) = markers /\
    length (mdm_invoice_qlik (store s2)) = length (mdm_invoice_qlik (store s1)) /\
    (forall i row1,
       nth_error (mdm_invoice_qlik (store s1)) i = Some row1 ->
       exists row2,
         nth_error (mdm_invoice_qlik (store s2)) i = Some row2 /\
         inv_mdm_invoice_id row2 = inv_mdm_invoice_id row1 /\
         retired row2 = retired row1 /\
         (In (inv_mdm_invoice_id row1) markers ->
          deleted_at row1 = Some (update_now env1) /\
          deleted_at row2 = Some (update_now env2)) /\
         (~ In (inv_mdm_invoice_id row1) markers -> row2 = row1)).
Proof.
  intros Hs1 Hu1 Hs2 Hu2 markers Hq. subst markers.
  rewrite safeDelete_cases, Hs1, Hu1.
  destruct (mdm_invoice_line_to_remove_qlik (store s)) as [|id ids] eqn:Hm.
  - exists s, s, [ESelectMarkers].
    split; [reflexivity|].
    rewrite safeDelete_cases, Hs2, Hm.
    split; [reflexivity|]. split; [intros H; contradiction H; reflexivity|].
    split; [first [exact Hm | reflexivity]|].
    split; [first [exact Hm | reflexivity]|]. split; [reflexivity|].
    intros i row1 Hrow. exists row1. split; [exact Hrow|].
    split; [reflexivity|]. split; [reflexivity|].
    split; [intros [] | reflexivity].
  - rewrite (run_update_quote_free env1 _ _ Hq). cbn [fst snd].
    do 3 eexists. split; [reflexivity|].
    rewrite safeDelete_cases, Hs2, Hu2.
    cbn [store mdm_invoice_line_to_remove_qlik]. rewrite Hm.
    rewrite (run_update_quote_free env2 _ _ Hq).
    cbn [fst snd mdm_invoice_qlik mdm_invoice_line_to_remove_qlik
         qlik_invoice_view_delta].
    rewrite rows_matched_update.
    split; [reflexivity|].
    split; [intros _; eexists; reflexivity|].
    split; [first [exact Hm | reflexivity]|].
    split; [first [exact Hm | reflexivity]|].
    destruct (update_deleted_at_rows (id :: ids) (update_now env2)
                (update_deleted_at (id :: ids) (update_now env1)
                                   (mdm_invoice_qlik (store s))))
      as [Hlen Hrows].
    split; [exact Hlen|].
    intros i row1 Hrow1.
    destruct (Hrows i row1 Hrow1) as [row2 [R1 [R2 [R3 R4]]]].
    exists row2. split; [exact R1|]. split; [exact R2|].
    pose proof (update_deleted_at_named _ _ _ _ _ Hrow1) as Hfirst.
    destruct (in_dec string_dec (inv_mdm_invoice_id row1) (id :: ids))
      as [Hin|Hnin].
    + split; [unfold retired; rewrite (R3 Hin), (Hfirst Hin); reflexivity|].
      split; [intros _; split; [exact (Hfirst Hin) | exact (R3 Hin)]|].
      intros H. contradiction.
    + rewrite (R4 Hnin). split; [reflexivity|].
      split; [intros H; contradiction | reflexivity].
Qed.

Lemma safeDelete_twice_witness :
  exists s1 s2 t,
    safeDeleteChangedInvoiceRows (quiet_env []) (fresh_state sample_store)
      = (Ret (JBool true), s1, t) /\
    safeDeleteChangedInvoiceRows (quiet_env []) s1 = (Ret (JBool true), s2, t) /\
    (exists matched, t = [ESelectMarkers; ERetire ["INV-A"] matched]) /\
    mdm_invoice_line_to_remove_qlik (store s2) = ["INV-A"].
Proof.
  destruct (safeDelete_twice (quiet_env []) (quiet_env [])
              (fresh_state sample_store) eq_refl eq_refl eq_refl eq_refl
              eq_refl)
    as [s1 [s2 [t [H1 [H2 [H3 [_ [H4 _]]]]]]]].
  exists s1, s2, t. split; [exact H1|]. split; [exact H2|].
  split; [apply H3; discriminate | exact H4].
Defined.

(** C7 as stated fails: the second of two passes in a row matches one
    group again, not none. *)
Lemma second_safeDelete_pass_retires_again :
  retired_count
    (snd (safeDeleteChangedInvoiceRows (quiet_env [])
            (snd (fst (safeDeleteChangedInvoiceRows (quiet_env [])
                         (fresh_state sample_store))))))
  <> 0.
Proof. vm_compute. discriminate. Qed.

(* ================================================================= *)
(** ** The bounded executor *)

(** When the call has completed, every operation was sent once and
    answered once. *)
Lemma eachOfLimit_resolved (L : nat) (all : list Query)
    (answers : list (nat * option string)) (f0 : list Result) :
  1 <= L ->
  let p := eachOfLimit L all answers f0 in
  finished p = Some None ->
  starts_of (trace p) = all /\
  Permutation (map fst (settled_of (trace p))) all /\
  processedCount p = length all /\
  pool_failed p = f0 ++ failures_of (trace p) /\
  successCount p = successes_of (trace p) /\
  successes_of (trace p) + length (failures_of (trace p)) = length all.
Proof.
  intros HL p Hfinished.
  destruct (eachOfLimit_stable L all f0 HL answers) as [Hinv Hidle Hfin Hfull].
  fold p in Hinv, Hidle, Hfin, Hfull.
  destruct Hinv as [Hi Hr Hb Hp Hpr Hf Hs Hcn Hcm Hd].
  assert (Hrun : running p = 0).
  { destruct Hfin as [H|[_ H]]; [congruence | exact H]. }
  assert (Hfl : inflight p = []).
  { destruct (inflight p); [reflexivity | simpl in Hr; lia]. }
  assert (Hq : queue p = []).
  { destruct (queue p) eqn:E; [reflexivity|].
    assert (running p = L) by (apply Hfull; discriminate). lia. }
  rewrite Hq, app_nil_r in Hi. rewrite Hfl, app_nil_r in Hp.
  assert (Hperm : Permutation (map fst (settled_of (trace p))) all).
  { apply Permutation_sym. apply (Permutation_trans (l' := starts_of (trace p))).
    - rewrite Hi. apply Permutation_refl.
    - exact Hp. }
  assert (Hlen : length (settled_of (trace p)) = length all).
  { apply Permutation_length in Hperm. rewrite length_map in Hperm.
    exact Hperm. }
  repeat split; try assumption.
  - rewrite Hpr. exact Hlen.
  - unfold successes_of, failures_of. rewrite failures_successes_length.
    exact Hlen.
Qed.

Lemma In_failures_of (t : list Event) (r : Result) :
  In r (failures_of t) <->
  exists q msg,
    In (q, Some msg) (settled_of t) /\
    r = {| res_invoice_line_id := invoice_line_id q;
           success := false;
           error := Some msg;
           res_mdm_sql := Some (mdm_sql q) |}.
Proof.
  unfold failures_of. rewrite in_flat_map. split.
  - intros [[q [msg|]] [Hin Hr]]; simpl in Hr; [|contradiction].
    destruct Hr as [Hr|[]]. exists q, msg. split; [exact Hin | auto].
  - intros [q [msg [Hin Hr]]]. exists (q, Some msg). split; [exact Hin|].
    simpl. left. auto.
Qed.

Example eachOfLimit_sample :
  let p := eachOfLimit 2 sample_queries sample_answers [] in
  map invoice_line_id (starts_of (trace p)) = [10; 20; 30]%Z /\
  map (fun x => invoice_line_id (fst x)) (settled_of (trace p))
    = [20; 10; 30]%Z /\
  map res_invoice_line_id (pool_failed p) = [20%Z] /\
  successCount p = 2 /\ processedCount p = 3 /\
  max_in_flight (trace p) = 2 /\
  finished p = Some None.
Proof. vm_compute. repeat split. Qed.

(** C1.  One call of [executeAllQueries], once the store has answered
    every statement it was sent, has resolved; it has sent the
    statements of the input, each once, in the order of the input, and
    has got exactly one answer for each; it has handled as many results
    as the input is long; the failures it has added to
    [this.failedQueries] and the successes it has counted are together
    as many as the input is long.  On an instance with no failure
    recorded before, as the constructor leaves it, the successes and
    [this.failedQueries] add up to the length of the input.  And at
    every instant, whatever the store has answered, the statements sent
    so far are an initial part of the input: none is sent twice. *)
Theorem executeAllQueries_one_outcome_each (env : Env)
    (allQueries : list Query) (s : State) :
  length allQueries <= length (settles env) ->
  let p := eachOfLimit CONCURRENCY_LIMIT allQueries (settles env)
                       (failedQueries (this s)) in
  executeAllQueries env allQueries s =
    (Ret tt,
     {| this := {| failedQueries := pool_failed p;
                   safeDelete := safeDelete (this s) |};
        store := store s;
        files := files s |},
     trace p) /\
  starts_of (trace p) = allQueries /\
  Permutation (map fst (settled_of (trace p))) allQueries /\
  processedCount p = length allQueries /\
  pool_failed p = failedQueries (this s) ++ failures_of (trace p) /\
  successCount p + length (failures_of (trace p)) = length allQueries /\
  (failedQueries (this s) = [] ->
   successCount p + length (pool_failed p) = length allQueries) /\
  (forall answers f0,
   exists rest,
     starts_of (trace (eachOfLimit CONCURRENCY_LIMIT allQueries answers f0))
     ++ rest = allQueries).
Proof.
  intros Hlen p.
  assert (Hprefix : forall answers f0,
             exists rest,
               starts_of (trace (eachOfLimit CONCURRENCY_LIMIT allQueries
                                             answers f0))
               ++ rest = allQueries).
  { intros answers f0.
    destruct (eachOfLimit_stable CONCURRENCY_LIMIT allQueries f0
                CONCURRENCY_LIMIT_positive answers) as [Hinv _ _ _].
    eexists. exact (inv_items _ _ _ _ _ Hinv). }
  destruct (eachOfLimit_drained CONCURRENCY_LIMIT allQueries
              (failedQueries (this s)) CONCURRENCY_LIMIT_positive
              (settles env) Hlen) as [_ [_ Hfin]].
  fold p in Hfin.
  destruct (eachOfLimit_resolved CONCURRENCY_LIMIT allQueries (settles env)
              (failedQueries (this s)) CONCURRENCY_LIMIT_positive Hfin)
    as [H1 [H2 [H3 [H4 [H5 H6]]]]].
  fold p in H1, H2, H3, H4, H5, H6.
  split.
  - unfold executeAllQueries, executeAllQueries_limit. fold p.
    rewrite Hfin. reflexivity.
  - repeat split; try assumption.
    + rewrite H5. exact H6.
    + intros Hfresh. rewrite H4, Hfresh, H5. simpl. exact H6.
Qed.

Lemma executeAllQueries_one_outcome_each_witness :
  starts_of
    (trace (eachOfLimit CONCURRENCY_LIMIT sample_queries sample_answers []))
  = sample_queries.
Proof.
  exact (proj1 (proj2 (executeAllQueries_one_outcome_each
                         (quiet_env sample_answers) sample_queries
                         (fresh_state sample_store)
                         (le_n 3)))).
Defined.

(** C8.  For every limit [L] of at least 1 and every batch, whatever
    the store has answered so far, at most [L] statements are in flight,
    and a counter run along the events so far (up at each statement
    sent, down at each answer) has never exceeded [L].
    [executeAllQueries] passes the constant [CONCURRENCY_LIMIT], which
    is 500 (200 in the earlier version of the file). *)
Theorem eachOfLimit_at_most_L_in_flight (L : nat) (allQueries : list Query)
    (answers : list (nat * option string)) (f0 : list Result) :
  1 <= L ->
  let p := eachOfLimit L allQueries answers f0 in
  length (inflight p) <= L /\
  max_in_flight (trace p) <= L /\
  fst (in_flight_counter (trace p)) = length (inflight p) /\
  (forall env s,
     executeAllQueries env allQueries s =
     executeAllQueries_limit CONCURRENCY_LIMIT env allQueries s) /\
  CONCURRENCY_LIMIT = 500 /\ CONCURRENCY_LIMIT_earlier = 200.
Proof.
  intros HL p.
  destruct (eachOfLimit_stable L allQueries f0 HL answers) as [Hinv _ _ _].
  fold p in Hinv.
  destruct Hinv as [Hi Hr Hb Hp Hpr Hf Hs Hcn Hcm Hd].
  repeat split.
  - rewrite <- Hr. exact Hb.
  - exact Hcm.
  - rewrite Hcn. exact Hr.
Qed.

Lemma eachOfLimit_at_most_L_in_flight_witness :
  max_in_flight (trace (eachOfLimit 2 sample_queries sample_answers [])) <= 2.
Proof.
  exact (proj1 (proj2 (eachOfLimit_at_most_L_in_flight
                         2 sample_queries sample_answers []
                         (le_S 1 1 (le_n 1))))).
Defined.

Lemma executeAllQueries_shape (env : Env) (allQueries : list Query) (s : State) :
  let p := eachOfLimit CONCURRENCY_LIMIT allQueries (settles env)
                       (failedQueries (this s)) in
  let s' := {| this := {| failedQueries := pool_failed p;
                          safeDelete := safeDelete (this s) |};
               store := store s;
               files := files s |} in
  (executeAllQueries env allQueries s = (Ret tt, s', trace p) /\
   finished p = Some None) \/
  (executeAllQueries env allQueries s = (Pending, s', trace p) /\
   finished p = None).
Proof.
  intros p s'. unfold executeAllQueries, executeAllQueries_limit.
  fold p. fold s'.
  destruct (eachOfLimit_stable CONCURRENCY_LIMIT allQueries
              (failedQueries (this s)) CONCURRENCY_LIMIT_positive
              (settles env)) as [_ _ Hfin _].
  fold p in Hfin.
  destruct Hfin as [H|[H _]]; rewrite H; [right | left]; split; reflexivity.
Qed.

Lemma executeAllQueries_resolves (env : Env) (allQueries : list Query)
    (s : State) :
  length allQueries <= length (settles env) ->
  let p := eachOfLimit CONCURRENCY_LIMIT allQueries (settles env)
                       (failedQueries (this s)) in
  executeAllQueries env allQueries s =
    (Ret tt,
     {| this := {| failedQueries := pool_failed p;
                   safeDelete := safeDelete (this s) |};
        store := store s;
        files := files s |},
     trace p) /\
  finished p = Some None.
Proof.
  intros Hlen p.
  destruct (eachOfLimit_drained CONCURRENCY_LIMIT allQueries
              (failedQueries (this s)) CONCURRENCY_LIMIT_positive
              (settles env) Hlen) as [_ [_ Hfin]].
  fold p in Hfin.
  destruct (executeAllQueries_shape env allQueries s) as [[H1 H2]|[H1 H2]];
    fold p in H1, H2.
  - split; assumption.
  - congruence.
Qed.

(** With no fault outside the statements, [execute] resolves once every
    statement has been answered. *)
Lemma execute_resolves (env : Env) (s : State) :
  no_infrastructure_fault env ->
  length (select_delta (store s)) <= length (settles env) ->
  fst (fst (execute env s)) = Ret tt.
Proof.
  intros [Ha [Hf [Hsm [Hu [Hw Hc]]]]] Hlen.
  rewrite execute_unfold, Ha, Hf. cbv zeta.
  assert (Hg : exists v s1 t1,
             (if safeDelete (this s)
              then safeDeleteChangedInvoiceRows env s
              else (Ret (JBool true), s, [])) = (Ret v, s1, t1)).
  { destruct (safeDelete (this s)); [|repeat eexists].
    rewrite safeDelete_cases, Hsm, Hu.
    destruct (mdm_invoice_line_to_remove_qlik (store s)); repeat eexists. }
  destruct Hg as [v [s1 [t1 Hg]]]. rewrite Hg.
  destruct (length (select_delta (store s)) =? 0).
  - rewrite Hc. reflexivity.
  - destruct (executeAllQueries_resolves env (select_delta (store s)) s1 Hlen)
      as [He _].
    rewrite He. cbv zeta.
    match goal with
    | |- context [if ?c then _ else _] => destruct c
    end; rewrite ?Hw, Hc; reflexivity.
Qed.

(** C4.  When the store answers a statement with an error,
    [executeSingleQuery] still fulfils its promise, with a failed
    outcome that carries the identifier of the operation, the message of
    the error and the statement.  [executeAllQueries] never rejects,
    whatever the store answers.  Once every statement has been answered
    it has resolved, every operation of the batch has been sent and
    answered, and every statement answered with an error has its failed
    outcome in [this.failedQueries].  With no fault outside the
    statements, [execute] then resolves rather than leaving the
    process. *)
Theorem operation_failure_is_contained (env : Env) (allQueries : list Query)
    (s : State) :
  (forall q msg,
     executeSingleQuery q (Some msg) =
     Fulfilled {| res_invoice_line_id := invoice_line_id q;
                  success := false;
                  error := Some msg;
                  res_mdm_sql := Some (mdm_sql q) |}) /\
  (forall msg, fst (fst (executeAllQueries env allQueries s)) <> Throw msg) /\
  (forall code, fst (fst (executeAllQueries env allQueries s)) <> Exit code) /\
  (length allQueries <= length (settles env) ->
   exists s' t,
     executeAllQueries env allQueries s = (Ret tt, s', t) /\
     starts_of t = allQueries /\
     Permutation (map fst (settled_of t)) allQueries /\
     (forall q msg,
        In (q, Some msg) (settled_of t) ->
        In {| res_invoice_line_id := invoice_line_id q;
              success := false;
              error := Some msg;
              res_mdm_sql := Some (mdm_sql q) |}
           (failedQueries (this s')))) /\
  (no_infrastructure_fault env ->
   length (select_delta (store s)) <= length (settles env) ->
   fst (fst (execute env s)) = Ret tt).
Proof.
  split; [reflexivity|].
  split; [|split; [|split]].
  - intros msg.
    destruct (executeAllQueries_shape env allQueries s) as [[H _]|[H _]];
      rewrite H; discriminate.
  - intros code.
    destruct (executeAllQueries_shape env allQueries s) as [[H _]|[H _]];
      rewrite H; discriminate.
  - intros Hlen.
    destruct (executeAllQueries_resolves env allQueries s Hlen) as [He Hfin].
    destruct (eachOfLimit_resolved CONCURRENCY_LIMIT allQueries (settles env)
                (failedQueries (this s)) CONCURRENCY_LIMIT_positive Hfin)
      as [H1 [H2 [_ [H4 _]]]].
    do 2 eexists. split; [exact He|].
    split; [exact H1|]. split; [exact H2|].
    intros q msg Hin. cbn [this failedQueries]. rewrite H4.
    apply in_or_app. right. apply In_failures_of.
    exists q, msg. split; [exact Hin | reflexivity].
  - apply execute_resolves.
Qed.

Lemma operation_failure_is_contained_witness :
  fst (fst (execute (quiet_env sample_answers) (fresh_state sample_store)))
  = Ret tt.
Proof.
  apply (proj2 (proj2 (proj2 (proj2
           (operation_failure_is_contained (quiet_env sample_answers)
              sample_queries (fresh_state sample_store)))))).
  - repeat split.
  - apply le_n.
Defined.

(* ================================================================= *)
(** ** [execute]: order, report, connection *)

Lemma summaries_of_app (t u : list Event) :
  summaries_of (t ++ u) = summaries_of t ++ summaries_of u.
Proof. unfold summaries_of. apply flat_map_app. Qed.

Lemma writes_of_app (t u : list Event) :
  writes_of (t ++ u) = writes_of t ++ writes_of u.
Proof. unfold writes_of. apply flat_map_app. Qed.

Lemma closes_of_app (t u : list Event) :
  closes_of (t ++ u) = closes_of t + closes_of u.
Proof. unfold closes_of. rewrite filter_app. apply length_app. Qed.

(** The pass, when [execute] runs it, else nothing: its trace holds no
    statement of the batch, and it leaves the instance alone. *)
Lemma guard_phase (env : Env) (s : State) (r : Outcome jsval) (s1 : State)
    (t1 : list Event) :
  (if safeDelete (this s)
   then safeDeleteChangedInvoiceRows env s
   else (Ret (JBool true), s, [])) = (r, s1, t1) ->
  starts_of t1 = [] /\ settled_of t1 = [] /\ summaries_of t1 = [] /\
  writes_of t1 = [] /\ closes_of t1 = 0 /\ this s1 = this s /\
  files s1 = files s /\
  (safeDelete (this s) = false -> t1 = []).
Proof.
  destruct (safeDelete (this s)).
  - rewrite safeDelete_cases.
    destruct (select_markers_fault env);
      [|destruct (mdm_invoice_line_to_remove_qlik (store s));
        [|destruct (update_fault env)]];
      intros H; injection H as <- <- <-; repeat split; discriminate.
  - intros H; injection H as <- <- <-. repeat split.
Qed.

Example execute_sample :
  map (fun e => match e with
                | EStart q => ("start", invoice_line_id q)
                | ESettle q _ => ("settle", invoice_line_id q)
                | EAuthenticate => ("authenticate", 0%Z)
                | EFetchDelta => ("fetch", 0%Z)
                | ESelectMarkers => ("markers", 0%Z)
                | ERetire _ k => ("retire", Z.of_nat k)
                | EProgress n _ _ => ("progress", Z.of_nat n)
                | ESummary n _ _ => ("summary", Z.of_nat n)
                | EWriteFile _ recs => ("write", Z.of_nat (length recs))
                | EClose => ("close", 0%Z)
                | EConnect => ("connect", 0%Z)
                | EExit c => ("exit", c)
                end)
      (snd (execute (quiet_env sample_answers) (fresh_state sample_store)))
  = [("authenticate", 0); ("fetch", 0); ("markers", 0); ("retire", 1);
     ("start", 10); ("start", 20); ("start", 30);
     ("settle", 20); ("settle", 10); ("settle", 30);
     ("progress", 3); ("summary", 3); ("write", 1); ("close", 0)]%Z.
Proof. vm_compute. reflexivity. Qed.

(** C2.  In a run of [execute]: when the pass is disabled, the run has
    no event of the pass; when it is enabled and a statement of the
    batch is sent, the run is the connection check and the fetch, then
    the whole pass, which has returned, then the rest, and no statement
    is sent before the pass has returned and no event of the pass comes
    after; when the pass throws, no statement is sent and the process
    exits with 1. *)
Theorem safe_delete_precedes_apply (env : Env) (s : State)
    (r : Outcome unit) (s' : State) (t : list Event) :
  execute env s = (r, s', t) ->
  (safeDelete (this s) = false -> filter is_guard_event t = []) /\
  (safeDelete (this s) = true -> starts_of t <> [] ->
   exists v s1 tg ta,
     safeDeleteChangedInvoiceRows env s = (Ret v, s1, tg) /\
     t = [EAuthenticate; EFetchDelta] ++ tg ++ ta /\
     starts_of tg = [] /\
     filter is_guard_event ta = []) /\
  (safeDelete (this s) = true ->
   forall msg s1 tg,
     safeDeleteChangedInvoiceRows env s = (Throw msg, s1, tg) ->
     starts_of t = [] /\ r = Exit 1%Z).
Proof.
  intros H. rewrite execute_unfold in H.
  destruct (authenticate_fault env).
  { injection H as <- <- <-. repeat split; try reflexivity.
    intros _ Hs. contradiction Hs. reflexivity. }
  destruct (fetch_fault env).
  { injection H as <- <- <-. repeat split; try reflexivity.
    intros _ Hs. contradiction Hs. reflexivity. }
  cbv zeta in H.
  destruct (if safeDelete (this s)
            then safeDeleteChangedInvoiceRows env s
            else (Ret (JBool true), s, [])) as [[rg s1] t1] eqn:Hg.
  destruct (guard_phase env s rg s1 t1 Hg)
    as [G1 [_ [_ [_ [_ [_ [_ G8]]]]]]].
  assert (Htail : forall r2 s2 t2 post,
             executeAllQueries env (select_delta (store s)) s1 = (r2, s2, t2) ->
             filter is_guard_event post = [] ->
             filter is_guard_event (t2 ++ post) = []).
  { intros r2 s2 t2 post He Hpost.
    rewrite filter_app, Hpost, app_nil_r.
    assert (Ht2 : t2 = trace (eachOfLimit CONCURRENCY_LIMIT
                                (select_delta (store s)) (settles env)
                                (failedQueries (this s1)))).
    { destruct (executeAllQueries_shape env (select_delta (store s)) s1)
        as [[E _]|[E _]]; rewrite E in He; injection He as _ _ <-;
        reflexivity. }
    rewrite Ht2. apply pool_events_silent. apply eachOfLimit_pool_events. }
  assert (Hpre : forall x,
             starts_of (EAuthenticate :: EFetchDelta :: x) = starts_of x)
    by reflexivity.
  assert (Hpre' : forall x,
             filter is_guard_event (EAuthenticate :: EFetchDelta :: x)
             = filter is_guard_event x)
    by reflexivity.
  assert (Hcases :
    (starts_of t = [] /\
     (safeDelete (this s) = false -> filter is_guard_event t = [])) \/
    (exists v ta, rg = Ret v /\ t = [EAuthenticate; EFetchDelta] ++ t1 ++ ta /\
                  filter is_guard_event ta = [])).
  { destruct rg as [v|msg|c|].
    - right. exists v.
      destruct (length (select_delta (store s)) =? 0).
      + destruct (close_fault env); injection H as <- <- <-.
        * exists []. rewrite app_nil_r. repeat split.
        * exists [EClose]. repeat split.
      + destruct (executeAllQueries env (select_delta (store s)) s1)
          as [[ra s2] t2] eqn:He.
        destruct ra as [u|msg|c|]; cbv zeta in H.
        * destruct (0 <? length (failedQueries (this s2)));
            [destruct (write_fault env)|];
            try destruct (close_fault env); injection H as <- <- <-;
            eexists; (split; [reflexivity|]);
            (split; [reflexivity|]);
            apply (Htail _ _ _ _ eq_refl); reflexivity.
        * injection H as <- <- <-. eexists. split; [reflexivity|].
          split; [reflexivity|]. apply (Htail _ _ _ _ eq_refl). reflexivity.
        * injection H as <- <- <-. exists t2. split; [reflexivity|].
          split; [reflexivity|].
          rewrite <- (app_nil_r t2). apply (Htail _ _ _ _ eq_refl). reflexivity.
        * injection H as <- <- <-. exists t2. split; [reflexivity|].
          split; [reflexivity|].
          rewrite <- (app_nil_r t2). apply (Htail _ _ _ _ eq_refl). reflexivity.
    - left. injection H as <- <- <-.
      rewrite Hpre, Hpre', starts_of_app, G1. split; [reflexivity|].
      intros Hoff. rewrite (G8 Hoff). reflexivity.
    - left. injection H as <- <- <-.
      rewrite Hpre, Hpre', G1. split; [reflexivity|].
      intros Hoff. rewrite (G8 Hoff). reflexivity.
    - left. injection H as <- <- <-.
      rewrite Hpre, Hpre', G1. split; [reflexivity|].
      intros Hoff. rewrite (G8 Hoff). reflexivity. }
  split; [|split].
  - intros Hoff.
    destruct Hcases as [[_ Hc]|[v [ta [_ [Ht Hta]]]]].
    + apply Hc. exact Hoff.
    + rewrite Ht, (G8 Hoff). simpl. exact Hta.
  - intros Hon Hstart.
    destruct Hcases as [[Hc _]|[v [ta [Hr [Ht Hta]]]]]; [contradiction|].
    rewrite Hon in Hg. subst rg.
    exists v, s1, t1, ta. repeat split; assumption.
  - intros Hon msg s2 tg Hthrow.
    rewrite Hon, Hthrow in Hg. injection Hg as <- <- <-.
    injection H as <- <- <-.
    rewrite Hpre, starts_of_app, G1. split; reflexivity.
Qed.

Lemma safe_delete_precedes_apply_witness :
  exists v s1 tg ta,
    safeDeleteChangedInvoiceRows (quiet_env sample_answers)
      (fresh_state sample_store) = (Ret v, s1, tg) /\
    snd (execute (quiet_env sample_answers) (fresh_state sample_store))
      = [EAuthenticate; EFetchDelta] ++ tg ++ ta /\
    starts_of tg = [] /\
    filter is_guard_event ta = [].
Proof.
  apply (safe_delete_precedes_apply
           (quiet_env sample_answers) (fresh_state sample_store)
           (fst (fst (execute (quiet_env sample_answers)
                              (fresh_state sample_store))))
           (snd (fst (execute (quiet_env sample_answers)
                              (fresh_state sample_store))))).
  - destruct (execute (quiet_env sample_answers) (fresh_state sample_store))
      as [[r s'] t].
    reflexivity.
  - reflexivity.
  - vm_compute. discriminate.
Defined.

(** C6, as the code has it.  Take a run of [execute] on an instance with
    no failure recorded before, and let the run resolve.  Then
    [this.failedQueries] holds exactly the failed outcomes of the run,
    each with the identifier, the message and the statement of an
    operation of the batch that the store answered with an error.  The
    file [failed_queries_<date>.json], where the date is the part before
    the [T] of the time of the report, is written, with exactly these
    outcomes, if and only if there is one.  When at least one operation
    was fetched, one summary is produced, with the total, the number of
    successes and the number of failures, whether or not an operation
    failed; when none was fetched, the run returns early and produces no
    summary. *)
Theorem report_at_end_of_run (env : Env) (s s' : State) (t : list Event) :
  failedQueries (this s) = [] ->
  execute env s = (Ret tt, s', t) ->
  let allQueries := select_delta (store s) in
  let failed := failedQueries (this s') in
  failed = failures_of t /\
  (forall r, In r failed ->
     exists q msg,
       In q allQueries /\ In (q, Some msg) (settled_of t) /\
       r = {| res_invoice_line_id := invoice_line_id q;
              success := false;
              error := Some msg;
              res_mdm_sql := Some (mdm_sql q) |}) /\
  writes_of t = match failed with
                | [] => []
                | _ :: _ => [(failuresFile env, failed)]
                end /\
  files s' = match failed with
             | [] => files s
             | _ :: _ => (failuresFile env, failed) :: files s
             end /\
  failuresFile env
    = ("failed_queries_" ++ beforeT (report_time env) ++ ".json")%string /\
  summaries_of t = match allQueries with
                   | [] => []
                   | _ :: _ => [(length allQueries,
                                 Z.of_nat (successes_of t),
                                 length failed)]
                   end.
Proof.
  intros Hfresh H allQueries failed.
  rewrite execute_unfold in H.
  destruct (authenticate_fault env); [discriminate|].
  destruct (fetch_fault env); [discriminate|].
  cbv zeta in H. fold allQueries in H.
  destruct (if safeDelete (this s)
            then safeDeleteChangedInvoiceRows env s
            else (Ret (JBool true), s, [])) as [[rg s1] t1] eqn:Hg.
  destruct (guard_phase env s rg s1 t1 Hg)
    as [G1 [G2 [G3 [G4 [G5 [G6 [G7 _]]]]]]].
  destruct rg as [v|msg|c|]; try discriminate.
  assert (P1 : forall x, settled_of (EAuthenticate :: EFetchDelta :: x)
                         = settled_of x) by reflexivity.
  assert (P2 : forall x, writes_of (EAuthenticate :: EFetchDelta :: x)
                         = writes_of x) by reflexivity.
  assert (P3 : forall x, summaries_of (EAuthenticate :: EFetchDelta :: x)
                         = summaries_of x) by reflexivity.
  destruct (length allQueries =? 0) eqn:Hlen.
  - apply Nat.eqb_eq in Hlen. apply length_zero_iff_nil in Hlen.
    destruct (close_fault env); [discriminate|].
    injection H as <- <-. subst failed. rewrite G6, Hfresh, Hlen.
    unfold failures_of.
    rewrite P1, P2, P3, settled_of_app, writes_of_app, summaries_of_app,
      G2, G3, G4.
    repeat split; try reflexivity; try assumption.
    intros r [].
  - destruct (executeAllQueries_shape env allQueries s1) as [[E F]|[E _]];
      rewrite E in H; [|discriminate].
    cbv zeta in H.
    destruct (eachOfLimit_resolved CONCURRENCY_LIMIT allQueries (settles env)
                (failedQueries (this s1)) CONCURRENCY_LIMIT_positive F)
      as [R1 [R2 [R3 [R4 [R5 R6]]]]].
    destruct (pool_events_silent _
                (eachOfLimit_pool_events CONCURRENCY_LIMIT allQueries
                   (settles env) (failedQueries (this s1))))
      as [_ [S2 [S3 _]]].
    rewrite G6, Hfresh in *. cbn [app] in R4.
    set (p := eachOfLimit CONCURRENCY_LIMIT allQueries (settles env) []) in *.
    cbn [this failedQueries store files] in H.
    assert (Hall : exists q0 rest, allQueries = q0 :: rest).
    { destruct allQueries as [|q0 rest]; [discriminate Hlen|].
      exists q0, rest. reflexivity. }
    destruct Hall as [q0 [rest Hall]].
    assert (Hsum : (Z.of_nat (length allQueries)
                    - Z.of_nat (length (pool_failed p)))%Z
                   = Z.of_nat (successes_of (trace p))).
    { rewrite R4. lia. }
    rewrite Hsum in H.
    destruct (pool_failed p) as [|r0 rs] eqn:Hpf.
    + cbn [length Nat.ltb Nat.leb] in H.
      destruct (close_fault env); [discriminate|].
      injection H as <- <-. subst failed. cbn [this failedQueries files].
      unfold failures_of, successes_of.
      rewrite P1, P2, P3, !settled_of_app, !writes_of_app, !summaries_of_app,
        G2, G3, G4, S2, S3.
      cbn [app settled_of writes_of summaries_of flat_map].
      rewrite app_nil_r. fold (failures_of (trace p)).
      fold (successes_of (trace p)). rewrite <- R4, G7, Hall.
      repeat split; try reflexivity.
      intros r [].
    + cbn [length Nat.ltb Nat.leb] in H.
      destruct (write_fault env); [discriminate|].
      destruct (close_fault env); [discriminate|].
      injection H as <- <-. subst failed. cbn [this failedQueries files].
      unfold failures_of at 1. unfold successes_of.
      rewrite P1, P2, P3, !settled_of_app, !writes_of_app, !summaries_of_app,
        G2, G3, G4, S2, S3.
      cbn [app settled_of writes_of summaries_of flat_map].
      rewrite app_nil_r. fold (failures_of (trace p)).
      fold (successes_of (trace p)). rewrite <- R4, G7, Hall.
      repeat split; try reflexivity.
      intros r Hr. rewrite <- Hall. rewrite R4 in Hr.
      apply In_failures_of in Hr. destruct Hr as [q [msg [Hq Hr]]].
      exists q, msg. repeat split; [|exact Hq | exact Hr].
      apply (Permutation_in _ R2). apply (in_map fst) in Hq. exact Hq.
Qed.

Lemma report_at_end_of_run_witness :
  writes_of (snd (execute (quiet_env sample_answers) (fresh_state sample_store)))
  = [("failed_queries_2024-09-30.json",
      [{| res_invoice_line_id := 20;
          success := false;
          error := Some "null value in column violates not-null constraint";
          res_mdm_sql := Some "INSERT INTO mdm_invoice_qlik VALUES (NULL)" |}])].
Proof.
  assert (H : execute (quiet_env sample_answers) (fresh_state sample_store)
              = (Ret tt,
                 snd (fst (execute (quiet_env sample_answers)
                                   (fresh_state sample_store))),
                 snd (execute (quiet_env sample_answers)
                              (fresh_state sample_store))))
    by (vm_compute; reflexivity).
  destruct (report_at_end_of_run (quiet_env sample_answers)
              (fresh_state sample_store) _ _ eq_refl H) as [_ [_ [W _]]].
  rewrite W. vm_compute. reflexivity.
Defined.

(** C6 as stated fails: a run that fetches no operation resolves without
    a summary. *)
Lemma empty_run_has_no_summary :
  fst (fst (execute (quiet_env []) (fresh_state empty_store))) = Ret tt /\
  summaries_of (snd (execute (quiet_env []) (fresh_state empty_store))) = [].
Proof. vm_compute. split; reflexivity. Qed.

Lemma connects_of_app (t u : list Event) :
  connects_of (t ++ u) = connects_of t + connects_of u.
Proof. unfold connects_of. rewrite filter_app. apply length_app. Qed.

Lemma guard_phase_connects (env : Env) (s : State) (r : Outcome jsval)
    (s1 : State) (t1 : list Event) :
  (if safeDelete (this s)
   then safeDeleteChangedInvoiceRows env s
   else (Ret (JBool true), s, [])) = (r, s1, t1) ->
  connects_of t1 = 0.
Proof.
  destruct (safeDelete (this s)).
  - rewrite safeDelete_cases.
    destruct (select_markers_fault env);
      [|destruct (mdm_invoice_line_to_remove_qlik (store s));
        [|destruct (update_fault env)]];
      intros H; injection H as <- <- <-; reflexivity.
  - intros H; injection H as <- <- <-. reflexivity.
Qed.

(** How often a run of [execute] closes the connection, by the way it
    ends. *)
Lemma execute_counts (env : Env) (s : State) (r : Outcome unit) (s' : State)
    (t : list Event) :
  execute env s = (r, s', t) ->
  connects_of t = 0 /\
  match r with
  | Ret _ => closes_of t = 1
  | Exit c => c = 1%Z /\ closes_of t = 0
  | Throw _ => closes_of t = 0
  | Pending => closes_of t = 0
  end.
Proof.
  intros H. rewrite execute_unfold in H.
  destruct (authenticate_fault env).
  { injection H as <- <- <-. repeat split. }
  destruct (fetch_fault env).
  { injection H as <- <- <-. repeat split. }
  cbv zeta in H.
  destruct (if safeDelete (this s)
            then safeDeleteChangedInvoiceRows env s
            else (Ret (JBool true), s, [])) as [[rg s1] t1] eqn:Hg.
  pose proof (guard_phase_connects env s rg s1 t1 Hg) as C1.
  destruct (guard_phase env s rg s1 t1 Hg) as [_ [_ [_ [_ [G5 _]]]]].
  assert (P1 : forall x, connects_of (EAuthenticate :: EFetchDelta :: x)
                         = connects_of x) by reflexivity.
  assert (P2 : forall x, closes_of (EAuthenticate :: EFetchDelta :: x)
                         = closes_of x) by reflexivity.
  destruct rg as [v|msg|c|].
  - destruct (length (select_delta (store s)) =? 0).
    + destruct (close_fault env); injection H as <- <- <-;
        rewrite P1, P2, ?connects_of_app, ?closes_of_app, ?C1, ?G5;
        repeat split.
    + destruct (executeAllQueries_shape env (select_delta (store s)) s1)
        as [[E _]|[E _]]; rewrite E in H; cbv zeta in H;
        destruct (pool_events_silent _
                    (eachOfLimit_pool_events CONCURRENCY_LIMIT
                       (select_delta (store s)) (settles env)
                       (failedQueries (this s1))))
          as [_ [_ [_ [S4 S5]]]].
      * destruct (0 <? _); [destruct (write_fault env)|];
          try destruct (close_fault env); injection H as <- <- <-;
          rewrite P1, P2, !connects_of_app, !closes_of_app, C1, G5, S4, S5;
          repeat split.
      * injection H as <- <- <-.
        rewrite P1, P2, !connects_of_app, !closes_of_app, C1, G5, S4, S5.
        repeat split.
  - injection H as <- <- <-.
    rewrite P1, P2, !connects_of_app, !closes_of_app, C1, G5. repeat split.
  - injection H as <- <- <-.
    destruct (safeDelete (this s)).
    + rewrite safeDelete_cases in Hg.
      destruct (select_markers_fault env);
        [|destruct (mdm_invoice_line_to_remove_qlik (store s));
          [|destruct (update_fault env)]]; discriminate.
    + discriminate.
  - injection H as <- <- <-. rewrite P1, P2, C1, G5. repeat split.
Qed.

(** C9, as the code has it.  A run from the entry point opens one
    connection.  When [execute] resolves, it has closed the connection
    once, at its end.  When a failure takes it into its [catch], the
    process exits with 1 there, and the connection has not been
    closed. *)
Theorem execute_close_paths (argv : list jsstring) (env : Env) (s : State)
    (r : Outcome unit) (s' : State) (t : list Event) :
  execute env s = (r, s', t) ->
  connects_of (snd (cli_run argv env s)) = 1 /\
  (r = Ret tt -> closes_of t = 1) /\
  (forall c, r = Exit c -> c = 1%Z /\ closes_of t = 0).
Proof.
  intros H. split; [|split].
  - unfold cli_run, construct, try_catch, bind, emit, put_this, process_exit.
    match goal with
    | |- context [execute env ?x] =>
        destruct (execute env x) as [[r0 s0] t0] eqn:E
    end.
    destruct (execute_counts env _ r0 s0 t0 E) as [C _].
    destruct r0; cbn [snd app]; unfold connects_of in *;
      cbn [filter length]; rewrite ?filter_app, ?length_app, C; reflexivity.
  - intros ->. apply (execute_counts env s _ s' t H).
  - intros c ->. apply (execute_counts env s _ s' t H).
Qed.

Lemma execute_close_paths_witness :
  closes_of (snd (execute unreachable_env (fresh_state sample_store))) = 0.
Proof.
  apply (proj2 (proj2 (execute_close_paths
                         (sample_argv []) unreachable_env
                         (fresh_state sample_store)
                         (Exit 1%Z) (fresh_state sample_store) [EExit 1%Z]
                         eq_refl))
           1%Z eq_refl).
Defined.

(* ================================================================= *)
(** ** The monthly workflow runner *)

Lemma runs_of_app (cmd : string) (t u : list WfEvent) :
  runs_of cmd (t ++ u) = runs_of cmd t ++ runs_of cmd u.
Proof.
  induction t as [|e t IH]; [reflexivity|].
  destruct e as [l|c a ok out|f x]; cbn [app runs_of]; try exact IH.
  destruct (String.eqb c cmd); cbn [app]; rewrite IH; reflexivity.
Qed.

Lemma appended_to_app (file : string) (t u : list WfEvent) :
  appended_to file (t ++ u) = appended_to file t ++ appended_to file u.
Proof.
  induction t as [|e t IH]; [reflexivity|].
  destruct e as [l|c a ok out|f x]; cbn [app appended_to]; try exact IH.
  destruct (String.eqb f file); cbn [app]; rewrite IH; reflexivity.
Qed.

Lemma string_app_inv_head (a b c : string) :
  (a ++ b)%string = (a ++ c)%string -> b = c.
Proof.
  induction a as [|x a IH]; simpl; intros H; [exact H|].
  injection H as H. apply IH. exact H.
Qed.

Lemma two_failed_runs (l : list (nat * bool * string)) :
  map status_of l = repeat false 2 ->
  map attempt_of l = seq 1 (length l) ->
  exists out1 out2, l = [(1, false, out1); (2, false, out2)].
Proof.
  destruct l as [|[[a1 b1] o1] [|[[a2 b2] o2] [|x l]]]; try discriminate.
  cbn. intros Hs Ha. exists o1, o2. congruence.
Qed.

Lemma repeat_false_no_true (n : nat) : ~ In true (repeat false n).
Proof.
  induction n as [|n IH]; simpl; [tauto|].
  intros [H|H]; [discriminate | exact (IH H)].
Qed.

(** What the trace [T] of a unit shows, given what its two stages left:
    [t1] for the first stage, which ran [cmd1] and ended with [ok1], and
    [t2] for the second, which ran [cmd2], and did not run at all when
    the first stage failed. *)
Lemma unit_trace_facts (cmd1 cmd2 ff : string) (ok1 : bool)
    (t1 t2 T : list WfEvent) :
  cmd1 <> cmd2 ->
  (forall c, c <> cmd1 -> runs_of c t1 = []) ->
  (forall c, c <> cmd2 -> runs_of c t2 = []) ->
  length (runs_of cmd1 t1) <= max_attempts ->
  length (runs_of cmd2 t2) <= max_attempts ->
  (ok1 = true -> In true (map status_of (runs_of cmd1 t1))) ->
  (ok1 = false -> t2 = []) ->
  appended_to ff t1 = failure_log (runs_of cmd1 t1) ->
  appended_to ff t2 = failure_log (runs_of cmd2 t2) ->
  map attempt_of (runs_of cmd1 t1) = seq 1 (length (runs_of cmd1 t1)) ->
  map attempt_of (runs_of cmd2 t2) = seq 1 (length (runs_of cmd2 t2)) ->
  (forall c, runs_of c T = runs_of c t1 ++ runs_of c t2) ->
  appended_to ff T = appended_to ff t1 ++ appended_to ff t2 ->
  (forall cmd, length (runs_of cmd T) <= max_attempts) /\
  appended_to ff T
    = failure_log (runs_of cmd1 T) ++ failure_log (runs_of cmd2 T) /\
  (map status_of (runs_of cmd1 T) = repeat false max_attempts ->
   runs_of cmd2 T = []) /\
  (forall cmd,
     map status_of (runs_of cmd T) = repeat false max_attempts ->
     exists out1 out2, runs_of cmd T = [(1, false, out1); (2, false, out2)]).
Proof.
  intros Hne N1 N2 L1 L2 Hok Hfail A1 A2 S1 S2 HR HA.
  assert (H12 : runs_of cmd1 t2 = []) by (apply N2; exact Hne).
  assert (H21 : runs_of cmd2 t1 = []) by (apply N1; apply not_eq_sym; exact Hne).
  assert (R1 : runs_of cmd1 T = runs_of cmd1 t1)
    by (rewrite HR, H12, app_nil_r; reflexivity).
  assert (R2 : runs_of cmd2 T = runs_of cmd2 t2)
    by (rewrite HR, H21; reflexivity).
  split; [|split; [|split]].
  - intros cmd.
    destruct (string_dec cmd cmd1) as [->|D1].
    + rewrite R1. exact L1.
    + destruct (string_dec cmd cmd2) as [->|D2].
      * rewrite R2. exact L2.
      * rewrite HR, (N1 cmd D1), (N2 cmd D2). simpl. lia.
  - rewrite HA, A1, A2, R1, R2. reflexivity.
  - rewrite R1, R2. intros Hall.
    destruct ok1.
    + exfalso. apply (repeat_false_no_true max_attempts).
      rewrite <- Hall. apply Hok. reflexivity.
    + rewrite (Hfail eq_refl). reflexivity.
  - intros cmd Hall.
    destruct (string_dec cmd cmd1) as [->|D1].
    + rewrite R1 in *. apply two_failed_runs; assumption.
    + destruct (string_dec cmd cmd2) as [->|D2].
      * rewrite R2 in *. apply two_failed_runs; assumption.
      * rewrite HR, (N1 cmd D1), (N2 cmd D2) in Hall. discriminate Hall.
Qed.

Section WorkflowProofs.

Variable Machine : Type.
Variable bash_c : string -> Machine -> bool * string * Machine.
Variable is_file : string -> Machine -> bool.
Variable WORKDIR : string.

Lemma PART1_not_PART2 (MM : string) : PART1 WORKDIR MM <> PART2 WORKDIR.
Proof.
  unfold PART1, PART2. intros H.
  apply (string_app_inv_head "node ") in H.
  apply (string_app_inv_head dq) in H.
  apply (string_app_inv_head WORKDIR) in H.
  discriminate H.
Qed.

(** The loop of [run_cmd_with_retry], by what it leaves in the trace. *)
Lemma retry_loop_facts (FF cmd ff : string) (remaining : nat) :
  forall (attempt : nat) (m : Machine),
    let res := retry_loop Machine bash_c remaining attempt FF cmd ff m in
    let ok := fst (fst res) in
    let t := snd res in
    (forall c, c <> cmd -> runs_of c t = []) /\
    length (runs_of cmd t) <= remaining /\
    (ok = false -> map status_of (runs_of cmd t) = repeat false remaining) /\
    (ok = true -> In true (map status_of (runs_of cmd t))) /\
    appended_to ff t = failure_log (runs_of cmd t) /\
    (forall f, f <> ff -> appended_to f t = []) /\
    map attempt_of (runs_of cmd t) = seq attempt (length (runs_of cmd t)).
Proof.
  induction remaining as [|remaining IH]; intros attempt m; cbn [retry_loop].
  - cbn [fst snd runs_of appended_to length map repeat failure_log flat_map].
    repeat split; try reflexivity; try lia; try discriminate.
  - destruct (bash_c cmd m) as [[ok out] m1]. destruct ok.
    + cbn [fst snd runs_of appended_to].
      rewrite String.eqb_refl.
      cbn [length map status_of attempt_of fst snd failure_log flat_map app seq].
      split; [|split; [|split; [|split; [|split; [|split]]]]].
      * intros c Hc. apply not_eq_sym in Hc. apply String.eqb_neq in Hc.
        rewrite Hc. reflexivity.
      * lia.
      * intros H. discriminate H.
      * intros _. left. reflexivity.
      * reflexivity.
      * intros f _. reflexivity.
      * reflexivity.
    + specialize (IH (attempt + 1) m1).
      destruct (retry_loop Machine bash_c remaining (attempt + 1) FF cmd ff m1)
        as [[r m2] t'].
      cbn [fst snd] in IH.
      destruct IH as [I1 [I2 [I3 [I4 [I5 [I6 I7]]]]]].
      cbn [fst snd app runs_of appended_to].
      rewrite !String.eqb_refl.
      cbn [length map status_of attempt_of fst snd failure_log flat_map app
           repeat seq].
      split; [|split; [|split; [|split; [|split; [|split]]]]].
      * intros c Hc. pose proof (I1 c Hc) as H1.
        apply not_eq_sym in Hc. apply String.eqb_neq in Hc.
        rewrite Hc. exact H1.
      * lia.
      * intros Hr. rewrite (I3 Hr). reflexivity.
      * intros Hr. right. exact (I4 Hr).
      * rewrite I5. reflexivity.
      * intros f Hf. pose proof (I6 f Hf) as H6.
        apply not_eq_sym in Hf. apply String.eqb_neq in Hf.
        rewrite !Hf. exact H6.
      * rewrite I7. replace (attempt + 1) with (S attempt) by lia. reflexivity.
Qed.

Lemma month_loop_segments (months : list string) :
  forall m,
  exists segs,
    snd (month_loop Machine bash_c is_file WORKDIR months m) = concat segs /\
    Forall2 (fun MM seg =>
               exists m0,
                 seg = snd (month_body Machine bash_c is_file WORKDIR MM m0))
            months segs.
Proof.
  induction months as [|MM months IH]; intros m; cbn [month_loop].
  - exists []. split; [reflexivity | constructor].
  - destruct (month_body Machine bash_c is_file WORKDIR MM m) as [m1 t1] eqn:E.
    destruct (IH m1) as [segs [Hs Hf]].
    destruct (month_loop Machine bash_c is_file WORKDIR months m1) as [m2 t2].
    cbn [snd] in *. exists (t1 :: segs). split.
    + cbn [concat]. rewrite Hs. reflexivity.
    + constructor; [|exact Hf]. exists m. rewrite E. reflexivity.
Qed.

Example month_body_sample :
  runs_of (PART1 "/srv/qlik" "09")
    (snd (month_body nat sample_bash_c sample_is_file "/srv/qlik" "09" 1))
  = [(1, true, "output of run 1")] /\
  runs_of (PART2 "/srv/qlik")
    (snd (month_body nat sample_bash_c sample_is_file "/srv/qlik" "09" 1))
  = [(1, false, "output of run 2"); (2, false, "output of run 3")] /\
  appended_to (FAILFILE "/srv/qlik" "09")
    (snd (month_body nat sample_bash_c sample_is_file "/srv/qlik" "09" 1))
  = ["---- attempt 1 output ----"; "output of run 2"; "---- end attempt 1 ----";
     "---- attempt 2 output ----"; "output of run 3"; "---- end attempt 2 ----"].
Proof. vm_compute. repeat split. Qed.

(** C5.  For a unit [MM] of the list, run from any state of the
    machine: the limit is 2 attempts; no command is run more than that
    many times; when the invoice file is there, the failure log of the
    unit has got, in order, the output of every attempt that failed;
    when the first stage has failed on all its attempts, the second
    stage is not run.  And the loop goes through all its units,
    whatever happens in each: the trace of a run over a list of units
    is one trace of the loop body for each unit, in order. *)
Theorem retry_budget_then_next_unit (MM : string) (months : list string)
    (m : Machine) :
  let t := snd (month_body Machine bash_c is_file WORKDIR MM m) in
  max_attempts = 2 /\
  (forall cmd, length (runs_of cmd t) <= max_attempts) /\
  (is_file (INVOICE WORKDIR MM) m = true ->
   appended_to (FAILFILE WORKDIR MM) t
   = failure_log (runs_of (PART1 WORKDIR MM) t)
     ++ failure_log (runs_of (PART2 WORKDIR) t)) /\
  (map status_of (runs_of (PART1 WORKDIR MM) t) = repeat false max_attempts ->
   runs_of (PART2 WORKDIR) t = []) /\
  (forall cmd,
     map status_of (runs_of cmd t) = repeat false max_attempts ->
     exists out1 out2, runs_of cmd t = [(1, false, out1); (2, false, out2)]) /\
  (forall m0,
   exists segs,
     snd (month_loop Machine bash_c is_file WORKDIR months m0) = concat segs /\
     Forall2 (fun MM' seg =>
                exists m1,
                  seg = snd (month_body Machine bash_c is_file WORKDIR MM' m1))
             months segs).
Proof.
  intros t. subst t.
  split; [reflexivity|].
  assert (Hloop := month_loop_segments months).
  assert (Hne := PART1_not_PART2 MM).
  unfold month_body, run_cmd_with_retry. cbv zeta.
  destruct (is_file (INVOICE WORKDIR MM) m) eqn:Hfile; cbn [negb].
  - pose proof (retry_loop_facts (FAILFILE WORKDIR MM) (PART1 WORKDIR MM)
                  (FAILFILE WORKDIR MM) max_attempts 1 m) as F1.
    destruct (retry_loop Machine bash_c max_attempts 1 (FAILFILE WORKDIR MM)
                (PART1 WORKDIR MM) (FAILFILE WORKDIR MM) m) as [[ok1 m1] t1].
    cbn [fst snd] in F1.
    destruct F1 as [N1 [L1 [_ [K1 [A1 [_ S1]]]]]].
    pose proof (retry_loop_facts (FAILFILE WORKDIR MM) (PART2 WORKDIR)
                  (FAILFILE WORKDIR MM) max_attempts 1 m1) as F2.
    destruct (retry_loop Machine bash_c max_attempts 1 (FAILFILE WORKDIR MM)
                (PART2 WORKDIR) (FAILFILE WORKDIR MM) m1) as [[ok2 m2] t2].
    cbn [fst snd] in F2.
    destruct F2 as [N2 [L2 [_ [_ [A2 [_ S2]]]]]].
    destruct ok1; [destruct ok2|]; cbn [snd].
    + destruct (unit_trace_facts (PART1 WORKDIR MM) (PART2 WORKDIR)
                  (FAILFILE WORKDIR MM) true t1 t2
                  ([WEcho (processing_line MM)] ++ t1
                   ++ [WEcho ("Part 1 succeeded for " ++ YEAR ++ "-" ++ MM)%string]
                   ++ t2
                   ++ [WEcho ("Part 2 succeeded for " ++ YEAR ++ "-" ++ MM)%string;
                       WEcho ("Completed " ++ YEAR ++ "-" ++ MM)%string]))
        as [U1 [U2 [U3 U4]]]; try assumption.
      * discriminate.
      * intros c. rewrite !runs_of_app. cbn [runs_of app].
        rewrite app_nil_r. reflexivity.
      * rewrite !appended_to_app. cbn [appended_to app].
        rewrite app_nil_r. reflexivity.
      * repeat split; try assumption. intros _. exact U2.
    + destruct (unit_trace_facts (PART1 WORKDIR MM) (PART2 WORKDIR)
                  (FAILFILE WORKDIR MM) true t1 t2
                  ([WEcho (processing_line MM)] ++ t1
                   ++ [WEcho ("Part 1 succeeded for " ++ YEAR ++ "-" ++ MM)%string]
                   ++ t2
                   ++ [WEcho ("Part 2 failed after retries for " ++ YEAR ++ "-"
                               ++ MM ++ ". See " ++ FAILFILE WORKDIR MM)%string]))
        as [U1 [U2 [U3 U4]]]; try assumption.
      * discriminate.
      * intros c. rewrite !runs_of_app. cbn [runs_of app].
        rewrite app_nil_r. reflexivity.
      * rewrite !appended_to_app. cbn [appended_to app].
        rewrite app_nil_r. reflexivity.
      * repeat split; try assumption. intros _. exact U2.
    + destruct (unit_trace_facts (PART1 WORKDIR MM) (PART2 WORKDIR)
                  (FAILFILE WORKDIR MM) false t1 []
                  ([WEcho (processing_line MM)] ++ t1
                   ++ [WEcho ("Part 1 failed after retries for " ++ YEAR ++ "-"
                               ++ MM ++ ". See " ++ FAILFILE WORKDIR MM)%string]))
        as [U1 [U2 [U3 U4]]]; try assumption; try reflexivity.
      * cbn. lia.
      * intros c. rewrite !runs_of_app. cbn [runs_of app]. reflexivity.
      * rewrite !appended_to_app. cbn [appended_to app]. reflexivity.
      * repeat split; try assumption. intros _. exact U2.
  - cbn [snd runs_of appended_to length].
    split; [intros cmd; lia|].
    split; [discriminate|].
    split; [discriminate|].
    split; [discriminate | exact Hloop].
Qed.

End WorkflowProofs.

Lemma retry_budget_then_next_unit_witness :
  runs_of (PART2 "/srv/qlik")
    (snd (month_body nat sample_bash_c sample_is_file "/srv/qlik" "08" 2))
  = [].
Proof.
  apply (proj1 (proj2 (proj2 (proj2
           (retry_budget_then_next_unit nat sample_bash_c sample_is_file
              "/srv/qlik" "08" MONTHS 2))))).
  vm_compute. reflexivity.
Defined.

(* ================================================================= *)
(** ** More on the engine *)

Lemma insert_by_id_perm (q : Query) (l : list Query) :
  Permutation (insert_by_id q l) (q :: l).
Proof.
  induction l as [|x l IH]; simpl.
  - apply Permutation_refl.
  - destruct (invoice_line_id q <? invoice_line_id x)%Z.
    + apply Permutation_refl.
    + eapply perm_trans; [apply perm_skip; exact IH | apply perm_swap].
Qed.

Lemma insert_by_id_sorted (q : Query) (l : list Query) :
  Sorted id_le l -> Sorted id_le (insert_by_id q l).
Proof.
  induction l as [|x l IH]; intros Hs; simpl.
  - constructor; constructor.
  - destruct (invoice_line_id q <? invoice_line_id x)%Z eqn:E.
    + apply Z.ltb_lt in E. constructor; [exact Hs|].
      constructor. unfold id_le. lia.
    + apply Z.ltb_ge in E. inversion Hs as [|a b Hs' Hhd]; subst.
      constructor; [apply IH; exact Hs'|].
      destruct l as [|y l]; simpl.
      * constructor. exact E.
      * destruct (invoice_line_id q <? invoice_line_id y)%Z.
        -- constructor. exact E.
        -- constructor. inversion Hhd; subst. assumption.
Qed.

Lemma select_delta_perm (st : Store) :
  Permutation (select_delta st) (rows_with_sql (qlik_invoice_view_delta st)).
Proof.
  unfold select_delta, rows_with_sql.
  induction (qlik_invoice_view_delta st) as [|r rows IH]; simpl.
  - apply Permutation_refl.
  - destruct (query_of_row r) as [q|]; simpl; [|exact IH].
    eapply perm_trans; [apply insert_by_id_perm|].
    apply perm_skip. exact IH.
Qed.

Lemma select_delta_sorted (st : Store) : Sorted id_le (select_delta st).
Proof.
  unfold select_delta.
  induction (qlik_invoice_view_delta st) as [|r rows IH]; simpl.
  - constructor.
  - destruct (query_of_row r) as [q|]; [|exact IH].
    apply insert_by_id_sorted. exact IH.
Qed.

Lemma id_le_trans : Relations_1.Transitive id_le.
Proof. intros a b c. unfold id_le. lia. Qed.

Lemma In_rows_with_sql (rows : list DeltaRow) (q : Query) :
  In q (rows_with_sql rows) <->
  exists r,
    In r rows /\ row_mdm_sql r = Some (mdm_sql q) /\ mdm_sql q <> EmptyString /\
    row_invoice_line_id r = invoice_line_id q /\
    row_mdm_invoice_id r = mdm_invoice_id q.
Proof.
  unfold rows_with_sql. rewrite in_flat_map. split.
  - intros [r [Hr Hq]]. exists r. split; [exact Hr|].
    unfold query_of_row in Hq.
    destruct (row_mdm_sql r) as [sql|]; [|contradiction].
    destruct (String.eqb sql EmptyString) eqn:E; [contradiction|].
    destruct Hq as [Hq|[]]. subst q. simpl.
    apply String.eqb_neq in E. repeat split; auto.
  - intros [r [Hr [Hsql [Hne [Hid Hinv]]]]]. exists r. split; [exact Hr|].
    unfold query_of_row. rewrite Hsql.
    apply String.eqb_neq in Hne. rewrite Hne. left.
    destruct q; simpl in *. congruence.
Qed.

(** X1.  [fetchDeltaQueries] rethrows a failure of the store and leaves
    the state alone.  Otherwise it returns, in ascending order of
    [invoice_line_id], exactly the rows of [qlik_invoice_view_delta]
    whose [mdm_sql] is neither null nor empty, each as often as the
    table has it, with its three fields. *)
Theorem fetchDeltaQueries_sorted_snapshot (env : Env) (s : State) :
  fetchDeltaQueries env s =
    match fetch_fault env with
    | Some msg => (Throw msg, s, [])
    | None => (Ret (select_delta (store s)), s, [EFetchDelta])
    end /\
  StronglySorted id_le (select_delta (store s)) /\
  Permutation (select_delta (store s))
              (rows_with_sql (qlik_invoice_view_delta (store s))) /\
  (forall q,
     In q (select_delta (store s)) <->
     exists r,
       In r (qlik_invoice_view_delta (store s)) /\
       row_mdm_sql r = Some (mdm_sql q) /\ mdm_sql q <> EmptyString /\
       row_invoice_line_id r = invoice_line_id q /\
       row_mdm_invoice_id r = mdm_invoice_id q).
Proof.
  split; [|split; [|split]].
  - unfold fetchDeltaQueries, try_catch, bind, guarded, get_store, emit,
      throw, ret.
    destruct (fetch_fault env); reflexivity.
  - apply Sorted_StronglySorted; [exact id_le_trans | apply select_delta_sorted].
  - apply select_delta_perm.
  - intros q. rewrite <- In_rows_with_sql. split; intros H.
    + apply (Permutation_in _ (select_delta_perm (store s))). exact H.
    + apply (Permutation_in _ (Permutation_sym (select_delta_perm (store s)))).
      exact H.
Qed.

(** X2.  When a run of [execute] resolves, the statements it has sent
    are exactly the operations fetched at its start, each once, in
    ascending order of [invoice_line_id], and each has been answered. *)
Theorem execute_applies_fetched_snapshot (env : Env) (s s' : State)
    (t : list Event) :
  execute env s = (Ret tt, s', t) ->
  starts_of t = select_delta (store s) /\
  Permutation (map fst (settled_of t)) (select_delta (store s)) /\
  StronglySorted id_le (starts_of t).
Proof.
  intros H.
  assert (Hgoal : starts_of t = select_delta (store s) /\
                  Permutation (map fst (settled_of t)) (select_delta (store s))).
  { rewrite execute_unfold in H.
    destruct (authenticate_fault env); [discriminate|].
    destruct (fetch_fault env); [discriminate|].
    cbv zeta in H.
    destruct (if safeDelete (this s)
              then safeDeleteChangedInvoiceRows env s
              else (Ret (JBool true), s, [])) as [[rg s1] t1] eqn:Hg.
    destruct (guard_phase env s rg s1 t1 Hg) as [G1 [G2 _]].
    destruct rg as [v|msg|c|]; try discriminate.
    assert (P1 : forall x, starts_of (EAuthenticate :: EFetchDelta :: x)
                           = starts_of x) by reflexivity.
    assert (P2 : forall x, settled_of (EAuthenticate :: EFetchDelta :: x)
                           = settled_of x) by reflexivity.
    destruct (length (select_delta (store s)) =? 0) eqn:Hlen.
    - apply Nat.eqb_eq in Hlen. apply length_zero_iff_nil in Hlen.
      destruct (close_fault env); [discriminate|].
      injection H as <- <-.
      rewrite P1, P2, starts_of_app, settled_of_app, G1, G2, Hlen.
      split; [reflexivity | apply Permutation_refl].
    - destruct (executeAllQueries_shape env (select_delta (store s)) s1)
        as [[E F]|[E _]]; rewrite E in H; [|discriminate].
      cbv zeta in H.
      destruct (eachOfLimit_resolved CONCURRENCY_LIMIT (select_delta (store s))
                  (settles env) (failedQueries (this s1))
                  CONCURRENCY_LIMIT_positive F) as [R1 [R2 _]].
      destruct (0 <? _); [destruct (write_fault env); [discriminate|]|];
        (destruct (close_fault env); [discriminate|]);
        injection H as <- <-;
        rewrite P1, P2, !starts_of_app, !settled_of_app, G1, G2;
        cbn [app starts_of settled_of flat_map]; rewrite !app_nil_r;
        split; assumption. }
  destruct Hgoal as [H1 H2]. repeat split; try assumption.
  rewrite H1.
  apply Sorted_StronglySorted; [exact id_le_trans | apply select_delta_sorted].
Qed.

Lemma execute_applies_fetched_snapshot_witness :
  map invoice_line_id
    (starts_of (snd (execute (quiet_env sample_answers)
                             (fresh_state sample_store))))
  = [10; 20; 30]%Z.
Proof.
  assert (H : execute (quiet_env sample_answers) (fresh_state sample_store)
              = (Ret tt,
                 snd (fst (execute (quiet_env sample_answers)
                                   (fresh_state sample_store))),
                 snd (execute (quiet_env sample_answers)
                              (fresh_state sample_store))))
    by (vm_compute; reflexivity).
  rewrite (proj1 (execute_applies_fetched_snapshot _ _ _ _ H)).
  vm_compute. reflexivity.
Defined.

Lemma cli_run_unfold (argv : list jsstring) (env : Env) (s : State) :
  cli_run argv env s =
  match execute env {| this := cli_executor argv;
                       store := store s;
                       files := files s |} with
  | (Ret _, s1, t) => (Exit 0%Z, s1, EConnect :: t ++ [EExit 0%Z])
  | (Throw _, s1, t) => (Exit 1%Z, s1, EConnect :: t ++ [EExit 1%Z])
  | (Exit c, s1, t) => (Exit c, s1, EConnect :: t)
  | (Pending, s1, t) => (Pending, s1, EConnect :: t)
  end.
Proof.
  unfold cli_run, construct, try_catch, bind, emit, put_this, process_exit,
    cli_executor.
  destruct (execute env _) as [[[u|msg|c|] s1] t]; reflexivity.
Qed.

(** The store has answered fewer statements than the batch has: the
    call has not completed. *)
Lemma eachOfLimit_unanswered (L : nat) (all : list Query)
    (answers : list (nat * option string)) (f0 : list Result) :
  1 <= L ->
  length answers < length all ->
  finished (eachOfLimit L all answers f0) = None.
Proof.
  intros HL Hlt.
  assert (Hle : forall ans p,
             processedCount
               (fold_left (fun p ev => settle L (length all) ev p) ans p)
             <= processedCount p + length ans).
  { induction ans as [|ev ans IH]; intros p; simpl; [lia|].
    specialize (IH (settle L (length all) ev p)).
    destruct (inflight p) as [|q0 fl] eqn:Hfl.
    - rewrite settle_idle in * by exact Hfl. lia.
    - rewrite settle_processed in IH by (rewrite Hfl; discriminate). lia. }
  specialize (Hle answers (replenish L all (init_pool f0))).
  fold (eachOfLimit L all answers f0) in Hle.
  rewrite replenish_processed in Hle. simpl in Hle.
  destruct (eachOfLimit_stable L all f0 HL answers) as [_ _ Hfin _].
  destruct Hfin as [H|[H _]]; [exact H|].
  destruct (eachOfLimit_resolved L all answers f0 HL H) as [_ [_ [R3 _]]].
  lia.
Qed.

(** X4.  With no fault outside the statements, when the store leaves a
    statement of the batch unanswered for ever, [execute] never
    completes: it does not resolve, reject or exit, writes no summary
    and no file, and does not close the connection. *)
Theorem execute_pending_on_unanswered (env : Env) (s : State) :
  no_infrastructure_fault env ->
  length (settles env) < length (select_delta (store s)) ->
  fst (fst (execute env s)) = Pending /\
  closes_of (snd (execute env s)) = 0 /\
  summaries_of (snd (execute env s)) = [] /\
  writes_of (snd (execute env s)) = [] /\
  (forall c, ~ In (EExit c) (snd (execute env s))).
Proof.
  intros [Ha [Hf [Hsm [Hu [Hw Hc]]]]] Hlt.
  rewrite execute_unfold, Ha, Hf. cbv zeta.
  destruct (if safeDelete (this s)
            then safeDeleteChangedInvoiceRows env s
            else (Ret (JBool true), s, [])) as [[rg s1] t1] eqn:Hg.
  destruct (guard_phase env s rg s1 t1 Hg) as [_ [_ [G3 [G4 [G5 _]]]]].
  assert (Hrg : exists v, rg = Ret v /\
                          forall c, ~ In (EExit c) t1).
  { destruct (safeDelete (this s)).
    - rewrite safeDelete_cases, Hsm, Hu in Hg.
      destruct (mdm_invoice_line_to_remove_qlik (store s));
        injection Hg as <- <- <-; eexists; (split; [reflexivity|]);
        intros c H; simpl in H; intuition discriminate.
    - injection Hg as <- <- <-. eexists. split; [reflexivity|].
      intros c []. }
  destruct Hrg as [v [-> Hex]].
  destruct (length (select_delta (store s)) =? 0) eqn:Hlen.
  { apply Nat.eqb_eq in Hlen. lia. }
  destruct (executeAllQueries_shape env (select_delta (store s)) s1)
    as [[E F]|[E F]].
  - rewrite (eachOfLimit_unanswered CONCURRENCY_LIMIT _ _ _
               CONCURRENCY_LIMIT_positive Hlt) in F. discriminate F.
  - rewrite E. cbn [fst snd].
    pose proof (eachOfLimit_pool_events CONCURRENCY_LIMIT
                  (select_delta (store s)) (settles env)
                  (failedQueries (this s1))) as Hpool.
    destruct (pool_events_silent _ Hpool) as [_ [S2 [S3 [S4 _]]]].
    assert (P1 : forall x, closes_of (EAuthenticate :: EFetchDelta :: x)
                           = closes_of x) by reflexivity.
    assert (P2 : forall x, summaries_of (EAuthenticate :: EFetchDelta :: x)
                           = summaries_of x) by reflexivity.
    assert (P3 : forall x, writes_of (EAuthenticate :: EFetchDelta :: x)
                           = writes_of x) by reflexivity.
    cbn [app].
    rewrite P1, P2, P3, closes_of_app, summaries_of_app, writes_of_app,
      G3, G4, G5, S2, S3, S4.
    repeat split.
    intros c [H|[H|H]]; try discriminate H.
    apply in_app_or in H. destruct H as [H|H]; [exact (Hex c H)|].
    unfold pool_events in Hpool. rewrite Forall_forall in Hpool.
    specialize (Hpool _ H). discriminate Hpool.
Qed.

Lemma execute_pending_on_unanswered_witness :
  fst (fst (execute (quiet_env [(0, None)]) (fresh_state sample_store)))
  = Pending.
Proof.
  apply (execute_pending_on_unanswered (quiet_env [(0, None)])
           (fresh_state sample_store)).
  - repeat split.
  - vm_compute. apply le_S, le_n.
Defined.

(** X3.  A run from the entry point in the default mode ends, if it
    ends, with [process.exit(0)] or [process.exit(1)].  With no fault
    outside the statements, once every statement has been answered it
    ends with 0, whatever the answers were, so also when every operation
    failed.  It cannot end with 0 when the connection check, the fetch
    or the closing of the connection failed, or while a statement is
    unanswered. *)
Theorem cli_run_exit_status (argv : list jsstring) (env : Env) (s : State) :
  let r := fst (fst (cli_run argv env s)) in
  (r = Exit 0%Z \/ r = Exit 1%Z \/ r = Pending) /\
  (no_infrastructure_fault env ->
   length (select_delta (store s)) <= length (settles env) ->
   r = Exit 0%Z) /\
  (r = Exit 0%Z ->
   authenticate_fault env = None /\ fetch_fault env = None /\
   close_fault env = None /\
   length (select_delta (store s)) <= length (settles env)).
Proof.
  cbv zeta. rewrite cli_run_unfold.
  set (s0 := {| this := cli_executor argv; store := store s; files := files s |}).
  split; [|split].
  - destruct (execute env s0) as [[r0 s1] t0] eqn:E.
    destruct (execute_counts env s0 r0 s1 t0 E) as [_ Hc].
    destruct r0 as [u|msg|c|]; cbn [fst]; auto.
    destruct Hc as [-> _]. auto.
  - intros Hno Hlen.
    pose proof (execute_resolves env s0 Hno Hlen) as Hr.
    destruct (execute env s0) as [[r0 s1] t0]. cbn [fst] in Hr. subst r0.
    reflexivity.
  - intros Hr.
    assert (Hret : exists u, fst (fst (execute env s0)) = Ret u).
    { destruct (execute env s0) as [[r0 s1] t0] eqn:E.
      destruct (execute_counts env s0 r0 s1 t0 E) as [_ Hc].
      destruct r0 as [u|msg|c|]; cbn [fst] in *; try discriminate.
      - exists u. reflexivity.
      - destruct Hc as [-> _]. discriminate. }
    destruct Hret as [u Hret].
    rewrite execute_unfold in Hret.
    destruct (authenticate_fault env); [discriminate|].
    destruct (fetch_fault env); [discriminate|].
    cbv zeta in Hret.
    destruct (if safeDelete (this s0)
              then safeDeleteChangedInvoiceRows env s0
              else (Ret (JBool true), s0, [])) as [[rg s1] t1] eqn:Hg.
    destruct rg as [v|msg|c|]; try discriminate.
    change (store s0) with (store s) in Hret.
    destruct (length (select_delta (store s)) =? 0) eqn:Hlen.
    + apply Nat.eqb_eq in Hlen.
      destruct (close_fault env); [discriminate|].
      repeat split. lia.
    + destruct (executeAllQueries_shape env (select_delta (store s)) s1)
        as [[E F]|[E F]]; rewrite E in Hret; [|discriminate].
      cbv zeta in Hret.
      assert (Hans : length (select_delta (store s)) <= length (settles env)).
      { destruct (Nat.le_gt_cases (length (select_delta (store s)))
                    (length (settles env))) as [Hle|Hgt]; [exact Hle|].
        rewrite (eachOfLimit_unanswered CONCURRENCY_LIMIT _ _ _
                   CONCURRENCY_LIMIT_positive Hgt) in F. discriminate F. }
      destruct (0 <? _); [destruct (write_fault env); [discriminate|]|];
        (destruct (close_fault env); [discriminate|]);
        repeat split; exact Hans.
Qed.

Lemma cli_run_exit_status_witness :
  fst (fst (cli_run (sample_argv [])
              (quiet_env [(0, Some "deadlock detected");
                          (0, Some "deadlock detected");
                          (0, Some "deadlock detected")])
              (fresh_state sample_store)))
  = Exit 0%Z.
Proof.
  apply (proj1 (proj2 (cli_run_exit_status (sample_argv [])
           (quiet_env [(0, Some "deadlock detected");
                       (0, Some "deadlock detected");
                       (0, Some "deadlock detected")])
           (fresh_state sample_store)))).
  - repeat split.
  - apply le_n.
Defined.

(** X5.  However the safe-delete pass ends, it leaves the instance and
    the files as they are.  When no marker has a quote in it: if the
    pass throws, nothing has changed at all; and in any case the pass
    leaves the table of operations and the table of markers as they are
    and keeps the rows of [mdm_invoice_qlik] in place with their
    identifiers: a row the markers do not name is unchanged; a row that
    was retired stays retired; a row that has changed has the time of
    this pass as its [deleted_at], also when it was retired before. *)
Theorem safeDelete_touches_only_named_rows (env : Env) (s : State)
    (r : Outcome jsval) (s' : State) (t : list Event) :
  safeDeleteChangedInvoiceRows env s = (r, s', t) ->
  this s' = this s /\ files s' = files s /\
  (forallb quote_free (mdm_invoice_line_to_remove_qlik (store s)) = true ->
   (forall msg, r = Throw msg -> s' = s) /\
   qlik_invoice_view_delta (store s') = qlik_invoice_view_delta (store s) /\
   mdm_invoice_line_to_remove_qlik (store s')
     = mdm_invoice_line_to_remove_qlik (store s) /\
   map inv_mdm_invoice_id (mdm_invoice_qlik (store s'))
     = map inv_mdm_invoice_id (mdm_invoice_qlik (store s)) /\
   (forall i row',
      nth_error (mdm_invoice_qlik (store s')) i = Some row' ->
      exists row,
        nth_error (mdm_invoice_qlik (store s)) i = Some row /\
        (~ In (inv_mdm_invoice_id row)
              (mdm_invoice_line_to_remove_qlik (store s)) ->
         row' = row) /\
        (retired row = true -> retired row' = true) /\
        (row' <> row -> deleted_at row' = Some (update_now env)))).
Proof.
  rewrite safeDelete_cases.
  assert (Hsame : forall r0 t0,
            (r0, s, t0) = (r, s', t) ->
            this s' = this s /\ files s' = files s /\
            (forallb quote_free (mdm_invoice_line_to_remove_qlik (store s))
             = true ->
             (forall msg, r = Throw msg -> s' = s) /\
             qlik_invoice_view_delta (store s')
               = qlik_invoice_view_delta (store s) /\
             mdm_invoice_line_to_remove_qlik (store s')
               = mdm_invoice_line_to_remove_qlik (store s) /\
             map inv_mdm_invoice_id (mdm_invoice_qlik (store s'))
               = map inv_mdm_invoice_id (mdm_invoice_qlik (store s)) /\
             (forall i row',
                nth_error (mdm_invoice_qlik (store s')) i = Some row' ->
                exists row,
                  nth_error (mdm_invoice_qlik (store s)) i = Some row /\
                  (~ In (inv_mdm_invoice_id row)
                        (mdm_invoice_line_to_remove_qlik (store s)) ->
                   row' = row) /\
                  (retired row = true -> retired row' = true) /\
                  (row' <> row -> deleted_at row' = Some (update_now env))))).
  { intros r0 t0 H. injection H as _ <- _.
    repeat split; try reflexivity.
    intros i row' Hn. exists row'. repeat split; auto.
    intros Hneq. contradiction Hneq. reflexivity. }
  destruct (select_markers_fault env); [apply Hsame|].
  destruct (mdm_invoice_line_to_remove_qlik (store s)) as [|id ids] eqn:Hm;
    [apply Hsame|].
  destruct (update_fault env) as [msg|].
  - intros H. injection H as <- <- <-. cbn [this store files].
    split; [reflexivity|]. split; [reflexivity|].
    intros Hq. unfold failed_update. rewrite Hq.
    assert (Hs : {| this := this s; store := store s; files := files s |} = s)
      by (destruct s; reflexivity).
    rewrite Hs.
    split; [intros; reflexivity|]. split; [reflexivity|].
    split; [exact Hm|]. split; [reflexivity|].
    intros i row' Hn. exists row'. repeat split; auto.
    intros Hneq. contradiction Hneq. reflexivity.
  - intros H. injection H as <- <- <-. cbn [this store files].
    split; [reflexivity|]. split; [reflexivity|].
    intros Hq. rewrite (run_update_quote_free env _ _ Hq).
    cbn [fst qlik_invoice_view_delta mdm_invoice_line_to_remove_qlik
         mdm_invoice_qlik].
    split; [intros msg H; discriminate H|].
    split; [reflexivity|]. split; [exact Hm|].
    split.
    { unfold update_deleted_at. rewrite map_map. apply map_ext.
      intros row. destruct (named_in (id :: ids) row); reflexivity. }
    intros i row' Hn. unfold update_deleted_at in Hn.
    rewrite nth_error_map in Hn.
    destruct (nth_error (mdm_invoice_qlik (store s)) i) as [row|];
      [|discriminate Hn].
    cbn [option_map] in Hn.
    exists row. split; [reflexivity|].
    destruct (named_in (id :: ids) row) eqn:Hnamed; injection Hn as <-.
    + apply named_in_In in Hnamed.
      repeat split; try reflexivity. intros H. contradiction.
    + repeat split; auto. intros H. contradiction H. reflexivity.
Qed.

Lemma safeDelete_touches_only_named_rows_witness :
  nth_error
    (mdm_invoice_qlik
       (store (snd (fst (safeDeleteChangedInvoiceRows (quiet_env [])
                           (fresh_state sample_store)))))) 1
  = Some {| inv_mdm_invoice_id := "INV-C"; deleted_at := None |}.
Proof.
  destruct (safeDelete_touches_only_named_rows (quiet_env [])
              (fresh_state sample_store)
              (fst (fst (safeDeleteChangedInvoiceRows (quiet_env [])
                           (fresh_state sample_store))))
              (snd (fst (safeDeleteChangedInvoiceRows (quiet_env [])
                           (fresh_state sample_store))))
              (snd (safeDeleteChangedInvoiceRows (quiet_env [])
                      (fresh_state sample_store)))
              eq_refl)
    as [_ [_ H]].
  destruct (H eq_refl) as [_ [_ [_ [_ Hrows]]]].
  destruct (nth_error
              (mdm_invoice_qlik
                 (store (snd (fst (safeDeleteChangedInvoiceRows (quiet_env [])
                                     (fresh_state sample_store)))))) 1)
    as [row'|] eqn:Hn.
  - destruct (Hrows 1 row' Hn) as [row [Hrow [Hsame _]]].
    vm_compute in Hrow. injection Hrow as <-.
    f_equal. apply Hsame. intros [H1|[]]. discriminate H1.
  - vm_compute in Hn. discriminate Hn.
Defined.

(* ================================================================= *)
(** ** More on the monthly workflow runner *)

Section WorkflowMore.

Variable Machine : Type.
Variable bash_c : string -> Machine -> bool * string * Machine.
Variable is_file : string -> Machine -> bool.
Variable WORKDIR : string.

(** The loop of [run_cmd_with_retry] runs the command [k] times in a
    row, for some [k] between 1 and the number of attempts left, and
    stops at the first run that succeeds. *)
Lemma retry_loop_runs (FF cmd ff : string) (remaining : nat) :
  forall (attempt : nat) (m : Machine),
    1 <= remaining ->
    let res := retry_loop Machine bash_c remaining attempt FF cmd ff m in
    let ok := fst (fst res) in
    exists k,
      1 <= k <= remaining /\
      map result_of (runs_of cmd (snd res))
        = fst (bash_runs Machine bash_c k cmd m) /\
      snd (fst res) = snd (bash_runs Machine bash_c k cmd m) /\
      map status_of (runs_of cmd (snd res)) = repeat false (k - 1) ++ [ok] /\
      (fst (fst (bash_c cmd m)) = true -> k = 1) /\
      (fst (fst (bash_c cmd m)) = false -> 2 <= remaining -> 2 <= k).
Proof.
  induction remaining as [|remaining IH]; intros attempt m Hpos; [lia|].
  cbn [retry_loop].
  destruct (bash_c cmd m) as [[ok out] m1] eqn:Eb. destruct ok.
  - exists 1. cbn [fst snd runs_of bash_runs]. rewrite Eb.
    rewrite String.eqb_refl. cbn.
    split; [lia|]. split; [reflexivity|]. split; [reflexivity|].
    split; [reflexivity|]. split; [reflexivity|]. intros H. discriminate H.
  - destruct remaining as [|remaining'].
    + exists 1. cbn [retry_loop fst snd runs_of app bash_runs]. rewrite Eb.
      rewrite String.eqb_refl. cbn.
      split; [lia|]. split; [reflexivity|]. split; [reflexivity|].
      split; [reflexivity|]. split; [intros H; discriminate H | lia].
    + specialize (IH (attempt + 1) m1 ltac:(lia)).
      destruct (retry_loop Machine bash_c (S remaining') (attempt + 1) FF cmd
                  ff m1) as [[r m2] t'].
      cbn [fst snd] in IH. destruct IH as [k [Hk [H1 [H2 [H3 _]]]]].
      exists (S k). cbn [fst snd app runs_of bash_runs]. rewrite Eb.
      rewrite String.eqb_refl.
      destruct (bash_runs Machine bash_c k cmd m1) as [rest m3] eqn:Er.
      cbn [fst snd] in *. cbn [map result_of status_of fst snd].
      rewrite H1, H3, H2.
      replace (S k - 1) with (S (k - 1)) by lia. cbn [repeat app].
      split; [lia|]. split; [reflexivity|]. split; [reflexivity|].
      split; [reflexivity|]. split; [intros H; discriminate H | lia].
Qed.

(** X6.  [run_cmd_with_retry] runs the command once or twice, in a row
    on the same machine, and never again after a run that succeeded: it
    returns 0 exactly when its last run succeeded, and it has run the
    command twice exactly when the first run failed.  The attempts are
    numbered from 1, and the log file has got the framed output of each
    run that failed and nothing else, so also of a first run that
    failed before a second that succeeded. *)
Theorem run_cmd_with_retry_stops_at_first_success (FF cmd ff : string)
    (m : Machine) :
  let res := run_cmd_with_retry Machine bash_c FF cmd ff m in
  let ok := fst (fst res) in
  let runs := runs_of cmd (snd res) in
  exists k,
    1 <= k <= max_attempts /\
    map result_of runs = fst (bash_runs Machine bash_c k cmd m) /\
    snd (fst res) = snd (bash_runs Machine bash_c k cmd m) /\
    map status_of runs = repeat false (k - 1) ++ [ok] /\
    (k = max_attempts <-> fst (fst (bash_c cmd m)) = false) /\
    map attempt_of runs = seq 1 k /\
    appended_to ff (snd res) = failure_log runs /\
    (forall f, f <> ff -> appended_to f (snd res) = []).
Proof.
  cbv zeta. unfold run_cmd_with_retry.
  destruct (retry_loop_runs FF cmd ff max_attempts 1 m
              ltac:(unfold max_attempts; lia))
    as [k [Hk [H1 [H2 [H3 [H4 H5]]]]]].
  destruct (retry_loop_facts Machine bash_c FF cmd ff max_attempts 1 m)
    as [_ [_ [_ [_ [A5 [A6 A7]]]]]].
  exists k.
  split; [exact Hk|]. split; [exact H1|]. split; [exact H2|].
  split; [exact H3|]. split; [|split; [|split; [exact A5 | exact A6]]].
  - unfold max_attempts in *.
    destruct (fst (fst (bash_c cmd m))).
    + specialize (H4 eq_refl). split; intros H; [lia | discriminate H].
    + specialize (H5 eq_refl ltac:(lia)). split; intros _; [reflexivity | lia].
  - rewrite A7. f_equal.
    apply (f_equal (@length bool)) in H3.
    rewrite length_map, length_app, repeat_length in H3. cbn [length] in H3.
    lia.
Qed.

End WorkflowMore.

Lemma run_cmd_with_retry_stops_at_first_success_sample :
  appended_to "/srv/qlik/failed_months/failed_2024_09.log"
    (snd (run_cmd_with_retry nat
            (fun _ n => (1 <=? n, ("run " ++ show_nat n)%string, S n))
            "/srv/qlik/failed_months/failed_2024_09.log" "node x.js"
            "/srv/qlik/failed_months/failed_2024_09.log" 0))
  = ["---- attempt 1 output ----"; "run 0"; "---- end attempt 1 ----"] /\
  fst (fst (run_cmd_with_retry nat
              (fun _ n => (1 <=? n, ("run " ++ show_nat n)%string, S n))
              "/srv/qlik/failed_months/failed_2024_09.log" "node x.js"
              "/srv/qlik/failed_months/failed_2024_09.log" 0))
  = true.
Proof. vm_compute. split; reflexivity. Qed.

Section WorkflowReport.

Variable Machine : Type.
Variable bash_c : string -> Machine -> bool * string * Machine.
Variable is_file : string -> Machine -> bool.
Variable WORKDIR : string.

Lemma retry_loop_echoes (FF cmd ff : string) (remaining : nat) :
  forall (attempt : nat) (m : Machine) (l : string),
    In (WEcho l)
       (snd (retry_loop Machine bash_c remaining attempt FF cmd ff m)) ->
    starts_with "[" l = true \/ starts_with "Command " l = true.
Proof.
  induction remaining as [|remaining IH]; intros attempt m l; cbn [retry_loop].
  - intros [].
  - destruct (bash_c cmd m) as [[ok out] m1]. destruct ok.
    + cbn [snd]. intros [H|[H|[H|[]]]]; try discriminate H;
        injection H as <-; [left | right]; reflexivity.
    + specialize (IH (attempt + 1) m1 l).
      destruct (retry_loop Machine bash_c remaining (attempt + 1) FF cmd ff m1)
        as [[r m2] t'].
      cbn [snd] in *. cbn [app].
      intros [H|[H|[H|[H|[H|[H|H]]]]]]; try discriminate H;
        try (injection H as <-; [left | right]; reflexivity).
      * injection H as <-. left. reflexivity.
      * injection H as <-. right. reflexivity.
      * exact (IH H).
Qed.

Lemma completed_line_not_retry_echo (FF cmd ff : string) (remaining attempt : nat)
    (m : Machine) (MM : string) :
  ~ In (WEcho (completed_line MM))
       (snd (retry_loop Machine bash_c remaining attempt FF cmd ff m)).
Proof.
  intros H. apply retry_loop_echoes in H.
  destruct H as [H|H]; discriminate H.
Qed.

(** X7.  The runner prints the line that reports a unit as completed
    exactly when the invoice file of the unit was there and each of the
    two stages had a run that succeeded. *)
Theorem unit_completed_iff (MM : string) (m : Machine) :
  let t := snd (month_body Machine bash_c is_file WORKDIR MM m) in
  In (WEcho (completed_line MM)) t <->
  (is_file (INVOICE WORKDIR MM) m = true /\
   In true (map status_of (runs_of (PART1 WORKDIR MM) t)) /\
   In true (map status_of (runs_of (PART2 WORKDIR) t))).
Proof.
  cbv zeta. unfold month_body, run_cmd_with_retry.
  assert (Hne := PART1_not_PART2 WORKDIR MM).
  destruct (is_file (INVOICE WORKDIR MM) m) eqn:Hfile; cbn [negb].
  - pose proof (retry_loop_facts Machine bash_c (FAILFILE WORKDIR MM)
                  (PART1 WORKDIR MM) (FAILFILE WORKDIR MM) max_attempts 1 m)
      as F1.
    pose proof (completed_line_not_retry_echo (FAILFILE WORKDIR MM)
                  (PART1 WORKDIR MM) (FAILFILE WORKDIR MM) max_attempts 1 m MM)
      as E1.
    destruct (retry_loop Machine bash_c max_attempts 1 (FAILFILE WORKDIR MM)
                (PART1 WORKDIR MM) (FAILFILE WORKDIR MM) m) as [[ok1 m1] t1].
    cbn [fst snd] in F1, E1.
    destruct F1 as [N1 [_ [B1 [K1 _]]]].
    pose proof (retry_loop_facts Machine bash_c (FAILFILE WORKDIR MM)
                  (PART2 WORKDIR) (FAILFILE WORKDIR MM) max_attempts 1 m1)
      as F2.
    pose proof (completed_line_not_retry_echo (FAILFILE WORKDIR MM)
                  (PART2 WORKDIR) (FAILFILE WORKDIR MM) max_attempts 1 m1 MM)
      as E2.
    destruct (retry_loop Machine bash_c max_attempts 1 (FAILFILE WORKDIR MM)
                (PART2 WORKDIR) (FAILFILE WORKDIR MM) m1) as [[ok2 m2] t2].
    cbn [fst snd] in F2, E2.
    destruct F2 as [N2 [_ [B2 [K2 _]]]].
    assert (H12 : runs_of (PART1 WORKDIR MM) t2 = [])
      by (apply N2; exact Hne).
    assert (H21 : runs_of (PART2 WORKDIR) t1 = [])
      by (apply N1; apply not_eq_sym; exact Hne).
    destruct ok1; [destruct ok2|]; cbn [snd].
    + split.
      * intros _. rewrite !runs_of_app. cbn [runs_of app].
        rewrite H12, H21, !app_nil_r. cbn [app].
        repeat split; [apply K1 | apply K2]; reflexivity.
      * intros _. apply in_or_app. right. apply in_or_app. right.
        apply in_or_app. right. apply in_or_app. right.
        right. left. reflexivity.
    + split.
      * intros H. exfalso.
        apply in_app_or in H. destruct H as [[H|[]]|H]; [discriminate H|].
        apply in_app_or in H. destruct H as [H|H]; [exact (E1 H)|].
        apply in_app_or in H. destruct H as [[H|[]]|H]; [discriminate H|].
        apply in_app_or in H. destruct H as [H|H]; [exact (E2 H)|].
        destruct H as [H|[]]. discriminate H.
      * intros [_ [_ H]]. exfalso.
        rewrite !runs_of_app in H. cbn [runs_of app] in H.
        rewrite H21, app_nil_r in H. cbn [app] in H.
        rewrite (B2 eq_refl) in H.
        exact (repeat_false_no_true _ H).
    + split.
      * intros H. exfalso.
        apply in_app_or in H. destruct H as [[H|[]]|H]; [discriminate H|].
        apply in_app_or in H. destruct H as [H|H]; [exact (E1 H)|].
        destruct H as [H|[]]. discriminate H.
      * intros [_ [H _]]. exfalso.
        rewrite !runs_of_app in H. cbn [runs_of app] in H.
        rewrite app_nil_r in H.
        rewrite (B1 eq_refl) in H.
        exact (repeat_false_no_true _ H).
  - cbn [snd]. split.
    + intros [H|[H|[H|[H|[]]]]]; discriminate H.
    + intros [H _]. discriminate H.
Qed.

End WorkflowReport.

(* ================================================================= *)
(** ** The file loader: objects *)

Lemma jsstring_eqb_eq (a b : jsstring) : jsstring_eqb a b = true <-> a = b.
Proof.
  revert b. induction a as [|x a IH]; intros [|y b]; simpl;
    try (split; [discriminate | discriminate]); [tauto|].
  rewrite andb_true_iff, N.eqb_eq, IH. split.
  - intros [-> ->]. reflexivity.
  - intros H. injection H as -> ->. split; reflexivity.
Qed.

Lemma jsstring_eqb_refl (a : jsstring) : jsstring_eqb a a = true.
Proof. apply jsstring_eqb_eq. reflexivity. Qed.

Lemma jsstring_eqb_sym (a b : jsstring) : jsstring_eqb a b = jsstring_eqb b a.
Proof.
  destruct (jsstring_eqb a b) eqn:E1; destruct (jsstring_eqb b a) eqn:E2;
    try reflexivity.
  - apply jsstring_eqb_eq in E1. subst. rewrite jsstring_eqb_refl in E2.
    discriminate.
  - apply jsstring_eqb_eq in E2. subst. rewrite jsstring_eqb_refl in E1.
    discriminate.
Qed.

Lemma obj_has_get {V} (k : jsstring) (o : JsObject V) :
  obj_has k o = false <-> obj_get k o = None.
Proof.
  induction o as [|[k' v'] o IH]; simpl; [tauto|].
  destruct (jsstring_eqb k' k); simpl; [split; discriminate | exact IH].
Qed.

Lemma obj_has_keys {V} (k : jsstring) (o : JsObject V) :
  obj_has k o = true <-> In k (obj_keys o).
Proof.
  unfold obj_has, obj_keys. rewrite existsb_exists, in_map_iff. split.
  - intros [kv [Hin He]]. apply jsstring_eqb_eq in He. exists kv. auto.
  - intros [kv [He Hin]]. exists kv. split; [exact Hin|].
    apply jsstring_eqb_eq. exact He.
Qed.

Lemma obj_get_replace {V} (k k' : jsstring) (v : V) (o : JsObject V) :
  obj_has k o = true ->
  obj_get k' (obj_replace k v o)
  = if jsstring_eqb k k' then Some v else obj_get k' o.
Proof.
  induction o as [|[k1 v1] o IH]; simpl; [discriminate|].
  destruct (jsstring_eqb k1 k) eqn:E1; simpl.
  - intros _. apply jsstring_eqb_eq in E1. subst k1.
    destruct (jsstring_eqb k k'); reflexivity.
  - intros H. rewrite (IH H).
    destruct (jsstring_eqb k1 k') eqn:E2; [|reflexivity].
    destruct (jsstring_eqb k k') eqn:E3; [|reflexivity].
    apply jsstring_eqb_eq in E2, E3. subst.
    rewrite jsstring_eqb_refl in E1. discriminate.
Qed.

Lemma obj_get_insert_index {V} (n : N) (k k' : jsstring) (v : V)
    (o : JsObject V) :
  obj_has k o = false ->
  obj_get k' (obj_insert_index n k v o)
  = if jsstring_eqb k k' then Some v else obj_get k' o.
Proof.
  induction o as [|[k1 v1] o IH]; simpl; [reflexivity|].
  destruct (jsstring_eqb k1 k) eqn:E1; simpl; [discriminate|].
  intros H.
  destruct (arrayIndex k1) as [n'|]; [destruct (n <? n')%N|]; simpl;
    try reflexivity.
  rewrite (IH H).
  destruct (jsstring_eqb k1 k') eqn:E2; [|reflexivity].
  destruct (jsstring_eqb k k') eqn:E3; [|reflexivity].
  apply jsstring_eqb_eq in E2, E3. subst.
  rewrite jsstring_eqb_refl in E1. discriminate.
Qed.

Lemma obj_get_app {V} (k : jsstring) (o o' : JsObject V) :
  obj_get k (o ++ o')
  = match obj_get k o with
    | Some v => Some v
    | None => obj_get k o'
    end.
Proof.
  induction o as [|[k1 v1] o IH]; simpl; [reflexivity|].
  destruct (jsstring_eqb k1 k); [reflexivity | exact IH].
Qed.

(** Reading a property after an assignment. *)
Lemma obj_get_set {V} (k k' : jsstring) (v : V) (o : JsObject V) :
  obj_get k' (obj_set k v o)
  = if jsstring_eqb k k' then Some v else obj_get k' o.
Proof.
  unfold obj_set. destruct (obj_has k o) eqn:Hhas.
  - apply obj_get_replace. exact Hhas.
  - destruct (arrayIndex k) as [n|].
    + apply obj_get_insert_index. exact Hhas.
    + rewrite obj_get_app. simpl.
      destruct (jsstring_eqb k k') eqn:E.
      * apply jsstring_eqb_eq in E. subst k'.
        apply obj_has_get in Hhas. rewrite Hhas. reflexivity.
      * destruct (obj_get k' o); reflexivity.
Qed.

Lemma obj_keys_replace {V} (k : jsstring) (v : V) (o : JsObject V) :
  obj_keys (obj_replace k v o) = obj_keys o.
Proof.
  unfold obj_keys. induction o as [|[k1 v1] o IH]; simpl; [reflexivity|].
  destruct (jsstring_eqb k1 k); simpl; [reflexivity | rewrite IH; reflexivity].
Qed.

Lemma obj_keys_insert_index {V} (n : N) (k : jsstring) (v : V) (o : JsObject V) :
  Permutation (obj_keys (obj_insert_index n k v o)) (k :: obj_keys o).
Proof.
  unfold obj_keys. induction o as [|[k1 v1] o IH]; simpl.
  - apply Permutation_refl.
  - destruct (arrayIndex k1) as [n'|]; [destruct (n <? n')%N|]; simpl;
      try apply Permutation_refl.
    eapply perm_trans; [apply perm_skip; exact IH | apply perm_swap].
Qed.

(** An assignment keeps the keys of an object distinct. *)
Lemma obj_set_NoDup {V} (k : jsstring) (v : V) (o : JsObject V) :
  NoDup (obj_keys o) -> NoDup (obj_keys (obj_set k v o)).
Proof.
  intros Hnd. unfold obj_set. destruct (obj_has k o) eqn:Hhas.
  - rewrite obj_keys_replace. exact Hnd.
  - assert (Hnin : ~ In k (obj_keys o)).
    { intros Hin. apply obj_has_keys in Hin. congruence. }
    destruct (arrayIndex k) as [n|].
    + apply (Permutation_NoDup
               (Permutation_sym (obj_keys_insert_index n k v o))).
      constructor; assumption.
    + unfold obj_keys. rewrite map_app. simpl.
      apply (Permutation_NoDup (Permutation_cons_append _ _)).
      constructor; assumption.
Qed.

(* ================================================================= *)
(** ** The file loader: [cleanData] *)

Section FileLoaderProofs.

Variable toLowerCase : jsstring -> jsstring.
Variable V : Type.

Lemma clean_row_flag (batchid : V) (row : JsObject V) :
  forall newRow,
    snd (clean_row toLowerCase V batchid row newRow)
    = has_undefined toLowerCase V row.
Proof.
  induction row as [|[key value] rest IH]; intros newRow; simpl.
  - reflexivity.
  - destruct (jsstring_eqb (cleanHeader toLowerCase key) (js "undefined"));
      simpl; [reflexivity | apply IH].
Qed.

(** The two lists of [cleanData], as two filters of the rows. *)
Lemma cleanData_filter (rawRows : list (JsObject V)) (batchid : V) :
  snd (cleanData toLowerCase V rawRows batchid)
    = filter (has_undefined toLowerCase V) rawRows /\
  fst (cleanData toLowerCase V rawRows batchid)
    = map (fun row => fst (clean_row toLowerCase V batchid row []))
          (filter (fun row => negb (has_undefined toLowerCase V row)) rawRows).
Proof.
  induction rawRows as [|row rest IH]; cbn [cleanData filter map];
    [split; reflexivity|].
  pose proof (clean_row_flag batchid row []) as Hflag.
  destruct (clean_row toLowerCase V batchid row []) as [newRow flag] eqn:Ec.
  cbn [snd fst] in Hflag |- *. subst flag.
  destruct (cleanData toLowerCase V rest batchid) as [cleaned faults].
  cbn [fst snd] in IH. destruct IH as [IH1 IH2].
  destruct (has_undefined toLowerCase V row); cbn [negb fst snd map];
    rewrite ?Ec; cbn [fst]; split; congruence.
Qed.

Lemma cleanData_lengths (rawRows : list (JsObject V)) (batchid : V) :
  length (fst (cleanData toLowerCase V rawRows batchid))
  + length (snd (cleanData toLowerCase V rawRows batchid))
  = length rawRows.
Proof.
  destruct (cleanData_filter rawRows batchid) as [H1 H2].
  rewrite H1, H2, length_map. clear H1 H2.
  induction rawRows as [|row rest IH]; cbn [filter length]; [reflexivity|].
  destruct (has_undefined toLowerCase V row); cbn [negb length]; lia.
Qed.

(** X8.  [cleanData] puts every row in exactly one of its two lists and
    keeps the order of the rows in each: [faults] holds, unchanged, the
    rows that have a header cleaned to [undefined] (an empty header is
    one), and [cleaned] holds the object built from each other row.  So
    the two lengths add up to the number of rows. *)
Theorem cleanData_partition (rawRows : list (JsObject V)) (batchid : V) :
  snd (cleanData toLowerCase V rawRows batchid)
    = filter (has_undefined toLowerCase V) rawRows /\
  fst (cleanData toLowerCase V rawRows batchid)
    = map (fun row => fst (clean_row toLowerCase V batchid row []))
          (filter (fun row => negb (has_undefined toLowerCase V row)) rawRows) /\
  length (fst (cleanData toLowerCase V rawRows batchid))
  + length (snd (cleanData toLowerCase V rawRows batchid))
  = length rawRows /\
  (forall row, In (@nil N) (obj_keys row) ->
               has_undefined toLowerCase V row = true).
Proof.
  destruct (cleanData_filter rawRows batchid) as [H1 H2].
  split; [exact H1|]. split; [exact H2|]. split.
  - apply cleanData_lengths.
  - intros row Hin. unfold has_undefined. apply existsb_exists.
    unfold obj_keys in Hin. apply in_map_iff in Hin.
    destruct Hin as [[k v] [Hk Hin]]. simpl in Hk. subst k.
    exists ([], v). split; [exact Hin | reflexivity].
Qed.

Lemma has_undefined_cons (key : jsstring) (value : V) (rest : JsObject V) :
  has_undefined toLowerCase V ((key, value) :: rest) = false ->
  jsstring_eqb (cleanHeader toLowerCase key) (js "undefined") = false /\
  has_undefined toLowerCase V rest = false.
Proof.
  unfold has_undefined. simpl. intros H. apply orb_false_iff in H. exact H.
Qed.

(** What the inner loop of [cleanData] leaves in the object, from any
    object [newRow] with distinct keys. *)
Lemma clean_row_lookup (batchid : V) (row : JsObject V) :
  forall newRow,
    has_undefined toLowerCase V row = false ->
    NoDup (obj_keys newRow) ->
    let o := fst (clean_row toLowerCase V batchid row newRow) in
    NoDup (obj_keys o) /\
    forall ck,
      obj_get ck o
      = if jsstring_eqb ck (js "batchid")
        then match row with
             | [] => obj_get ck newRow
             | _ :: _ => Some batchid
             end
        else if jsstring_eqb ck (js "__proto__") then obj_get ck newRow
        else match last_value toLowerCase V ck row with
             | Some v => Some v
             | None => obj_get ck newRow
             end.
Proof.
  induction row as [|[key value] rest IH]; intros newRow Hu Hnd.
  - simpl. split; [exact Hnd|]. intros ck.
    destruct (jsstring_eqb ck (js "batchid")); [reflexivity|].
    destruct (jsstring_eqb ck (js "__proto__")); reflexivity.
  - apply has_undefined_cons in Hu. destruct Hu as [Hk Hrest].
    cbn [clean_row]. rewrite Hk.
    set (acc := obj_set (js "batchid") batchid
                  (obj_assign (cleanHeader toLowerCase key) value newRow)).
    assert (Hnd' : NoDup (obj_keys acc)).
    { unfold acc. apply obj_set_NoDup. unfold obj_assign.
      destruct (jsstring_eqb (cleanHeader toLowerCase key) (js "__proto__"));
        [exact Hnd | apply obj_set_NoDup; exact Hnd]. }
    destruct (IH acc Hrest Hnd') as [I1 I2].
    split; [exact I1|]. intros ck. rewrite I2.
    assert (Hacc : obj_get ck acc
                   = if jsstring_eqb (js "batchid") ck then Some batchid
                     else if jsstring_eqb (cleanHeader toLowerCase key)
                                          (js "__proto__")
                          then obj_get ck newRow
                          else if jsstring_eqb (cleanHeader toLowerCase key) ck
                               then Some value
                               else obj_get ck newRow).
    { unfold acc. rewrite obj_get_set.
      destruct (jsstring_eqb (js "batchid") ck); [reflexivity|].
      unfold obj_assign.
      destruct (jsstring_eqb (cleanHeader toLowerCase key) (js "__proto__"));
        [reflexivity | apply obj_get_set]. }
    rewrite (jsstring_eqb_sym (js "batchid") ck) in Hacc.
    destruct (jsstring_eqb ck (js "batchid")) eqn:Eb.
    + destruct rest; [exact Hacc | reflexivity].
    + destruct (jsstring_eqb ck (js "__proto__")) eqn:Ep.
      * rewrite Hacc.
        destruct (jsstring_eqb (cleanHeader toLowerCase key) (js "__proto__"))
          eqn:Ekp; [reflexivity|].
        destruct (jsstring_eqb (cleanHeader toLowerCase key) ck) eqn:Ekc;
          [|reflexivity].
        apply jsstring_eqb_eq in Ep, Ekc.
        rewrite Ekc, Ep, jsstring_eqb_refl in Ekp. discriminate.
      * cbn [last_value].
        destruct (last_value toLowerCase V ck rest); [reflexivity|].
        rewrite Hacc.
        destruct (jsstring_eqb (cleanHeader toLowerCase key) ck) eqn:Ekc.
        -- destruct (jsstring_eqb (cleanHeader toLowerCase key)
                                  (js "__proto__")) eqn:Ekp; [|reflexivity].
           apply jsstring_eqb_eq in Ekp, Ekc.
           rewrite <- Ekc, Ekp, jsstring_eqb_refl in Ep. discriminate.
        -- destruct (jsstring_eqb (cleanHeader toLowerCase key)
                                  (js "__proto__")); reflexivity.
Qed.

(** X9.  The object [cleanData] builds from a row that is not faulty
    has distinct keys, and none of them is [undefined].  Its property
    [batchid] is the batch identifier whenever the row has a property at
    all, also when a header of the row is cleaned to [batchid]; an empty
    row gives an empty object, with no [batchid].  Any other property
    (but [__proto__], which is never created) holds the value of the
    last column whose header is cleaned to its key: columns whose
    headers are cleaned to the same key collide, and the last one
    wins. *)
Theorem cleaned_object_lookup (batchid : V) (row : JsObject V) :
  has_undefined toLowerCase V row = false ->
  let o := fst (clean_row toLowerCase V batchid row []) in
  NoDup (obj_keys o) /\
  ~ In (js "undefined") (obj_keys o) /\
  (row = [] -> o = []) /\
  (row <> [] -> obj_get (js "batchid") o = Some batchid) /\
  (forall ck,
     ck <> js "batchid" ->
     obj_get ck o = if jsstring_eqb ck (js "__proto__") then None
                    else last_value toLowerCase V ck row).
Proof.
  intros Hu o.
  destruct (clean_row_lookup batchid row [] Hu (NoDup_nil _)) as [Hnd Hget].
  fold o in Hnd, Hget.
  assert (Hlast : forall r, has_undefined toLowerCase V r = false ->
                            last_value toLowerCase V (js "undefined") r = None).
  { induction r as [|[key value] rest IH]; intros H; [reflexivity|].
    apply has_undefined_cons in H. destruct H as [Hk Hrest].
    cbn [last_value]. rewrite (IH Hrest), Hk. reflexivity. }
  split; [exact Hnd|]. split; [|split; [|split]].
  - intros Hin. apply obj_has_keys in Hin.
    assert (Hnone : obj_get (js "undefined") o = None).
    { rewrite Hget.
      change (jsstring_eqb (js "undefined") (js "batchid")) with false.
      change (jsstring_eqb (js "undefined") (js "__proto__")) with false.
      cbv iota. rewrite (Hlast row Hu). reflexivity. }
    apply obj_has_get in Hnone. congruence.
  - intros ->. reflexivity.
  - intros Hne. rewrite Hget, jsstring_eqb_refl.
    destruct row; [contradiction | reflexivity].
  - intros ck Hck. rewrite Hget.
    destruct (jsstring_eqb ck (js "batchid")) eqn:E.
    + apply jsstring_eqb_eq in E. contradiction.
    + destruct (jsstring_eqb ck (js "__proto__")); [reflexivity|].
      destruct (last_value toLowerCase V ck row); reflexivity.
Qed.

End FileLoaderProofs.

Lemma cleaned_object_lookup_witness :
  obj_get (js "batchid")
    (fst (clean_row (fun s => s) string "202409302315"
            [(js "Amount %", "12"); (js "BatchId", "7"); (js "amount", "13")]
            []))
  = Some "202409302315".
Proof.
  apply (proj1 (proj2 (proj2 (proj2
           (cleaned_object_lookup (fun s => s) string "202409302315"
              [(js "Amount %", "12"); (js "BatchId", "7"); (js "amount", "13")]
              eq_refl))))).
  discriminate.
Defined.

Lemma cleanData_partition_witness :
  has_undefined (fun s => s) string [(js "id", "2"); ([], "x")] = true.
Proof.
  apply (proj2 (proj2 (proj2
           (cleanData_partition (fun s => s) string [] "B")))).
  right. left. reflexivity.
Defined.

Example cleanData_partition_sample :
  cleanData (fun s => s) string
    [ [(js "id", "1"); (js "%Rate", "5")];
      [(js "id", "2"); ([], "x")];
      [(js "id", "3"); (js "---rate ", "6")] ]
    "B"
  = ( [ [(js "id", "1"); (js "batchid", "B"); (js "Rate", "5")];
        [(js "id", "3"); (js "batchid", "B"); (js "rate", "6")] ],
      [ [(js "id", "2"); ([], "x")] ] ).
Proof. vm_compute. reflexivity. Qed.

(* ================================================================= *)
(** ** The file loader: chunks *)

Lemma chunk_loop_done {A} (size fuel i : nat) (l : list A) :
  length l <= i -> chunk_loop size fuel i l = [].
Proof.
  intros H. destruct fuel as [|fuel]; simpl; [reflexivity|].
  destruct (i <? length l) eqn:E; [|reflexivity].
  apply Nat.ltb_lt in E. lia.
Qed.

Lemma chunk_loop_spec {A} (size : nat) (l : list A) :
  1 <= size ->
  forall fuel i,
    i <= length l ->
    length l - i <= fuel ->
    concat (chunk_loop size fuel i l) = skipn i l /\
    Forall (fun c => 1 <= length c <= size) (chunk_loop size fuel i l) /\
    length (chunk_loop size fuel i l) = (length l - i + (size - 1)) / size.
Proof.
  intros Hs. induction fuel as [|fuel IH]; intros i Hi Hf.
  - assert (i = length l) by lia. subst i. simpl.
    rewrite skipn_all. rewrite Nat.sub_diag. simpl.
    rewrite Nat.div_small by lia. repeat split. constructor.
  - cbn [chunk_loop].
    destruct (i <? length l) eqn:E.
    + apply Nat.ltb_lt in E. unfold slice.
      replace (i + size - i) with size by lia.
      destruct (Nat.le_gt_cases (i + size) (length l)) as [Hle|Hgt].
      * destruct (IH (i + size) Hle ltac:(lia)) as [I1 [I2 I3]].
        cbn [concat length]. rewrite I1, I3.
        split; [|split].
        -- rewrite (Nat.add_comm i size), <- skipn_skipn.
           apply firstn_skipn.
        -- constructor; [|exact I2].
           rewrite length_firstn, length_skipn. lia.
        -- replace (length l - i + (size - 1))
             with (length l - (i + size) + (size - 1) + 1 * size) by lia.
           rewrite Nat.div_add by lia. lia.
      * rewrite chunk_loop_done by lia. cbn [concat length].
        rewrite app_nil_r.
        split; [|split].
        -- apply firstn_all2. rewrite length_skipn. lia.
        -- constructor; [|constructor].
           rewrite length_firstn, length_skipn. lia.
        -- apply (Nat.div_unique _ _ 1 (length l - i - 1)); lia.
    + apply Nat.ltb_ge in E. assert (i = length l) by lia. subst i.
      simpl. rewrite skipn_all, Nat.sub_diag. simpl.
      rewrite Nat.div_small by lia. repeat split. constructor.
Qed.

(** X10.  The chunks the loader hands to [bulkCreate], one after the
    other, put together again give the cleaned rows, each once and in
    order.  No chunk is empty and none has more than 500 rows, and for
    [n] rows there are [n / 500] chunks, rounded up; so with no row
    there is no chunk. *)
Theorem chunks_cover_the_rows {A} (cleaned : list A) :
  concat (chunks cleaned) = cleaned /\
  Forall (fun c => 1 <= length c <= CHUNK_SIZE) (chunks cleaned) /\
  length (chunks cleaned)
  = (length cleaned + (CHUNK_SIZE - 1)) / CHUNK_SIZE /\
  CHUNK_SIZE = 500.
Proof.
  assert (Hs : 1 <= CHUNK_SIZE) by (unfold CHUNK_SIZE; lia).
  destruct (chunk_loop_spec CHUNK_SIZE cleaned Hs (length cleaned) 0
              ltac:(lia) ltac:(lia)) as [H1 [H2 H3]].
  unfold chunks. rewrite Nat.sub_0_r in H3.
  repeat split; assumption.
Qed.

Example chunks_sample :
  map (@length nat) (chunks (seq 0 1203)) = [500; 500; 203] /\
  map (@length nat) (chunks (seq 0 1000)) = [500; 500] /\
  chunks (@nil nat) = [].
Proof. vm_compute. repeat split. Qed.

(* ================================================================= *)
(** ** The file loader: [processFile] *)

Section FileProcessorProofs.

Variable toLowerCase : jsstring -> jsstring.
Variable V : Type.
Variable of_jsstring : jsstring -> V.
Variable extname : jsstring -> jsstring.
Variable path_join : jsstring -> jsstring -> jsstring.

Lemma inserted_of_app (t u : list (LoadEvent V)) :
  inserted_of (t ++ u) = inserted_of t ++ inserted_of u.
Proof. unfold inserted_of. apply flat_map_app. Qed.

Lemma fault_files_of_app (t u : list (LoadEvent V)) :
  fault_files_of (t ++ u) = fault_files_of t ++ fault_files_of u.
Proof. unfold fault_files_of. apply flat_map_app. Qed.

Lemma closings_of_app (t u : list (LoadEvent V)) :
  closings_of (t ++ u) = closings_of t ++ closings_of u.
Proof. unfold closings_of. apply flat_map_app. Qed.

(** The loop over the chunks inserts the chunks in order and stops at
    the first call that fails; what it has inserted stays. *)
Lemma bulk_loop_prefix (env : LoadEnv V) (cs : list (list (JsObject V))) :
  forall k,
    let r := fst (bulk_loop V env k cs) in
    let t := snd (bulk_loop V env k cs) in
    closings_of t = [] /\ fault_files_of t = [] /\
    connected_in t = false /\
    (exists rest, inserted_of t ++ rest = cs /\ (r = None -> rest = [])) /\
    (r = None <-> forall j, j < length cs -> bulk_fault env (k + j) = None).
Proof.
  induction cs as [|c cs IH]; intros k; cbn [bulk_loop].
  - cbn. repeat split; try reflexivity.
    + exists []. split; reflexivity.
    + intros j Hj. lia.
  - destruct (bulk_fault env k) as [msg|] eqn:Ek.
    + cbn. repeat split; try reflexivity.
      * exists (c :: cs). split; [reflexivity | discriminate].
      * discriminate.
      * intros H. specialize (H 0 ltac:(cbn [length]; lia)).
        rewrite Nat.add_0_r, Ek in H. discriminate H.
    + specialize (IH (S k)).
      destruct (bulk_loop V env (S k) cs) as [r t].
      cbn [fst snd] in *.
      destruct IH as [I1 [I2 [I3 [[rest [I4 I5]] I6]]]].
      split; [exact I1|]. split; [exact I2|]. split; [exact I3|]. split.
      * exists rest. split; [|exact I5].
        change (inserted_of (LBulkCreate c :: t)) with (c :: inserted_of t).
        cbn [app]. rewrite I4. reflexivity.
      * rewrite I6. split.
        -- intros H j Hj. cbn [length] in Hj. destruct j as [|j].
           ++ rewrite Nat.add_0_r. exact Ek.
           ++ replace (k + S j) with (S k + j) by lia. apply H. lia.
        -- intros H j Hj. replace (S k + j) with (k + S j) by lia.
           apply H. cbn [length]. lia.
Qed.

(** X11.  When [processFile] returns, the counts it reports add up to
    the number of rows read, and at least one row was clean.  The chunks
    it has inserted are the clean rows, each row once and in order, 500
    at most in a chunk.  It has written the file of faulty rows, with
    all of them, exactly when there is one, and reports its path then
    and [null] otherwise.  It has closed the connection once, as its
    last step. *)
Theorem processFile_success (env : LoadEnv V) (sequelize0 : bool)
    (filePath tableName : jsstring) (res : LoadResult) (sequelize : bool)
    (t : list (LoadEvent V)) :
  processFile toLowerCase V of_jsstring extname path_join env sequelize0
              filePath tableName = (inl res, sequelize, t) ->
  exists rawData,
    read_result env = inl rawData /\
    let cleaned := fst (cleanData toLowerCase V rawData
                                  (of_jsstring (now_batchid env))) in
    let faults := snd (cleanData toLowerCase V rawData
                                 (of_jsstring (now_batchid env))) in
    processedRows res = length cleaned /\
    faultyRows res = length faults /\
    processedRows res + faultyRows res = length rawData /\
    1 <= processedRows res /\
    concat (inserted_of t) = cleaned /\
    Forall (fun c => 1 <= length c <= CHUNK_SIZE) (inserted_of t) /\
    fault_files_of t
      = match faults with
        | [] => []
        | _ :: _ => [(fault_path V path_join env tableName, faults)]
        end /\
    faultFilePath res
      = match faults with
        | [] => None
        | _ :: _ => Some (fault_path V path_join env tableName)
        end /\
    columnNames res = obj_keys (hd [] cleaned) /\
    closings_of t = [true] /\
    last t LConnect = LClose true /\
    sequelize = true.
Proof.
  unfold processFile, load_catch. cbv zeta.
  destruct (negb _).
  { destruct sequelize0; [destruct (close_fault_at env 0)|]; discriminate. }
  destruct (read_result env) as [rawData|msg].
  2:{ destruct sequelize0; [destruct (close_fault_at env 0)|]; discriminate. }
  destruct (length rawData =? 0).
  { destruct sequelize0; [destruct (close_fault_at env 0)|]; discriminate. }
  pose proof (cleanData_lengths toLowerCase V rawData
                (of_jsstring (now_batchid env))) as Hlen.
  destruct (cleanData toLowerCase V rawData (of_jsstring (now_batchid env)))
    as [cleaned faults] eqn:Ecd.
  cbn [fst snd] in Hlen.
  destruct (connect_fault env).
  { destruct sequelize0; [destruct (close_fault_at env 0)|]; discriminate. }
  destruct cleaned as [|first cleaned'].
  { destruct (close_fault_at env 0); discriminate. }
  destruct (model_fault env).
  { destruct (close_fault_at env 0); discriminate. }
  pose proof (bulk_loop_prefix env (chunks (first :: cleaned')) 0) as Hb.
  destruct (bulk_loop V env 0 (chunks (first :: cleaned'))) as [rb tb].
  cbn [fst snd] in Hb.
  destruct Hb as [B1 [B2 [_ [[rest [B4 B5]] _]]]].
  destruct rb as [msg|].
  { destruct (close_fault_at env 0); discriminate. }
  specialize (B5 eq_refl). subst rest. rewrite app_nil_r in B4.
  assert (Hs : 1 <= CHUNK_SIZE) by (unfold CHUNK_SIZE; lia).
  destruct (chunk_loop_spec CHUNK_SIZE (first :: cleaned') Hs
              (length (first :: cleaned')) 0 ltac:(lia) ltac:(lia))
    as [C1 [C2 _]].
  fold (chunks (first :: cleaned')) in C1, C2. cbn [skipn] in C1.
  intros H. exists rawData. split; [reflexivity|]. rewrite Ecd. cbn [fst snd].
  assert (P1 : forall a b c d x,
             inserted_of (@LRead V a b :: LConnect :: LModel c d :: x)
             = inserted_of x) by reflexivity.
  assert (P2 : forall a b c d x,
             fault_files_of (@LRead V a b :: LConnect :: LModel c d :: x)
             = fault_files_of x) by reflexivity.
  assert (P3 : forall a b c d x,
             closings_of (@LRead V a b :: LConnect :: LModel c d :: x)
             = closings_of x) by reflexivity.
  assert (P4 : forall a b c d x ok,
             last (@LRead V a b :: LConnect :: LModel c d :: x ++ [LClose ok])
                  LConnect = LClose ok).
  { intros a b c d x ok.
    change (@LRead V a b :: LConnect :: LModel c d :: x ++ [LClose ok])
      with (([@LRead V a b; LConnect; LModel c d] ++ x) ++ [LClose ok]).
    apply last_last. }
  destruct faults as [|f faults']; cbn [length Nat.ltb Nat.leb] in H.
  - destruct (close_fault_at env 0) as [msg|] eqn:Ec.
    { destruct (close_fault_at env 1); discriminate. }
    injection H as <- <- <-. cbn [processedRows faultyRows faultFilePath
      columnNames hd app].
    rewrite P1, P2, P3, P4, !inserted_of_app, !fault_files_of_app,
      !closings_of_app, B1, B2, B4.
    cbn [inserted_of fault_files_of closings_of flat_map app].
    rewrite app_nil_r.
    repeat split; try assumption; try reflexivity; try (cbn [length]; lia).
  - destruct (faults_write_fault env).
    { destruct (close_fault_at env 0); discriminate. }
    destruct (close_fault_at env 0) as [msg|] eqn:Ec.
    { destruct (close_fault_at env 1); discriminate. }
    injection H as <- <- <-. cbn [processedRows faultyRows faultFilePath
      columnNames hd app].
    assert (P5 : forall a b c d x p f ok,
               last (@LRead V a b :: LConnect :: LModel c d
                     :: x ++ LWriteFaults p f :: [LClose ok])
                    LConnect = LClose ok).
    { intros a b c d x p f0 ok.
      replace (x ++ LWriteFaults p f0 :: [LClose ok])
        with ((x ++ [LWriteFaults p f0]) ++ [LClose ok])
        by (rewrite <- app_assoc; reflexivity).
      change (@LRead V a b :: LConnect :: LModel c d
              :: (x ++ [LWriteFaults p f0]) ++ [LClose ok])
        with (([@LRead V a b; LConnect; LModel c d]
               ++ (x ++ [LWriteFaults p f0])) ++ [LClose ok]).
      apply last_last. }
    rewrite P1, P2, P3, P5, !inserted_of_app, !fault_files_of_app,
      !closings_of_app, B1, B2, B4.
    cbn [inserted_of fault_files_of closings_of flat_map app].
    rewrite ?app_nil_r.
    repeat split; try assumption; try reflexivity; try (cbn [length]; lia).
Qed.

(** X12.  When every row read has a header cleaned to [undefined], so
    that no row is clean, [processFile] connects and then throws the
    [TypeError] of [Object.keys(undefined)]: it inserts nothing, it
    does not write the file of faulty rows, and it closes the
    connection. *)
Theorem processFile_all_rows_faulty (env : LoadEnv V) (sequelize0 : bool)
    (filePath tableName : jsstring) (rawData : list (JsObject V)) :
  jsstring_eqb (toLowerCase (extname filePath)) (js ".csv")
  || jsstring_eqb (toLowerCase (extname filePath)) (js ".xlsx") = true ->
  read_result env = inl rawData ->
  rawData <> [] ->
  forallb (has_undefined toLowerCase V) rawData = true ->
  connect_fault env = None ->
  close_fault_at env 0 = None ->
  processFile toLowerCase V of_jsstring extname path_join env sequelize0
              filePath tableName
  = (inr KeysOfUndefined, true,
     [LRead filePath (toLowerCase (extname filePath)); LConnect; LClose true]).
Proof.
  intros Hext Hread Hne Hall Hconn Hclose.
  unfold processFile, load_catch. cbv zeta.
  rewrite Hext, Hread. cbn [negb].
  destruct (length rawData =? 0) eqn:Hlen.
  { apply Nat.eqb_eq, length_zero_iff_nil in Hlen. contradiction. }
  pose proof (cleanData_filter toLowerCase V rawData
                (of_jsstring (now_batchid env))) as [_ Hc].
  destruct (cleanData toLowerCase V rawData (of_jsstring (now_batchid env)))
    as [cleaned faults].
  cbn [fst] in Hc.
  assert (Hnil : filter (fun row => negb (has_undefined toLowerCase V row))
                        rawData = []).
  { clear -Hall. induction rawData as [|row rest IH]; [reflexivity|].
    cbn [forallb] in Hall. apply andb_prop in Hall. destruct Hall as [H1 H2].
    cbn [filter]. rewrite H1. cbn [negb]. exact (IH H2). }
  rewrite Hnil in Hc. cbn [map] in Hc. subst cleaned.
  rewrite Hconn, Hclose. reflexivity.
Qed.

(** X13.  When [processFile] throws: if it had connected, its last step
    was a call of [close]; if [this.sequelize] was still set from an
    earlier call, it has called [close] on it; otherwise it has called
    no [close].  The chunks inserted before the failure stay inserted:
    they are an initial part of the chunks of the clean rows.  And
    unless the failure is that of closing the connection, the file of
    faulty rows has not been written. *)
Theorem processFile_failure (env : LoadEnv V) (sequelize0 : bool)
    (filePath tableName : jsstring) (e : LoadError) (sequelize : bool)
    (t : list (LoadEvent V)) :
  processFile toLowerCase V of_jsstring extname path_join env sequelize0
              filePath tableName = (inr e, sequelize, t) ->
  (connected_in t = true -> exists ok, last t LConnect = LClose ok) /\
  (sequelize0 = true -> closings_of t <> []) /\
  (sequelize0 = false -> connected_in t = false ->
   closings_of t = [] /\ sequelize = false) /\
  (close_fault_at env 0 = None -> fault_files_of t = []) /\
  (forall rawData,
     read_result env = inl rawData ->
     exists rest,
       inserted_of t ++ rest
       = chunks (fst (cleanData toLowerCase V rawData
                                (of_jsstring (now_batchid env))))).
Proof.
  set (Q := fun t' : list (LoadEvent V) =>
              forall rawData,
                read_result env = inl rawData ->
                exists rest,
                  inserted_of t' ++ rest
                  = chunks (fst (cleanData toLowerCase V rawData
                                           (of_jsstring (now_batchid env))))).
  change (processFile toLowerCase V of_jsstring extname path_join env
            sequelize0 filePath tableName = (inr e, sequelize, t) ->
          (connected_in t = true -> exists ok, last t LConnect = LClose ok) /\
          (sequelize0 = true -> closings_of t <> []) /\
          (sequelize0 = false -> connected_in t = false ->
           closings_of t = [] /\ sequelize = false) /\
          (close_fault_at env 0 = None -> fault_files_of t = []) /\
          Q t).
  assert (Hci : forall t0 ok, connected_in (t0 ++ [@LClose V ok])
                              = connected_in t0).
  { intros t0 ok. unfold connected_in. rewrite existsb_app. cbn.
    rewrite orb_false_r. reflexivity. }
  assert (Hcatch : forall seq err t0,
            closings_of t0 = [] ->
            fault_files_of t0 = [] ->
            (seq = false -> connected_in t0 = false) ->
            (sequelize0 = true -> seq = true) ->
            (seq = true -> sequelize0 = false -> connected_in t0 = true) ->
            Q t0 ->
            load_catch V env seq 0 err t0 = (inr e, sequelize, t) ->
            (connected_in t = true -> exists ok, last t LConnect = LClose ok) /\
            (sequelize0 = true -> closings_of t <> []) /\
            (sequelize0 = false -> connected_in t = false ->
             closings_of t = [] /\ sequelize = false) /\
            (close_fault_at env 0 = None -> fault_files_of t = []) /\
            Q t).
  { intros seq err t0 Hc Hf Hconn Hseq Hconn2 Hins. unfold load_catch.
    destruct seq.
    - assert (Hboth : forall ok,
                (connected_in (t0 ++ [@LClose V ok]) = true ->
                 exists ok', last (t0 ++ [LClose ok]) LConnect = LClose ok') /\
                (sequelize0 = true -> closings_of (t0 ++ [@LClose V ok]) <> []) /\
                (sequelize0 = false ->
                 connected_in (t0 ++ [@LClose V ok]) = false ->
                 closings_of (t0 ++ [@LClose V ok]) = [] /\ sequelize = false) /\
                (close_fault_at env 0 = None ->
                 fault_files_of (t0 ++ [@LClose V ok]) = []) /\
                Q (t0 ++ [LClose ok])).
      { intros ok. split; [|split; [|split; [|split]]].
        - intros _. exists ok. apply last_last.
        - intros _. rewrite closings_of_app, Hc. discriminate.
        - intros H0 H1. rewrite Hci in H1.
          rewrite (Hconn2 eq_refl H0) in H1. discriminate H1.
        - intros _. rewrite fault_files_of_app, Hf. reflexivity.
        - unfold Q in *. intros rawData Hr.
          destruct (Hins rawData Hr) as [rest Hrest]. exists rest.
          rewrite inserted_of_app. cbn [inserted_of flat_map app].
          rewrite app_nil_r. exact Hrest. }
      destruct (close_fault_at env 0); intros H; injection H as _ _ <-;
        apply Hboth.
    - intros H; injection H as _ <- <-.
      split; [intros H1; rewrite (Hconn eq_refl) in H1; discriminate H1|].
      split; [intros H1; specialize (Hseq H1); discriminate Hseq|].
      split; [intros _ _; split; [exact Hc | reflexivity]|].
      split; [intros _; exact Hf | exact Hins]. }
  assert (Q0 : Q []).
  { unfold Q. intros rawData _. eexists. reflexivity. }
  assert (Hsame : forall err,
            load_catch V env sequelize0 0 err [] = (inr e, sequelize, t) ->
            (connected_in t = true -> exists ok, last t LConnect = LClose ok) /\
            (sequelize0 = true -> closings_of t <> []) /\
            (sequelize0 = false -> connected_in t = false ->
             closings_of t = [] /\ sequelize = false) /\
            (close_fault_at env 0 = None -> fault_files_of t = []) /\
            Q t).
  { intros err. apply Hcatch; try reflexivity; auto.
    intros H1 H2. rewrite H1 in H2. discriminate H2. }
  unfold processFile. cbv zeta.
  destruct (negb _); [apply Hsame|].
  destruct (read_result env) as [rawData|msg] eqn:Hread; [|apply Hsame].
  assert (Hread1 : forall x,
            closings_of [@LRead V filePath x] = [] /\
            fault_files_of [@LRead V filePath x] = [] /\
            connected_in [@LRead V filePath x] = false /\
            Q [@LRead V filePath x]).
  { intros x. repeat split. unfold Q. intros rd _. eexists. reflexivity. }
  destruct (Hread1 (toLowerCase (extname filePath))) as [R1 [R2 [R3 R4]]].
  assert (Hearly : forall err,
            load_catch V env sequelize0 0 err
              [LRead filePath (toLowerCase (extname filePath))]
            = (inr e, sequelize, t) ->
            (connected_in t = true -> exists ok, last t LConnect = LClose ok) /\
            (sequelize0 = true -> closings_of t <> []) /\
            (sequelize0 = false -> connected_in t = false ->
             closings_of t = [] /\ sequelize = false) /\
            (close_fault_at env 0 = None -> fault_files_of t = []) /\
            Q t).
  { intros err. apply Hcatch; auto.
    intros H1 H2. rewrite H1 in H2. discriminate H2. }
  destruct (length rawData =? 0); [apply Hearly|].
  destruct (cleanData toLowerCase V rawData (of_jsstring (now_batchid env)))
    as [cleaned faults] eqn:Ecd.
  destruct (connect_fault env); [apply Hearly|].
  assert (Hlate : forall err tb,
            closings_of tb = [] -> fault_files_of tb = [] ->
            (exists rest, inserted_of tb ++ rest = chunks cleaned) ->
            load_catch V env true 0 err
              (([LRead filePath (toLowerCase (extname filePath))] ++ [LConnect])
               ++ tb)
            = (inr e, sequelize, t) ->
            (connected_in t = true -> exists ok, last t LConnect = LClose ok) /\
            (sequelize0 = true -> closings_of t <> []) /\
            (sequelize0 = false -> connected_in t = false ->
             closings_of t = [] /\ sequelize = false) /\
            (close_fault_at env 0 = None -> fault_files_of t = []) /\
            Q t).
  { intros err tb Hc Hf [rest Hrest]. apply Hcatch.
    - rewrite closings_of_app, Hc. reflexivity.
    - rewrite fault_files_of_app, Hf. reflexivity.
    - discriminate.
    - reflexivity.
    - intros _ _. reflexivity.
    - unfold Q. intros rd Hrd. try rewrite Hread in Hrd. injection Hrd as <-.
      rewrite Ecd. cbn [fst]. exists rest.
      rewrite inserted_of_app. exact Hrest. }
  destruct cleaned as [|first cleaned'].
  { apply (Hlate KeysOfUndefined []); try reflexivity.
    eexists. reflexivity. }
  destruct (model_fault env).
  { apply (Hlate (Failure s) []); try reflexivity. eexists. reflexivity. }
  pose proof (bulk_loop_prefix env (chunks (first :: cleaned')) 0) as Hb.
  destruct (bulk_loop V env 0 (chunks (first :: cleaned'))) as [rb tb].
  cbn [fst snd] in Hb.
  destruct Hb as [B1 [B2 [B3 [[rest [B4 B5]] _]]]].
  set (names := obj_keys first).
  assert (Hmid : forall err tw,
            closings_of tw = [] -> fault_files_of tw = [] ->
            inserted_of tw = [] ->
            load_catch V env true 0 err
              ((([LRead filePath (toLowerCase (extname filePath))] ++ [LConnect])
                ++ [LModel tableName names]) ++ tb ++ tw)
            = (inr e, sequelize, t) ->
            (connected_in t = true -> exists ok, last t LConnect = LClose ok) /\
            (sequelize0 = true -> closings_of t <> []) /\
            (sequelize0 = false -> connected_in t = false ->
             closings_of t = [] /\ sequelize = false) /\
            (close_fault_at env 0 = None -> fault_files_of t = []) /\
            Q t).
  { intros err tw Hc Hf Hi H.
    apply (Hlate err ([LModel tableName names] ++ tb ++ tw)).
    - rewrite !closings_of_app, B1, Hc. reflexivity.
    - rewrite !fault_files_of_app, B2, Hf. reflexivity.
    - exists rest. rewrite !inserted_of_app, Hi, app_nil_r. exact B4.
    - rewrite <- H. f_equal; rewrite <- ?app_assoc; reflexivity. }
  destruct rb as [msg|].
  { intros H. apply (Hmid (Failure msg) []); try reflexivity.
    rewrite app_nil_r. exact H. }
  specialize (B5 eq_refl). subst rest. rewrite app_nil_r in B4.
  set (written := if 0 <? length faults
                  then match faults_write_fault env with
                       | Some msg => inr msg
                       | None =>
                           inl (Some (fault_path V path_join env tableName),
                                [LWriteFaults
                                   (fault_path V path_join env tableName) faults])
                       end
                  else inl (None, [])).
  destruct written as [[path tw]|msg] eqn:Ew.
  2:{ intros H. apply (Hmid (Failure msg) []); try reflexivity.
      rewrite app_nil_r. exact H. }
  destruct (close_fault_at env 0) as [msg|] eqn:Ec; [|discriminate].
  unfold load_catch.
  assert (Hfinal : forall t0 ok,
            connected_in t0 = true -> closings_of t0 <> [] -> Q t0 ->
            (connected_in (t0 ++ [@LClose V ok]) = true ->
             exists ok', last (t0 ++ [LClose ok]) LConnect = LClose ok') /\
            (sequelize0 = true -> closings_of (t0 ++ [@LClose V ok]) <> []) /\
            (sequelize0 = false -> connected_in (t0 ++ [@LClose V ok]) = false ->
             closings_of (t0 ++ [@LClose V ok]) = [] /\ true = false) /\
            (Some msg = None -> fault_files_of (t0 ++ [@LClose V ok]) = []) /\
            Q (t0 ++ [LClose ok])).
  { intros t0 ok Hconn Hcl Hq. split; [|split; [|split; [|split]]].
    - intros _. exists ok. apply last_last.
    - intros _. rewrite closings_of_app. intros H.
      apply app_eq_nil in H. destruct H as [_ H]. discriminate H.
    - intros _ H. rewrite Hci, Hconn in H. discriminate H.
    - intros H. discriminate H.
    - unfold Q in *. intros rd Hrd. destruct (Hq rd Hrd) as [rest' Hrest].
      exists rest'. rewrite inserted_of_app. cbn [inserted_of flat_map app].
      rewrite app_nil_r. exact Hrest. }
  assert (Htw : inserted_of tw = []).
  { unfold written in Ew.
    destruct (0 <? length faults);
      [destruct (faults_write_fault env)|];
      try discriminate Ew; injection Ew as _ <-; reflexivity. }
  clear Hmid Hlate Hearly Hsame Hcatch.
  unfold inserted_of in B4, Htw.
  destruct (close_fault_at env 1); intros H; injection H as _ <- <-;
    (apply (Hfinal (LRead _ _ :: LConnect :: LModel _ _
                      :: tb ++ tw ++ [LClose false]));
     [ reflexivity
     | cbn [closings_of flat_map app]; rewrite !flat_map_app;
       intros H; apply app_eq_nil in H; destruct H as [_ H];
       apply app_eq_nil in H; destruct H as [_ H]; discriminate H
     | unfold Q; intros rd Hrd; try rewrite Hread in Hrd;
       injection Hrd as <-; rewrite Ecd; cbn [fst]; exists [];
       cbn [inserted_of flat_map app]; rewrite !flat_map_app, B4, Htw;
       cbn [flat_map app]; rewrite !app_nil_r; reflexivity ]).
Qed.

End FileProcessorProofs.

Lemma processFile_success_witness :
  closings_of
    (snd (sample_processFile (sample_load_env sample_file_rows (fun _ => None))))
  = [true].
Proof.
  destruct (sample_processFile
              (sample_load_env sample_file_rows (fun _ => None)))
    as [[[res|e] sequelize] t] eqn:E.
  - destruct (processFile_success _ _ _ _ _ _ _ _ _ _ _ _ E)
      as [rawData [_ [_ [_ [_ [_ [_ [_ [_ [_ [_ [H _]]]]]]]]]]]].
    exact H.
  - vm_compute in E. discriminate E.
Defined.

Lemma processFile_all_rows_faulty_witness :
  sample_processFile
    (sample_load_env [ [(js "id", js "2"); ([], js "x")] ] (fun _ => None))
  = (inr KeysOfUndefined, true,
     [LRead (js "invoices.csv") (js ".csv"); LConnect; LClose true]).
Proof.
  apply (processFile_all_rows_faulty (fun s => s) jsstring (fun s => s)
           (fun _ => js ".csv") (fun a b => a ++ js "/" ++ b)
           (sample_load_env [ [(js "id", js "2"); ([], js "x")] ]
                            (fun _ => None))
           false (js "invoices.csv") (js "qlik_invoice_raw")
           [ [(js "id", js "2"); ([], js "x")] ]).
  - reflexivity.
  - reflexivity.
  - discriminate.
  - reflexivity.
  - reflexivity.
  - reflexivity.
Defined.

Lemma processFile_failure_witness :
  exists ok,
    last (snd (sample_processFile
                 (sample_load_env sample_file_rows (fun _ => Some "deadlock"))))
         LConnect
    = LClose ok.
Proof.
  destruct (sample_processFile
              (sample_load_env sample_file_rows (fun _ => Some "deadlock")))
    as [[[res|e] sequelize] t] eqn:E.
  - vm_compute in E. discriminate E.
  - destruct (processFile_failure _ _ _ _ _ _ _ _ _ _ _ _ E) as [H _].
    apply H. vm_compute in E. injection E as _ _ <-. reflexivity.
Defined.

(* ================================================================= *)
(** ** The script [read-file-2-db.js] *)

Section ReadFileToDbProofs.

Variable toLowerCase : jsstring -> jsstring.
Variable V : Type.
Variable of_jsstring : jsstring -> V.
Variable extname : jsstring -> jsstring.




End ReadFileToDbProofs.


(* ================================================================= *)
(** ** The entry point in counts-only mode *)

(** X15.  With [modeFlag] 1 the entry point only counts: it starts no
    statement of the batch, retires no row, writes no file and leaves
    the store as it was.  It always ends with [process.exit], with 0
    exactly when the connection check, the two counts and the closing
    of the connection all succeeded, and with 1 otherwise.  It closes
    the connection at most once, and once unless a call of [close]
    fails. *)
Theorem cli_counts_only_reads (argv : list jsstring) (env : Env)
    (cenv : CountsEnv) (s : State) :
  modeFlag argv = 1%Z ->
  let r := fst (fst (cli_main argv env cenv s)) in
  let s' := snd (fst (cli_main argv env cenv s)) in
  let t := snd (cli_main argv env cenv s) in
  store s' = store s /\ files s' = files s /\
  starts_of t = [] /\ retired_count t = 0 /\ writes_of t = [] /\
  (r = Exit 0%Z \/ r = Exit 1%Z) /\
  (r = Exit 0%Z <->
   authenticate_fault env = None /\ count_fault cenv = None /\
   group_fault cenv = None /\ close_fault env = None) /\
  closes_of t <= 1 /\
  (close_fault env = None -> close_again_fault cenv = None -> closes_of t = 1).
Proof.
  intros Hmode. unfold cli_main. rewrite Hmode. cbn [Z.eqb Pos.eqb].
  unfold cli_counts, construct, try_catch, bind, guarded, read_only, emit,
    throw, ret, put_this, process_exit.
  cbv zeta.
  destruct (authenticate_fault env) as [m1|];
    destruct (count_fault cenv) as [m2|];
    destruct (group_fault cenv) as [m3|];
    destruct (close_fault env) as [m4|];
    destruct (close_again_fault cenv) as [m5|];
    cbn; unfold closes_of; cbn;
    repeat split; auto; try discriminate; try lia;
    try (intros H; decompose [and] H; discriminate);
    try (intros [H|H]; discriminate).
Qed.

Lemma cli_counts_only_reads_witness :
  fst (fst (cli_main (sample_argv ["1"]) (quiet_env [])
              {| count_fault := None;
                 group_fault := Some "relation does not exist";
                 close_again_fault := None |}
              (fresh_state sample_store)))
  = Exit 1%Z /\
  closes_of
    (snd (cli_main (sample_argv ["1"]) (quiet_env [])
            {| count_fault := None;
               group_fault := Some "relation does not exist";
               close_again_fault := None |}
            (fresh_state sample_store)))
  = 1.
Proof.
  assert (Hmode : modeFlag (sample_argv ["1"]) = 1%Z)
    by (vm_compute; reflexivity).
  destruct (cli_counts_only_reads (sample_argv ["1"]) (quiet_env [])
              {| count_fault := None;
                 group_fault := Some "relation does not exist";
                 close_again_fault := None |}
              (fresh_state sample_store) Hmode)
    as [_ [_ [_ [_ [_ [_ [_ [_ H]]]]]]]].
  split; [vm_compute; reflexivity | apply H; reflexivity].
Defined.

(* ================================================================= *)
(** ** The progress reports of [executeAllQueries] *)

Lemma progress_of_app (t1 t2 : list Event) :
  progress_of (t1 ++ t2) = progress_of t1 ++ progress_of t2.
Proof. unfold progress_of. apply flat_map_app. Qed.

Section ProgressProofs.

Variable L : nat.
Variable total : nat.
Variable f0 : list Result.

Lemma ProgressInv_same (p p' : Pool) :
  processedCount p' = processedCount p ->
  successCount p' = successCount p ->
  pool_failed p' = pool_failed p ->
  progress_of (trace p') = progress_of (trace p) ->
  ProgressInv total f0 p -> ProgressInv total f0 p'.
Proof.
  intros H1 H2 H3 H4 [Hc Hr Hl].
  constructor; rewrite ?H1, ?H2, ?H3, ?H4; assumption.
Qed.

Lemma replenish_reports (items : list Query) :
  forall p,
    processedCount (replenish L items p) = processedCount p /\
    successCount (replenish L items p) = successCount p /\
    pool_failed (replenish L items p) = pool_failed p /\
    progress_of (trace (replenish L items p)) = progress_of (trace p).
Proof.
  induction items as [|q rest IH]; intros p; simpl.
  - destruct ((running p <? L) && negb (done p)); [|repeat split].
    destruct (running p <=? 0); repeat split.
  - destruct ((running p <? L) && negb (done p)); [|repeat split].
    destruct (IH (admit_one q p)) as [I1 [I2 [I3 I4]]].
    rewrite I1, I2, I3, I4. simpl. rewrite progress_of_app. simpl.
    rewrite app_nil_r. repeat split.
Qed.

Lemma on_result_ProgressInv (result : Result) (p : Pool) :
  ProgressInv total f0 p -> ProgressInv total f0 (on_result total result p).
Proof.
  intros [Hc Hr Hl]. unfold on_result. cbv zeta.
  destruct ((S (processedCount p) mod 100 =? 0)
            || (S (processedCount p) =? total)) eqn:Hdue.
  - constructor; cbn [log_event processedCount successCount pool_failed trace].
    + destruct (negb (success result)); rewrite ?length_app; cbn [length]; lia.
    + rewrite progress_of_app. apply Forall_app. split; [exact Hr|].
      cbn. constructor; [|constructor]. split; cbn [fst snd].
      * apply orb_true_iff in Hdue. destruct Hdue as [H|H].
        -- left. apply Nat.eqb_eq in H. exact H.
        -- right. apply Nat.eqb_eq in H. exact H.
      * destruct (negb (success result)); rewrite ?length_app; cbn [length];
          lia.
    + destruct (Nat.lt_trichotomy (S (processedCount p)) total) as [H|[H|H]];
        [left; exact H | | right; left; exact H].
      right. right. rewrite progress_of_app. apply in_or_app. right.
      rewrite H. left. reflexivity.
  - apply orb_false_iff in Hdue. destruct Hdue as [_ Hne].
    apply Nat.eqb_neq in Hne.
    constructor; cbn [processedCount successCount pool_failed trace].
    + destruct (negb (success result)); rewrite ?length_app; cbn [length]; lia.
    + exact Hr.
    + destruct (Nat.lt_trichotomy (S (processedCount p)) total) as [H|[H|H]];
        [left; exact H | contradiction | right; left; exact H].
Qed.

Lemma settle_ProgressInv (ev : nat * option string) (p : Pool) :
  ProgressInv total f0 p -> ProgressInv total f0 (settle L total ev p).
Proof.
  intros Hp. unfold settle.
  destruct (inflight p) as [|q0 fl]; [exact Hp|].
  set (p1 := {| queue := queue p;
                inflight := remove_nth (fst ev mod length (q0 :: fl)) (q0 :: fl);
                running := running p; done := done p; finished := finished p;
                pool_failed := pool_failed p; successCount := successCount p;
                processedCount := processedCount p;
                trace := trace p ++ [ESettle (nth (fst ev mod length (q0 :: fl))
                                                  (q0 :: fl) q0) (snd ev)] |}).
  assert (H1 : ProgressInv total f0 p1).
  { apply (ProgressInv_same p); try reflexivity; [|exact Hp].
    unfold p1. cbn [trace]. rewrite progress_of_app. cbn. apply app_nil_r. }
  assert (Hcb : forall err p2,
             ProgressInv total f0 p2 ->
             ProgressInv total f0 (iterateeCallback L err p2)).
  { intros err p2 H2. unfold iterateeCallback. cbv zeta.
    destruct err as [msg|].
    - apply (ProgressInv_same p2); try reflexivity. exact H2.
    - match goal with
      | |- context [if ?c then _ else _] => destruct c
      end.
      + apply (ProgressInv_same p2); try reflexivity. exact H2.
      + match goal with
        | |- ProgressInv _ _ (replenish _ ?items ?x) =>
            destruct (replenish_reports items x) as [I1 [I2 [I3 I4]]];
              apply (ProgressInv_same p2); [exact I1 | exact I2 | exact I3
                                           | exact I4 | exact H2]
        end. }
  destruct (executeSingleQuery _ (snd ev)).
  - apply Hcb. apply on_result_ProgressInv. exact H1.
  - apply Hcb. exact H1.
Qed.

Lemma eachOfLimit_ProgressInv (all : list Query)
    (answers : list (nat * option string)) :
  1 <= total ->
  ProgressInv total f0
    (fold_left (fun p ev => settle L total ev p) answers
               (replenish L all (init_pool f0))).
Proof.
  intros Ht.
  assert (H0 : ProgressInv total f0 (replenish L all (init_pool f0))).
  { destruct (replenish_reports all (init_pool f0)) as [I1 [I2 [I3 I4]]].
    apply (ProgressInv_same (init_pool f0)); try assumption.
    constructor; cbn.
    - lia.
    - constructor.
    - left. lia. }
  revert H0. generalize (replenish L all (init_pool f0)).
  induction answers as [|ev answers IH]; intros p Hp; simpl.
  - exact Hp.
  - apply IH. apply settle_ProgressInv. exact Hp.
Qed.

End ProgressProofs.

(** X16.  Every progress report of [executeAllQueries] is printed after
    a multiple of 100 results or after the last one, and its counts add
    up: the results counted, with the failures collected before the
    call, are the successes and the failures it shows.  When the call
    resolves, the report of the last result has been printed, with the
    final counts. *)
Theorem executeAllQueries_progress_reports (env : Env)
    (allQueries : list Query) (s : State) :
  1 <= length allQueries ->
  let r := fst (fst (executeAllQueries env allQueries s)) in
  let t := snd (executeAllQueries env allQueries s) in
  Forall (report_ok (length allQueries) (failedQueries (this s)))
         (progress_of t) /\
  (r = Ret tt ->
   In (length allQueries, successes_of t,
       length (failedQueries (this s)) + length (failures_of t))
      (progress_of t)).
Proof.
  intros Hn. cbv zeta.
  pose proof (eachOfLimit_ProgressInv CONCURRENCY_LIMIT (length allQueries)
                (failedQueries (this s)) allQueries (settles env) Hn) as Hinv.
  fold (eachOfLimit CONCURRENCY_LIMIT allQueries (settles env)
          (failedQueries (this s))) in Hinv.
  pose proof (eachOfLimit_resolved CONCURRENCY_LIMIT allQueries (settles env)
                (failedQueries (this s)) CONCURRENCY_LIMIT_positive) as Hres.
  cbv zeta in Hres.
  destruct (executeAllQueries_shape env allQueries s) as [[E F]|[E F]];
    rewrite E; cbn [fst snd].
  - destruct Hinv as [Hc Hr Hl].
    split; [exact Hr|]. intros _.
    destruct (Hres F) as [_ [_ [R3 [R4 [R5 _]]]]].
    rewrite R3 in Hl. destruct Hl as [Hl|[Hl|Hl]]; try lia.
    rewrite R5, R4, length_app in Hl. exact Hl.
  - destruct Hinv as [Hc Hr Hl].
    split; [exact Hr | discriminate].
Qed.

Lemma executeAllQueries_progress_reports_witness :
  In (3, 2, 1)
     (progress_of
        (snd (executeAllQueries (quiet_env sample_answers) sample_queries
                (fresh_state sample_store)))).
Proof.
  assert (Hn : 1 <= length sample_queries)
    by (vm_compute; apply le_S, le_S, le_n).
  assert (Hr : fst (fst (executeAllQueries (quiet_env sample_answers)
                           sample_queries (fresh_state sample_store)))
               = Ret tt) by (vm_compute; reflexivity).
  destruct (executeAllQueries_progress_reports (quiet_env sample_answers)
              sample_queries (fresh_state sample_store) Hn) as [_ H].
  specialize (H Hr). vm_compute in H. vm_compute. exact H.
Defined.

(* ================================================================= *)
(** ** The sequential runner of the invoice files *)

Section SequentialProofs.

Variable Machine : Type.
Variable node : list string -> Machine -> bool * Machine.
Variable is_file : string -> Machine -> bool.

Lemma read_args_not_delta (p : string) : read_args p <> delta_args.
Proof. discriminate. Qed.

Lemma sequential_loop_facts (files : list string) :
  forall m code t m',
    sequential_loop Machine node is_file files m = (code, t, m') ->
    (code = 0%Z \/ code = 1%Z) /\
    (code = 1%Z <-> exists args, In (SqRun args false) t) /\
    (forall a args b, t = a ++ SqRun args false :: b -> b = []) /\
    (forall a ok b,
       t = a ++ SqRun delta_args ok :: b ->
       exists a' p, a = a' ++ [SqRun (read_args p) true]) /\
    (exists rest,
       files_reached t ++ rest
       = map (fun file => (downloads_path ++ "/" ++ file)%string) files).
Proof.
  induction files as [|file files IH]; intros m code t m'; cbn [sequential_loop].
  - intros H. injection H as <- <- <-.
    split; [left; reflexivity|].
    split; [split; [discriminate | intros [args []]]|].
    split; [intros [|x a] args b H; discriminate H|].
    split; [intros [|x a] ok b H; discriminate H|].
    exists []. reflexivity.
  - cbv zeta.
    set (file_path := (downloads_path ++ "/" ++ file)%string).
    destruct (negb (is_file file_path m)).
    + destruct (sequential_loop Machine node is_file files m)
        as [[code0 t0] m0] eqn:E.
      intros H. injection H as <- <- <-.
      destruct (IH m code0 t0 m0 E) as [I1 [I2 [I3 [I4 [rest I5]]]]].
      split; [exact I1|].
      split.
      { rewrite I2. split; intros [args Hin]; exists args.
        - right. exact Hin.
        - destruct Hin as [Hin|Hin]; [discriminate Hin | exact Hin]. }
      split.
      { intros [|x a] args b H; [discriminate H|].
        injection H as _ H. exact (I3 a args b H). }
      split.
      { intros [|x a] ok b H; [discriminate H|].
        injection H as Hx H. subst x.
        destruct (I4 a ok b H) as [a' [p Ha]].
        exists (SqMissing file_path :: a'), p. rewrite Ha. reflexivity. }
      exists rest. cbn [files_reached flat_map map app].
      fold (files_reached t0). rewrite <- I5. reflexivity.
    + destruct (node (read_args file_path) m) as [ok1 m1].
      destruct ok1.
      * destruct (node delta_args m1) as [ok2 m2].
        destruct ok2.
        -- destruct (sequential_loop Machine node is_file files m2)
             as [[code0 t0] m0] eqn:E.
           intros H. injection H as <- <- <-.
           destruct (IH m2 code0 t0 m0 E) as [I1 [I2 [I3 [I4 [rest I5]]]]].
           split; [exact I1|].
           split.
           { rewrite I2. split; intros [args Hin]; exists args.
             - right. right. exact Hin.
             - destruct Hin as [Hin|[Hin|Hin]];
                 [discriminate Hin | discriminate Hin | exact Hin]. }
           split.
           { intros [|x [|y a]] args b H; try discriminate H.
             injection H as _ _ H. exact (I3 a args b H). }
           split.
           { intros [|x [|y a]] ok b H.
             - discriminate H.
             - injection H as <- _ _. exists [], file_path. reflexivity.
             - injection H as Hx Hy H. subst x y.
               destruct (I4 a ok b H) as [a' [p Ha]].
               exists (SqRun (read_args file_path) true
                         :: SqRun delta_args true :: a'), p.
               rewrite Ha. reflexivity. }
           exists rest. cbn [files_reached flat_map map app read_args delta_args].
           fold (files_reached t0). rewrite <- I5. reflexivity.
        -- intros H. injection H as <- <- <-.
           split; [right; reflexivity|].
           split.
           { split; [|reflexivity]. intros _. exists delta_args.
             right. left. reflexivity. }
           split.
           { intros [|x [|y [|z a]]] args b H; try discriminate H.
             injection H as _ _ <-. reflexivity. }
           split.
           { intros [|x [|y [|z a]]] ok b H; try discriminate H.
             injection H as <- _ _. exists [], file_path. reflexivity. }
           eexists. cbn [files_reached flat_map map app read_args delta_args].
           reflexivity.
      * intros H. injection H as <- <- <-.
        split; [right; reflexivity|].
        split.
        { split; [|reflexivity]. intros _. exists (read_args file_path).
          left. reflexivity. }
        split.
        { intros [|x [|y a]] args b H; try discriminate H.
          injection H as _ <-. reflexivity. }
        split.
        { intros [|x [|y a]] ok b H; discriminate H. }
        eexists. cbn [files_reached flat_map map app read_args].
        reflexivity.
Qed.

(** X17.  The sequential runner takes the invoice files in their order
    and stops at the first command that fails: it leaves with status 1
    exactly when a command it ran failed, and then that command is the
    last thing it did; otherwise it leaves with 0.  A missing file is
    passed over and is no failure.  The delta step only ever runs right
    after the read step succeeded. *)
Theorem process_invoice_files_fail_fast (m : Machine) (code : Z)
    (t : list SeqEvent) (m' : Machine) :
  process_invoice_files Machine node is_file m = (code, t, m') ->
  (code = 0%Z \/ code = 1%Z) /\
  (code = 1%Z <-> exists args, In (SqRun args false) t) /\
  (forall a args b, t = a ++ SqRun args false :: b -> b = []) /\
  (forall a ok b,
     t = a ++ SqRun delta_args ok :: b ->
     exists a' p, a = a' ++ [SqRun (read_args p) true]) /\
  (exists rest,
     files_reached t ++ rest
     = map (fun file => (downloads_path ++ "/" ++ file)%string) invoice_files).
Proof.
  unfold process_invoice_files. apply sequential_loop_facts.
Qed.

End SequentialProofs.

Lemma process_invoice_files_fail_fast_witness :
  fst (fst (process_invoice_files nat sample_node (fun _ _ => true) 0)) = 1%Z /\
  files_reached
    (snd (fst (process_invoice_files nat sample_node (fun _ _ => true) 0)))
  = [ "/Users/kebsi/Downloads/Invoice_1995-2019.csv";
      "/Users/kebsi/Downloads/Invoice_2020.csv" ].
Proof.
  destruct (process_invoice_files nat sample_node (fun _ _ => true) 0)
    as [[code t] m'] eqn:E.
  destruct (process_invoice_files_fail_fast nat sample_node (fun _ _ => true)
              0 code t m' E) as [_ [H _]].
  vm_compute in E. injection E as <- <- <-.
  split; [|reflexivity].
  apply H. exists delta_args. right. right. right. left. reflexivity.
Defined.

(* ================================================================= *)
(** ** The upload route of the server *)

Section UploadRouteProofs.

Variable toLowerCase : jsstring -> jsstring.
Variable V : Type.
Variable of_jsstring : jsstring -> V.
Variable extname : jsstring -> jsstring.
Variable path_join : jsstring -> jsstring -> jsstring.

(** X18.  The filter of the upload route lets through more than
    [processFile] takes.  A file with the extension [.xls], or with one
    of the allowed MIME types and any extension other than [.csv] and
    [.xlsx], passes the filter; the handler then answers 500, whatever
    the file holds: [processFile] has not read the file and has neither
    connected nor inserted anything. *)
Theorem upload_accepted_but_unsupported (env : LoadEnv V) (sequelize0 : bool)
    (f : UploadedFile) (tableName : jsstring)
    (metadata_fault : option string) :
  includes allowedMimes (mimetype f) = true \/
  toLowerCase (extname (originalname f)) = js ".xls" ->
  jsstring_eqb (toLowerCase (extname (file_path f))) (js ".csv") = false ->
  jsstring_eqb (toLowerCase (extname (file_path f))) (js ".xlsx") = false ->
  missing (Some tableName) = false ->
  let r := upload_handler toLowerCase V of_jsstring extname path_join
                          env sequelize0 (Some f) (Some tableName)
                          metadata_fault in
  fileFilter toLowerCase extname (originalname f) (mimetype f) = true /\
  fst (fst r) = 500 /\
  reads_of (snd r) = [] /\ connected_in (snd r) = false /\
  inserted_of (snd r) = [] /\
  snd (fst r) = sequelize0.
Proof.
  intros Hpass Hcsv Hxlsx Hname. cbv zeta.
  split.
  { unfold fileFilter. destruct Hpass as [H|H].
    - rewrite H. reflexivity.
    - rewrite H. apply orb_true_r. }
  unfold upload_handler. rewrite Hname.
  unfold processFile. cbv zeta. rewrite Hcsv, Hxlsx. cbn [orb negb].
  unfold load_catch.
  destruct sequelize0; [destruct (close_fault_at env 0)|]; cbn;
    repeat split.
Qed.

End UploadRouteProofs.

Lemma upload_accepted_but_unsupported_witness :
  fileFilter (fun s => s) sample_extname (js "report.xls")
             (js "application/octet-stream") = true /\
  fst (fst (upload_handler (fun s => s) jsstring (fun s => s) sample_extname
              (fun a b => a ++ js "/" ++ b)
              (sample_load_env sample_file_rows (fun _ => None)) false
              (Some {| originalname := js "report.xls";
                       mimetype := js "application/octet-stream";
                       file_path := js "uploads/uploaded_file.xls" |})
              (Some (js "qlik_invoice_raw")) None))
  = 500.
Proof.
  destruct (upload_accepted_but_unsupported (fun s => s) jsstring (fun s => s)
              sample_extname (fun a b => a ++ js "/" ++ b)
              (sample_load_env sample_file_rows (fun _ => None)) false
              {| originalname := js "report.xls";
                 mimetype := js "application/octet-stream";
                 file_path := js "uploads/uploaded_file.xls" |}
              (js "qlik_invoice_raw") None)
    as [H1 [H2 _]].
  - right. vm_compute. reflexivity.
  - vm_compute. reflexivity.
  - vm_compute. reflexivity.
  - reflexivity.
  - split; [exact H1 | exact H2].
Defined.
